(** * ScreensaverHero: particle physics, box phases and vignette sequencing

    A shallow embedding of [src/components/ScreensaverHero.tsx] (and of its
    earlier revision, which has the same physics loop and phase handlers).

    - [Physics] embeds [createParticles] and the per-frame callback
      [animate].  JavaScript numbers are idealised as real numbers:
      [Math.hypot] is the real square root of the sum of squares, and
      [Math.random] is an arbitrary stream of reals.
    - [Hero] embeds the React components: the [useState] cells of
      [ScreensaverHero], the refs and effects of [WordParticles], the two
      vignette components, and the browser's timer and animation-frame
      tables that [setTimeout] and [requestAnimationFrame] write to. *)

From Stdlib Require Import Reals Lra Lia.
From stdpp Require Import base option list gmap strings.

(* ================================================================== *)
(** * Part I: definitions                                              *)
(* ================================================================== *)

Module Physics.

Local Open Scope R_scope.

(** [interface Particle] *)
Record Particle := mkParticle {
  id : nat;
  word : string;
  x : R;  y : R;
  vx : R; vy : R;
}.

Definition BOUND_W  : R := 160.
Definition BOUNCE_H : R := 160.
Definition GAP      : R := 16.
Definition BOUND_H  : R := BOUNCE_H.
Definition SPEED    : R := 0.35.
Definition REP_DIST : R := 60.
Definition REP_FORCE : R := 0.25.

Definition COL_SPACING  : R := 20.
Definition COL_X        : R := BOUND_W / 2.
Definition COL_BOTTOM_Y : R := BOUNCE_H - 12.

Definition colY (i : nat) : R := COL_BOTTOM_Y - INR i * COL_SPACING.

Definition BOX_CX : R := BOUND_W / 2.
Definition BOX_CY : R := BOUND_H + GAP + 80.

(** [Math.hypot] on two arguments. *)
Definition hypot (a b : R) : R := sqrt (a * a + b * b).

(** Field assignments [p.x = v], [p.vx = v], ... *)
Definition set_x (v : R) (p : Particle) : Particle :=
  mkParticle (id p) (word p) v (y p) (vx p) (vy p).
Definition set_y (v : R) (p : Particle) : Particle :=
  mkParticle (id p) (word p) (x p) v (vx p) (vy p).
Definition set_vx (v : R) (p : Particle) : Particle :=
  mkParticle (id p) (word p) (x p) (y p) v (vy p).
Definition set_vy (v : R) (p : Particle) : Particle :=
  mkParticle (id p) (word p) (x p) (y p) (vx p) v.

(** ** createParticles

    [rand(min, max)] is [Math.random() * (max - min) + min]; [u] is the value
    [Math.random()] returned. *)
Definition rand (u min max : R) : R := u * (max - min) + min.

Section Random.
(** [random k] is the value of the [k]-th call of [Math.random]. *)
Variable random : nat -> R.

(** The particle made for the word at index [i], when [k] calls of
    [Math.random] came before: the angle is drawn first, then [x], then
    [y]. *)
Definition createParticle (k i : nat) (w : string) : Particle :=
  let angle := rand (random k) 0 (PI * 2) in
  mkParticle i w
    (rand (random (k + 1)) 16 (BOUND_W - 16))
    (rand (random (k + 2)) 16 (BOUNCE_H - 16))
    (cos angle * SPEED) (sin angle * SPEED).

(** [words.map((word, i) => ...)], with [i] the index of the first word
    of [words] and [k] the number of earlier draws. *)
Fixpoint createParticles_from (k i : nat) (words : list string)
  : list Particle :=
  match words with
  | [] => []
  | w :: ws => createParticle k i w :: createParticles_from (k + 3) (S i) ws
  end.

Definition createParticles (k : nat) (words : list string) : list Particle :=
  createParticles_from k 0 words.
End Random.

(** ** animate: one frame of the physics loop *)

(** The four wall tests on [p = ps[i]], in the order of the source. *)
Definition wall (p : Particle) : Particle :=
  let p := if Rle_dec (x p) 0
           then set_vx (Rabs (vx p)) (set_x 0 p) else p in
  let p := if Rge_dec (x p) BOUND_W
           then set_vx (- Rabs (vx p)) (set_x BOUND_W p) else p in
  let p := if Rle_dec (y p) 0
           then set_vy (Rabs (vy p)) (set_y 0 p) else p in
  let p := if Rge_dec (y p) BOUNCE_H
           then set_vy (- Rabs (vy p)) (set_y BOUNCE_H p) else p in
  p.

(** The body of the inner loop for one [q = ps[j]]: the pair after the
    repulsion test. *)
Definition repel_pair (p q : Particle) : Particle * Particle :=
  let dx := x p - x q in
  let dy := y p - y q in
  let d := hypot dx dy in
  if Rlt_dec d REP_DIST then
    if Rgt_dec d 0 then
      let f := ((REP_DIST - d) / REP_DIST) * REP_FORCE in
      let nx := dx / d in
      let ny := dy / d in
      (set_vy (vy p + ny * f) (set_vx (vx p + nx * f) p),
       set_vy (vy q - ny * f) (set_vx (vx q - nx * f) q))
    else (p, q)
  else (p, q).

(** The inner loop [for (j = i + 1; j < ps.length; j++)]: [p] is [ps[i]],
    [qs] the particles after it. *)
Fixpoint repel (p : Particle) (qs : list Particle)
  : Particle * list Particle :=
  match qs with
  | [] => (p, [])
  | q :: qs' =>
      let '(p1, q1) := repel_pair p q in
      let '(p2, qs1) := repel p1 qs' in
      (p2, q1 :: qs1)
  end.

(** [if (spd > 0) { p.vx = (p.vx / spd) * SPEED; ... }] *)
Definition renorm (p : Particle) : Particle :=
  let spd := hypot (vx p) (vy p) in
  if Rgt_dec spd 0
  then set_vy ((vy p / spd) * SPEED) (set_vx ((vx p / spd) * SPEED) p)
  else p.

(** [p.x += p.vx; p.y += p.vy] *)
Definition integrate (p : Particle) : Particle :=
  set_y (y p + vy p) (set_x (x p + vx p) p).

(** The outer loop [for (i = 0; i < ps.length; i++)], on the particles from
    index [i] on; [n] counts the iterations that remain. *)
Fixpoint animate_loop (n : nat) (ps : list Particle) : list Particle :=
  match n, ps with
  | S n', p :: rest =>
      let '(p1, rest1) := repel (wall p) rest in
      integrate (renorm p1) :: animate_loop n' rest1
  | _, _ => ps
  end.

Definition animate (ps : list Particle) : list Particle :=
  animate_loop (length ps) ps.

(** The particles after [n] frames. *)
Definition frames (n : nat) (ps : list Particle) : list Particle :=
  Nat.iter n animate ps.

(** ** Predicates of the claims *)

Definition in_bounds (p : Particle) : Prop :=
  0 <= x p <= BOUND_W /\ 0 <= y p <= BOUNCE_H.

Definition within_overshoot (p : Particle) : Prop :=
  - SPEED <= x p <= BOUND_W + SPEED /\ - SPEED <= y p <= BOUNCE_H + SPEED.

Definition in_interior (p : Particle) : Prop :=
  16 <= x p <= BOUND_W - 16 /\ 16 <= y p <= BOUNCE_H - 16.

Definition speed (p : Particle) : R := hypot (vx p) (vy p).

Definition at_rest (p : Particle) : Prop := vx p = 0 /\ vy p = 0.

Definition speed_ok (p : Particle) : Prop := speed p = SPEED \/ at_rest p.

(** The velocity change [repel_pair] gives to [p] (and, negated, to [q]). *)
Definition impulse (p q : Particle) : R * R :=
  let dx := x p - x q in
  let dy := y p - y q in
  let d := hypot dx dy in
  if Rlt_dec d REP_DIST then
    if Rgt_dec d 0 then
      let f := ((REP_DIST - d) / REP_DIST) * REP_FORCE in
      ((dx / d) * f, (dy / d) * f)
    else (0, 0)
  else (0, 0).

Definition distance (p q : Particle) : R := hypot (x p - x q) (y p - y q).

Definition push (v : R * R) (p : Particle) : Particle :=
  set_vy (vy p + snd v) (set_vx (vx p + fst v) p).
Definition pull (v : R * R) (p : Particle) : Particle :=
  set_vy (vy p - snd v) (set_vx (vx p - fst v) p).

Definition vadd (u v : R * R) : R * R := (fst u + fst v, snd u + snd v).

(** The sum of the velocity changes the particles [qs] give to [p]. *)
Fixpoint total_impulse (p : Particle) (qs : list Particle) : R * R :=
  match qs with
  | [] => (0, 0)
  | q :: qs' => vadd (impulse p q) (total_impulse p qs')
  end.

(** The magnitude [((REP_DIST - d) / REP_DIST) * REP_FORCE] at distance [d]. *)
Definition force (d : R) : R := ((REP_DIST - d) / REP_DIST) * REP_FORCE.

(** One frame without walls or neighbours in reach: a step along the
    velocity. *)
Definition drift (p : Particle) : Particle := integrate p.

(** No two particles of [ps] are within the repulsion radius. *)
Fixpoint spread (ps : list Particle) : Prop :=
  match ps with
  | [] => True
  | p :: qs => Forall (fun q => REP_DIST <= distance p q) qs /\ spread qs
  end.

(** A particle that moves left along the x axis at the fixed speed. *)
Definition moving_left (p : Particle) : Prop := vx p = - SPEED /\ vy p = 0.

Definition strictly_inside (p : Particle) : Prop :=
  0 < x p < BOUND_W /\ 0 < y p < BOUNCE_H.

(** ** A run that leaves the square

    Eighteen values of [Math.random], all in [[0, 1)]: six particles on a
    grid of pairwise distance at least 62, every heading the angle pi. *)
Definition drift_draws : list R :=
  [ 1/2; 0;   0;
    1/2; 0;   1/2;
    1/2; 0;   63/64;
    1/2; 1/2; 0;
    1/2; 1/2; 1/2;
    1/2; 1/2; 63/64 ].

Definition drift_random (k : nat) : R := nth k drift_draws (1/2).

Definition define_words : list string :=
  ["Assumptions"; "Context"; "History"; "Processes"; "Problem"; "Constraints"]%string.

(** What [createParticles] makes of these draws. *)
Definition drift_start : list Particle :=
  [ mkParticle 0 "Assumptions" 16 16  (- SPEED) 0;
    mkParticle 1 "Context"     16 80  (- SPEED) 0;
    mkParticle 2 "History"     16 142 (- SPEED) 0;
    mkParticle 3 "Processes"   80 16  (- SPEED) 0;
    mkParticle 4 "Problem"     80 80  (- SPEED) 0;
    mkParticle 5 "Constraints" 80 142 (- SPEED) 0 ]%string.

(** A particle left of the wall, heading further left, and one at rest. *)
Definition stray : Particle := mkParticle 0 "Context" (-1) 5 (-1) 0.
Definition still : Particle := mkParticle 0 "Context" 5 5 0 0.

(** Two particles at distance 5, and two at distance 100. *)
Definition near_a : Particle := mkParticle 0 "Risk" 13 14 1 0.
Definition near_b : Particle := mkParticle 1 "ROI" 10 10 0 1.
Definition far_b : Particle := mkParticle 1 "ROI" 113 14 0 1.

End Physics.

Module Hero.

Import Physics.

(** [type BoxPhase] *)
Inductive BoxPhase := idle | active | gathering | closing | closed.

#[global] Instance BoxPhase_eq_dec : EqDecision BoxPhase.
Proof. solve_decision. Defined.

#[global] Instance BoxPhase_inhabited : Inhabited BoxPhase := populate idle.

(** [a === b] on phases. *)
Definition phase_eqb (a b : BoxPhase) : bool :=
  match a, b with
  | idle, idle | active, active | gathering, gathering
  | closing, closing | closed, closed => true
  | _, _ => false
  end.

Record BoxData := mkBoxData {
  box_id : string;
  label : string;
  closedLabel : string;
  words : list string;
}.

Definition BOX_DATA : list BoxData := [
  mkBoxData "define" "DEFINE" "DEFINED"
    ["Assumptions"; "Context"; "History"; "Processes"; "Problem"; "Constraints"];
  mkBoxData "decide" "DECIDE" "DECIDED"
    ["Options"; "Trade-offs"; "Modeling"; "ROI"; "Risk"; "Sensitivity"];
  mkBoxData "deploy" "DEPLOY" "DEPLOYED"
    ["Alignment"; "Ownership"; "Sequencing"; "Execution"; "Measurement"; "Feedback"]
]%string.

(** ** The browser: timers, animation frames, [Math.random] *)

(** The functions the components hand to [setTimeout]. *)
Inductive Callback :=
  | GatherDone (i : nat)     (* [onGatherDone] of box [i] *)
  | ClosingDone (i : nat)    (* [onClosingDone] of box [i] *)
  | StickDone (i : nat)      (* [() => { setDone(true); onDone?.() }] *)
  | DefineDone (i : nat)     (* [() => { onDone?.() }] *)
  | DefineUnmount (i : nat)  (* [() => setDone(true)] *)
  | ShakeDone.               (* the closure of [handleDefineDone] *)

#[global] Instance Callback_eq_dec : EqDecision Callback.
Proof. solve_decision. Defined.

Record Timer := mkTimer { callback : Callback; delay : N }.

(** [timers] and [rafs] hold the pending [setTimeout] and
    [requestAnimationFrame] requests under their handles ([rafs] maps a
    handle to the box whose [animate] was registered); [draws] counts the
    calls of [Math.random]. *)
Record Browser := mkBrowser {
  timers : gmap nat Timer;
  next_timer : nat;
  rafs : gmap nat nat;
  next_raf : nat;
  draws : nat;
}.

Definition setTimeout (c : Callback) (ms : N) (b : Browser) : nat * Browser :=
  (next_timer b,
   mkBrowser (<[next_timer b := mkTimer c ms]> (timers b)) (S (next_timer b))
             (rafs b) (next_raf b) (draws b)).

Definition clearTimeout (h : nat) (b : Browser) : Browser :=
  mkBrowser (delete h (timers b)) (next_timer b) (rafs b) (next_raf b) (draws b).

Definition requestAnimationFrame (i : nat) (b : Browser) : nat * Browser :=
  (next_raf b,
   mkBrowser (timers b) (next_timer b)
             (<[next_raf b := i]> (rafs b)) (S (next_raf b)) (draws b)).

Definition cancelAnimationFrame (h : nat) (b : Browser) : Browser :=
  mkBrowser (timers b) (next_timer b) (delete h (rafs b)) (next_raf b) (draws b).

Definition drawn (n : nat) (b : Browser) : Browser :=
  mkBrowser (timers b) (next_timer b) (rafs b) (next_raf b) (draws b + n).

(** ** ScreensaverHero: state and handlers *)

Record HeroState := mkHero {
  phases : list BoxPhase;
  defineSceneActive : bool;
  isShaking : bool;
  resetKey : nat;
}.

Definition initial_phases : list BoxPhase := [active; idle; idle].

Definition initial_hero : HeroState := mkHero initial_phases false false 0.

(** The updaters passed to [setPhases].  The handlers are only ever built
    by [BOX_DATA.map((box, i) => ...)], so [i] is an index of the array;
    [<[i:=v]>] leaves the list alone outside it. *)
Definition handleClick (i : nat) (prev : list BoxPhase) : list BoxPhase :=
  <[i := gathering]> prev.

Definition handleGatherDone (i : nat) (prev : list BoxPhase) : list BoxPhase :=
  <[i := closing]> prev.

Definition handleClosingDone (i : nat) (prev : list BoxPhase) : list BoxPhase :=
  let n := <[i := closed]> prev in
  if decide (i + 1 < length n) then <[i + 1 := active]> n else n.

Definition is_closed (p : BoxPhase) : bool :=
  match p with closed => true | _ => false end.

(** [phases.every(p => p === 'closed')] *)
Definition allClosed (h : HeroState) : bool := forallb is_closed (phases h).

(** The reset closure of [handleDefineDone]. *)
Definition reset_hero (h : HeroState) : HeroState :=
  mkHero initial_phases false false (S (resetKey h)).

(** ** WordParticles: refs, effects, cleanups *)

(** The refs and the tick of one mounted component, the dependencies its
    effects last ran with, and what the cleanups they returned hold:
    [physicsCleanup] says that the physics effect returned its cleanup,
    [gatherCleanup] and [closingCleanup] are the timer handles the
    cleanups of the two timer effects captured. *)
Record WordParticles := mkWP {
  particlesRef : list Particle;
  rafRef : option nat;
  frozenRef : option (list (R * R));
  tick : nat;
  gatherFired : bool;
  closingFired : bool;
  dep_phase : BoxPhase;
  dep_key : nat;
  physicsCleanup : bool;
  gatherCleanup : option nat;
  closingCleanup : option nat;
}.

Definition position (p : Particle) : R * R := (x p, y p).

(** [if (rafRef.current !== null) { cancelAnimationFrame(rafRef.current);
    rafRef.current = null; }] *)
Definition stopRaf (c : WordParticles) (b : Browser) : WordParticles * Browser :=
  match rafRef c with
  | Some h =>
      (mkWP (particlesRef c) None (frozenRef c) (tick c) (gatherFired c)
            (closingFired c) (dep_phase c) (dep_key c) (physicsCleanup c)
            (gatherCleanup c) (closingCleanup c),
       cancelAnimationFrame h b)
  | None => (c, b)
  end.

Section Components.
Variable random : nat -> R.

(** The callback [animate] of box [i]: one frame, a tick, and the
    request for the next frame. *)
Definition animateFrame (i : nat) (c : WordParticles) (b : Browser)
  : WordParticles * Browser :=
  let '(h, b1) := requestAnimationFrame i b in
  (mkWP (animate (particlesRef c)) (Some h) (frozenRef c) (S (tick c))
        (gatherFired c) (closingFired c) (dep_phase c) (dep_key c)
        (physicsCleanup c) (gatherCleanup c) (closingCleanup c), b1).

(** The effect on [[resetKey]]. *)
Definition resetEffect (c : WordParticles) : WordParticles :=
  mkWP [] (rafRef c) None (tick c) false false (dep_phase c) (dep_key c)
       (physicsCleanup c) (gatherCleanup c) (closingCleanup c).

(** The effect on [[boxPhase, animate, resetKey]]. *)
Definition physicsEffect (i : nat) (ws : list string) (boxPhase : BoxPhase)
    (c : WordParticles) (b : Browser) : WordParticles * Browser :=
  match boxPhase with
  | idle | active =>
      let '(ps, b1) :=
        if Nat.eqb (length (particlesRef c)) 0
        then (createParticles random (draws b) ws, drawn (3 * length ws) b)
        else (particlesRef c, b) in
      let '(h, b2) := requestAnimationFrame i b1 in
      (mkWP ps (Some h) None (tick c) false false (dep_phase c) (dep_key c)
            true (gatherCleanup c) (closingCleanup c), b2)
  | _ =>
      (mkWP (particlesRef c) (rafRef c) (frozenRef c) (tick c)
            (gatherFired c) (closingFired c) (dep_phase c) (dep_key c)
            false (gatherCleanup c) (closingCleanup c), b)
  end.

Definition physicsEffect_cleanup (c : WordParticles) (b : Browser)
  : WordParticles * Browser :=
  if physicsCleanup c then stopRaf c b else (c, b).

(** The effect on [[boxPhase, onGatherDone]]. *)
Definition gatherEffect (i : nat) (boxPhase : BoxPhase)
    (c : WordParticles) (b : Browser) : WordParticles * Browser :=
  match boxPhase with
  | gathering =>
      let '(c1, b1) := stopRaf c b in
      let frozen := Some (map position (particlesRef c1)) in
      if gatherFired c1 then
        (mkWP (particlesRef c1) (rafRef c1) frozen (S (tick c1)) true
              (closingFired c1) (dep_phase c1) (dep_key c1)
              (physicsCleanup c1) None (closingCleanup c1), b1)
      else
        let '(t, b2) := setTimeout (GatherDone i) 660%N b1 in
        (mkWP (particlesRef c1) (rafRef c1) frozen (S (tick c1)) true
              (closingFired c1) (dep_phase c1) (dep_key c1)
              (physicsCleanup c1) (Some t) (closingCleanup c1), b2)
  | _ =>
      (mkWP (particlesRef c) (rafRef c) (frozenRef c) (tick c)
            (gatherFired c) (closingFired c) (dep_phase c) (dep_key c)
            (physicsCleanup c) None (closingCleanup c), b)
  end.

Definition gatherEffect_cleanup (c : WordParticles) (b : Browser) : Browser :=
  match gatherCleanup c with Some t => clearTimeout t b | None => b end.

(** The effect on [[boxPhase, onClosingDone]]. *)
Definition closingEffect (i : nat) (boxPhase : BoxPhase)
    (c : WordParticles) (b : Browser) : WordParticles * Browser :=
  match boxPhase with
  | closing =>
      if closingFired c then
        (mkWP (particlesRef c) (rafRef c) (frozenRef c) (S (tick c))
              (gatherFired c) true (dep_phase c) (dep_key c)
              (physicsCleanup c) (gatherCleanup c) None, b)
      else
        let '(t, b1) := setTimeout (ClosingDone i) 560%N b in
        (mkWP (particlesRef c) (rafRef c) (frozenRef c) (S (tick c))
              (gatherFired c) true (dep_phase c) (dep_key c)
              (physicsCleanup c) (gatherCleanup c) (Some t), b1)
  | _ =>
      (mkWP (particlesRef c) (rafRef c) (frozenRef c) (tick c)
            (gatherFired c) (closingFired c) (dep_phase c) (dep_key c)
            (physicsCleanup c) (gatherCleanup c) None, b)
  end.

Definition closingEffect_cleanup (c : WordParticles) (b : Browser) : Browser :=
  match closingCleanup c with Some t => clearTimeout t b | None => b end.

Definition with_deps (boxPhase : BoxPhase) (key : nat) (c : WordParticles)
  : WordParticles :=
  mkWP (particlesRef c) (rafRef c) (frozenRef c) (tick c) (gatherFired c)
       (closingFired c) boxPhase key (physicsCleanup c) (gatherCleanup c)
       (closingCleanup c).

(** The refs of a component that has just been created. *)
Definition fresh_WordParticles (boxPhase : BoxPhase) (key : nat)
  : WordParticles :=
  mkWP [] None None 0 false false boxPhase key false None None.

(** Mount: every effect runs, in the order of the source. *)
Definition WordParticles_mount (i : nat) (ws : list string)
    (boxPhase : BoxPhase) (key : nat) (b : Browser)
  : WordParticles * Browser :=
  let c := resetEffect (fresh_WordParticles boxPhase key) in
  let '(c, b) := physicsEffect i ws boxPhase c b in
  let '(c, b) := gatherEffect i boxPhase c b in
  closingEffect i boxPhase c b.

(** The cleanups of the effects whose dependencies changed, then those
    effects: [physics_changed] for the effect on [[boxPhase, animate,
    resetKey]], [key_changed] for the one on [[resetKey]].  The two timer
    effects always run again. *)
Definition WordParticles_rerun (i : nat) (ws : list string)
    (boxPhase : BoxPhase) (key : nat) (physics_changed key_changed : bool)
    (c : WordParticles) (b : Browser) : WordParticles * Browser :=
  let '(c, b) :=
    if physics_changed then physicsEffect_cleanup c b else (c, b) in
  let b := gatherEffect_cleanup c b in
  let b := closingEffect_cleanup c b in
  let c := if key_changed then resetEffect c else c in
  let '(c, b) :=
    if physics_changed then physicsEffect i ws boxPhase c b else (c, b) in
  let '(c, b) := gatherEffect i boxPhase c b in
  let '(c, b) := closingEffect i boxPhase c b in
  (with_deps boxPhase key c, b).

(** A render of the parent.  [animate] is the same function at every
    render ([useCallback] with no dependencies); [onGatherDone] and
    [onClosingDone] are new closures at every render of [ScreensaverHero],
    so the dependencies of the two timer effects always differ. *)
Definition WordParticles_update (i : nat) (ws : list string)
    (boxPhase : BoxPhase) (key : nat) (c : WordParticles) (b : Browser)
  : WordParticles * Browser :=
  let key_changed := negb (Nat.eqb key (dep_key c)) in
  let phase_changed := negb (phase_eqb boxPhase (dep_phase c)) in
  WordParticles_rerun i ws boxPhase key (phase_changed || key_changed)
    key_changed c b.

(** Unmount: every cleanup runs. *)
Definition WordParticles_unmount (c : WordParticles) (b : Browser) : Browser :=
  let '(c, b) := physicsEffect_cleanup c b in
  let b := gatherEffect_cleanup c b in
  closingEffect_cleanup c b.

(** What the render reads as the position of [p]: [None] stands for the
    TypeError of [frozen[p.id].x] on a missing entry. *)
Definition render_position (boxPhase : BoxPhase) (c : WordParticles)
    (p : Particle) : option (R * R) :=
  match frozenRef c, boxPhase with
  | Some frozen, (gathering | closing) => frozen !! id p
  | _, _ => Some (position p)
  end.

End Components.

(** ** The vignette components *)

(** The state of one mounted scene component, the value of [active] its
    effect last ran with, and the timer handles its cleanup captured. *)
Record Scene := mkScene {
  sceneKey : nat;
  done : bool;
  dep_active : bool;
  sceneCleanup : list nat;
}.

Definition fresh_Scene (a : bool) : Scene := mkScene 0 false a [].

(** The effect of [StickFigureScene] in box [i], on [[active]]. *)
Definition StickFigureScene_effect (i : nat) (a : bool) (s : Scene)
    (b : Browser) : Scene * Browser :=
  if a then
    let '(t, b1) := setTimeout (StickDone i) 4500%N b in
    (mkScene (S (sceneKey s)) false (dep_active s) [t], b1)
  else (mkScene (sceneKey s) (done s) (dep_active s) [], b).

(** The effect of [DefineScene] in box [i], on [[active]]. *)
Definition DefineScene_effect (i : nat) (a : bool) (s : Scene)
    (b : Browser) : Scene * Browser :=
  if a then
    let '(tDone, b1) := setTimeout (DefineDone i) 5000%N b in
    let '(tUnmount, b2) := setTimeout (DefineUnmount i) 5100%N b1 in
    (mkScene (S (sceneKey s)) false (dep_active s) [tDone; tUnmount], b2)
  else (mkScene (sceneKey s) (done s) (dep_active s) [], b).

(** The cleanup an effect run returned: [clearTimeout] on each handle. *)
Definition Scene_cleanup (s : Scene) (b : Browser) : Browser :=
  foldl (fun b t => clearTimeout t b) b (sceneCleanup s).

Section Scenes.
(** [effect] is one of the two effects above, at its box. *)
Variable effect : bool -> Scene -> Browser -> Scene * Browser.

Definition Scene_mount (a : bool) (b : Browser) : Scene * Browser :=
  effect a (fresh_Scene a) b.

(** A render with the prop [active = a]: the effect runs again only when
    [a] differs from the value it last ran with. *)
Definition Scene_update (a : bool) (s : Scene) (b : Browser)
  : Scene * Browser :=
  if bool_decide (a = dep_active s) then (s, b)
  else
    let b1 := Scene_cleanup s b in
    let '(s1, b2) := effect a s b1 in
    (mkScene (sceneKey s1) (done s1) a (sceneCleanup s1), b2).

Definition Scene_unmount (s : Scene) (b : Browser) : Browser :=
  Scene_cleanup s b.

(** [{show && <Scene active={!!show} ... />}] *)
Definition Scene_render (show : bool) (o : option Scene) (b : Browser)
  : option Scene * Browser :=
  match show, o with
  | true, None => let '(s, b1) := Scene_mount true b in (Some s, b1)
  | true, Some s => let '(s1, b1) := Scene_update true s b in (Some s1, b1)
  | false, Some s => (None, Scene_unmount s b)
  | false, None => (None, b)
  end.
End Scenes.

(** [setDone(true)] *)
Definition Scene_setDone (s : Scene) : Scene :=
  mkScene (sceneKey s) true (dep_active s) (sceneCleanup s).

(** Whether the scene draws its SVG: [if (!active || done) return null]. *)
Definition Scene_visible (s : Scene) : bool := dep_active s && negb (done s).

(** ** Box *)

(** The components mounted inside one [Box]. *)
Record BoxInst := mkBox {
  wordParticles : option WordParticles;
  stickScene : option Scene;
  defineScene : option Scene;
}.

Definition empty_box : BoxInst := mkBox None None None.

Definition isActive (boxPhase : BoxPhase) : bool :=
  match boxPhase with active => true | _ => false end.

(** [onClick={isActive ? onClick : undefined}] *)
Definition Box_onClick {A} (boxPhase : BoxPhase) (onClick : A) : option A :=
  if isActive boxPhase then Some onClick else None.

(** [showWords = boxPhase !== 'closed'] *)
Definition showWords (boxPhase : BoxPhase) : bool := negb (is_closed boxPhase).

(** The props [showScene] and [showDefineScene] of box [d]. *)
Definition showScene (d : BoxData) (h : HeroState) : bool :=
  bool_decide (box_id d = "deploy"%string) && allClosed h.

Definition showDefineScene (d : BoxData) (h : HeroState) : bool :=
  bool_decide (box_id d = "define"%string) && defineSceneActive h.

(** [onDeployDone] and [onDefineDone] are defined on one box each. *)
Definition has_onDeployDone (d : BoxData) : bool :=
  bool_decide (box_id d = "deploy"%string).

Definition has_onDefineDone (d : BoxData) : bool :=
  bool_decide (box_id d = "define"%string).

Section System.
Variable random : nat -> R.

(** The commit of box [i] after a render of [ScreensaverHero] in state
    [h]. *)
Definition Box_commit (i : nat) (d : BoxData) (h : HeroState)
    (bx : BoxInst) (b : Browser) : BoxInst * Browser :=
  let boxPhase := phases h !!! i in
  let '(wp, b) :=
    match showWords boxPhase, wordParticles bx with
    | true, None =>
        let '(c, b1) :=
          WordParticles_mount random i (words d) boxPhase (resetKey h) b in
        (Some c, b1)
    | true, Some c =>
        let '(c1, b1) :=
          WordParticles_update random i (words d) boxPhase (resetKey h) c b in
        (Some c1, b1)
    | false, Some c => (None, WordParticles_unmount c b)
    | false, None => (None, b)
    end in
  let '(st, b) :=
    Scene_render (StickFigureScene_effect i) (showScene d h) (stickScene bx) b in
  let '(df, b) :=
    Scene_render (DefineScene_effect i) (showDefineScene d h) (defineScene bx) b in
  (mkBox wp st df, b).

(** [BOX_DATA.map((box, i) => <Box ... />)], from index [i] on. *)
Fixpoint commit_from (i : nat) (ds : list BoxData) (h : HeroState)
    (bxs : list BoxInst) (b : Browser) : list BoxInst * Browser :=
  match ds, bxs with
  | d :: ds', bx :: bxs' =>
      let '(bx1, b1) := Box_commit i d h bx b in
      let '(bxs1, b2) := commit_from (S i) ds' h bxs' b1 in
      (bx1 :: bxs1, b2)
  | _, _ => ([], b)
  end.

(** The page: the state of [ScreensaverHero], the components under its
    three boxes, and the browser. *)
Record World := mkWorld {
  hero : HeroState;
  boxes : list BoxInst;
  browser : Browser;
}.

(** A state update of [ScreensaverHero] followed by the render and the
    commit it causes. *)
Definition setHero (h : HeroState) (w : World) : World :=
  let '(bxs, b) := commit_from 0 BOX_DATA h (boxes w) (browser w) in
  mkWorld h bxs b.

Definition setPhases (f : list BoxPhase -> list BoxPhase) (w : World) : World :=
  setHero (mkHero (f (phases (hero w))) (defineSceneActive (hero w))
                  (isShaking (hero w)) (resetKey (hero w))) w.

Definition empty_browser : Browser := mkBrowser ∅ 0 ∅ 0 0.

(** The page after the first render. *)
Definition initial_world : World :=
  setHero initial_hero
    (mkWorld initial_hero (replicate (length BOX_DATA) empty_box) empty_browser).

Definition with_boxes (bxs : list BoxInst) (w : World) : World :=
  mkWorld (hero w) bxs (browser w).

Definition with_browser (b : Browser) (w : World) : World :=
  mkWorld (hero w) (boxes w) b.

(** [handleDeployDone] *)
Definition handleDeployDone (w : World) : World :=
  setHero (mkHero (phases (hero w)) true (isShaking (hero w))
                  (resetKey (hero w))) w.

(** [handleDefineDone]: the shake starts and the reset is scheduled. *)
Definition handleDefineDone (w : World) : World :=
  let '(_, b) := setTimeout ShakeDone 500%N (browser w) in
  setHero (mkHero (phases (hero w)) (defineSceneActive (hero w)) true
                  (resetKey (hero w))) (with_browser b w).

(** What a timer does when it fires. *)
Definition run_callback (c : Callback) (w : World) : World :=
  match c with
  | GatherDone i => setPhases (handleGatherDone i) w
  | ClosingDone i => setPhases (handleClosingDone i) w
  | StickDone i =>
      let w1 := with_boxes
        (alter (fun bx => mkBox (wordParticles bx)
                  (Scene_setDone <$> stickScene bx) (defineScene bx)) i
               (boxes w)) w in
      match BOX_DATA !! i with
      | Some d => if has_onDeployDone d then handleDeployDone w1 else w1
      | None => w1
      end
  | DefineDone i =>
      match BOX_DATA !! i with
      | Some d => if has_onDefineDone d then handleDefineDone w else w
      | None => w
      end
  | DefineUnmount i =>
      with_boxes
        (alter (fun bx => mkBox (wordParticles bx) (stickScene bx)
                  (Scene_setDone <$> defineScene bx)) i
               (boxes w)) w
  | ShakeDone => setHero (reset_hero (hero w)) w
  end.

(** What can happen on the page: a click on box [i], a pending timer
    firing, a pending animation frame firing. *)
Inductive Event :=
  | Click (i : nat)
  | Fire (t : nat)
  | Frame (r : nat).

Definition step (w : World) (e : Event) : World :=
  match e with
  | Click i =>
      match BOX_DATA !! i with
      | Some _ =>
          match Box_onClick (phases (hero w) !!! i) (setPhases (handleClick i)) with
          | Some onClick => onClick w
          | None => w
          end
      | None => w
      end
  | Fire t =>
      match timers (browser w) !! t with
      | Some tm =>
          run_callback (callback tm)
            (with_browser (clearTimeout t (browser w)) w)
      | None => w
      end
  | Frame r =>
      match rafs (browser w) !! r with
      | Some i =>
          let b := cancelAnimationFrame r (browser w) in
          match boxes w !! i with
          | Some (mkBox (Some c) st df) =>
              let '(c1, b1) := animateFrame i c b in
              mkWorld (hero w) (<[i := mkBox (Some c1) st df]> (boxes w)) b1
          | _ => with_browser b w
          end
      | None => w
      end
  end.

Definition run (w : World) (es : list Event) : World := foldl step w es.




(** The worlds the page can be in. *)
Definition reachable (w : World) : Prop := exists es, w = run initial_world es.

End System.

(** ** What an event amounts to *)

(** The handler an event reaches: the click handler of an active box, the
    callback of a pending timer, the [animate] of the box a pending frame
    belongs to, or nothing. *)
Inductive Cause :=
  | ByClick (i : nat)
  | ByTimer (c : Callback)
  | ByFrame (i : nat)
  | Nothing.

#[global] Instance Cause_eq_dec : EqDecision Cause.
Proof. solve_decision. Defined.

Definition cause (w : World) (e : Event) : Cause :=
  match e with
  | Click i =>
      match BOX_DATA !! i with
      | Some _ =>
          if isActive (phases (hero w) !!! i) then ByClick i else Nothing
      | None => Nothing
      end
  | Fire t =>
      match timers (browser w) !! t with
      | Some tm => ByTimer (callback tm)
      | None => Nothing
      end
  | Frame r =>
      match rafs (browser w) !! r with
      | Some i => ByFrame i
      | None => Nothing
      end
  end.

(** The state of [ScreensaverHero] after the handler. *)
Definition hero_next (h : HeroState) (c : Cause) : HeroState :=
  match c with
  | ByClick i =>
      mkHero (handleClick i (phases h)) (defineSceneActive h) (isShaking h)
             (resetKey h)
  | ByTimer (GatherDone i) =>
      mkHero (handleGatherDone i (phases h)) (defineSceneActive h)
             (isShaking h) (resetKey h)
  | ByTimer (ClosingDone i) =>
      mkHero (handleClosingDone i (phases h)) (defineSceneActive h)
             (isShaking h) (resetKey h)
  | ByTimer (StickDone i) =>
      match BOX_DATA !! i with
      | Some d =>
          if has_onDeployDone d
          then mkHero (phases h) true (isShaking h) (resetKey h) else h
      | None => h
      end
  | ByTimer (DefineDone i) =>
      match BOX_DATA !! i with
      | Some d =>
          if has_onDefineDone d
          then mkHero (phases h) (defineSceneActive h) true (resetKey h) else h
      | None => h
      end
  | ByTimer (DefineUnmount _) => h
  | ByTimer ShakeDone => reset_hero h
  | ByFrame _ | Nothing => h
  end.

Definition phase_of (w : World) (i : nat) : BoxPhase := phases (hero w) !!! i.

(** The box whose [animate] the event runs, if it is a pending frame. *)
Definition frame_box (w : World) (e : Event) : option nat :=
  match e with
  | Frame r => rafs (browser w) !! r
  | _ => None
  end.

(** The component of box [i], if one is mounted. *)
Definition particles_of (w : World) (i : nat) : option WordParticles :=
  boxes w !! i ≫= wordParticles.

(** The order of the phases of a box within a loop, and back to the start
    of the next. *)
Inductive next_phase : BoxPhase -> BoxPhase -> Prop :=
  | next_active : next_phase idle active
  | next_gathering : next_phase active gathering
  | next_closing : next_phase gathering closing
  | next_closed : next_phase closing closed
  | next_loop_active : next_phase closed active
  | next_loop_idle : next_phase closed idle.

Section Counting.
Variable random : nat -> R.

(** How often box [i] enters phase [ph] along the events [es] from [w]. *)
Fixpoint entries (ph : BoxPhase) (i : nat) (w : World) (es : list Event) : nat :=
  match es with
  | [] => 0
  | e :: es' =>
      (if decide (phase_of w i <> ph /\ phase_of (step random w e) i = ph)
       then 1 else 0) + entries ph i (step random w e) es'
  end.

(** How often a timer with callback [c] fires along [es] from [w]. *)
Fixpoint firings (c : Callback) (w : World) (es : list Event) : nat :=
  match es with
  | [] => 0
  | e :: es' =>
      (if decide (cause w e = ByTimer c) then 1 else 0)
      + firings c (step random w e) es'
  end.

(** How often the phases go from all closed back to the start. *)
Fixpoint loops (w : World) (es : list Event) : nat :=
  match es with
  | [] => 0
  | e :: es' =>
      (if decide (allClosed (hero w) = true /\
                  phases (hero (step random w e)) = initial_phases)
       then 1 else 0) + loops (step random w e) es'
  end.
End Counting.

(** [1] if box [i] is in phase [ph], else [0]. *)
Definition in_phase (ph : BoxPhase) (w : World) (i : nat) : nat :=
  if decide (phase_of w i = ph) then 1 else 0.

End Hero.

(** ** Invariants of the page *)

Module Invariants.

Import Physics Hero.

(** The ids of the particles are their indices, as [createParticles] sets
    them. *)
Definition ids_ok (ps : list Particle) : Prop :=
  map id ps = seq 0 (length ps).

(** What the refs of a mounted [WordParticles] hold in each phase of its
    box, when the reset counter is [key]; no component is mounted under a
    closed box. *)
Definition wp_ok (ph : BoxPhase) (key : nat) (o : option WordParticles) : Prop :=
  match o with
  | None => ph = closed
  | Some c =>
      particlesRef c <> [] /\ ids_ok (particlesRef c) /\
      dep_phase c = ph /\ dep_key c = key /\
      match ph with
      | idle | active =>
          gatherFired c = false /\ closingFired c = false /\
          frozenRef c = None /\ physicsCleanup c = true /\
          gatherCleanup c = None /\ closingCleanup c = None /\
          rafRef c <> None
      | gathering =>
          gatherFired c = true /\ closingFired c = false /\
          frozenRef c = Some (map position (particlesRef c)) /\
          physicsCleanup c = false /\
          closingCleanup c = None /\ rafRef c = None
      | closing =>
          gatherFired c = true /\ closingFired c = true /\
          frozenRef c = Some (map position (particlesRef c)) /\
          physicsCleanup c = false /\
          gatherCleanup c = None /\ rafRef c = None
      | closed => False
      end
  end.

(** Every pending frame is the one its component holds in [rafRef]. *)
Definition rafs_ok (nr : nat) (F : gmap nat nat)
    (wps : list (option WordParticles)) : Prop :=
  forall r i, F !! r = Some i ->
    r < nr /\ exists c, wps !! i = Some (Some c) /\ rafRef c = Some r.

(** The phases while box [k] is the one in progress: the boxes before it
    are closed, the boxes after it idle. *)
Definition loop_phases (k : nat) (ph : BoxPhase) : list BoxPhase :=
  replicate k closed ++ [ph] ++ replicate (2 - k) idle.

Definition all_closed : list BoxPhase := [closed; closed; closed].

(** The stages of a loop.  Each fixes the phases, the two flags, the two
    vignette components and the whole table of pending timers; [nt] is the
    next timer handle. *)
Inductive Control (nt : nat) :
  list BoxPhase -> bool -> bool -> list (option WordParticles) ->
  option Scene -> option Scene -> gmap nat Timer -> Prop :=
  | Ctl_active k wps :
      k < 3 ->
      Control nt (loop_phases k active) false false wps None None ∅
  | Ctl_gathering k wps c t :
      k < 3 -> wps !! k = Some (Some c) -> gatherCleanup c = Some t ->
      t < nt ->
      Control nt (loop_phases k gathering) false false wps None None
        {[ t := mkTimer (GatherDone k) 660 ]}
  | Ctl_closing k wps c t :
      k < 3 -> wps !! k = Some (Some c) -> closingCleanup c = Some t ->
      t < nt ->
      Control nt (loop_phases k closing) false false wps None None
        {[ t := mkTimer (ClosingDone k) 560 ]}
  | Ctl_stick wps t :
      t < nt ->
      Control nt all_closed false false wps
        (Some (mkScene 1 false true [t])) None
        {[ t := mkTimer (StickDone 2) 4500 ]}
  | Ctl_define wps ts t1 t2 :
      ts < t1 -> t1 < t2 -> t2 < nt ->
      Control nt all_closed true false wps
        (Some (mkScene 1 true true [ts]))
        (Some (mkScene 1 false true [t1; t2]))
        (<[ t2 := mkTimer (DefineUnmount 0) 5100 ]>
           {[ t1 := mkTimer (DefineDone 0) 5000 ]})
  | Ctl_define_hidden wps ts t1 t2 :
      ts < t1 -> t1 < t2 -> t2 < nt ->
      Control nt all_closed true false wps
        (Some (mkScene 1 true true [ts]))
        (Some (mkScene 1 true true [t1; t2]))
        {[ t1 := mkTimer (DefineDone 0) 5000 ]}
  | Ctl_shake wps ts t1 t2 t3 :
      ts < t1 -> t1 < t2 -> t2 < t3 -> t3 < nt ->
      Control nt all_closed true true wps
        (Some (mkScene 1 true true [ts]))
        (Some (mkScene 1 false true [t1; t2]))
        (<[ t3 := mkTimer ShakeDone 500 ]>
           {[ t2 := mkTimer (DefineUnmount 0) 5100 ]})
  | Ctl_shake_hidden wps ts t1 t2 t3 :
      ts < t1 -> t1 < t2 -> t2 < t3 -> t3 < nt ->
      Control nt all_closed true true wps
        (Some (mkScene 1 true true [ts]))
        (Some (mkScene 1 true true [t1; t2]))
        {[ t3 := mkTimer ShakeDone 500 ]}.

(** The invariant of the page. *)
Inductive Inv : World -> Prop :=
  | Inv_intro p0 p1 p2 c0 c1 c2 st df dsa shk key T nt F nr d :
      wp_ok p0 key c0 -> wp_ok p1 key c1 -> wp_ok p2 key c2 ->
      rafs_ok nr F [c0; c1; c2] ->
      Control nt [p0; p1; p2] dsa shk [c0; c1; c2] st df T ->
      Inv (mkWorld (mkHero [p0; p1; p2] dsa shk key)
             [mkBox c0 None df; mkBox c1 None None; mkBox c2 st None]
             (mkBrowser T nt F nr d)).

(** The handlers that can run in each state of [ScreensaverHero]: only
    the box in progress takes a click, a gather or closing timer belongs
    to the box in that phase, and the timers of the vignettes and of the
    shake only run while all boxes are closed. *)
Inductive Enabled : HeroState -> Cause -> Prop :=
  | En_nothing k ph key :
      k < 3 -> ph = active \/ ph = gathering \/ ph = closing ->
      Enabled (mkHero (loop_phases k ph) false false key) Nothing
  | En_frame k ph key i :
      k < 3 -> ph = active \/ ph = gathering \/ ph = closing ->
      Enabled (mkHero (loop_phases k ph) false false key) (ByFrame i)
  | En_idle dsa shk key c :
      c = Nothing \/ (exists i, c = ByFrame i) ->
      Enabled (mkHero all_closed dsa shk key) c
  | En_click k key :
      k < 3 ->
      Enabled (mkHero (loop_phases k active) false false key) (ByClick k)
  | En_gather k key :
      k < 3 ->
      Enabled (mkHero (loop_phases k gathering) false false key)
              (ByTimer (GatherDone k))
  | En_closing k key :
      k < 3 ->
      Enabled (mkHero (loop_phases k closing) false false key)
              (ByTimer (ClosingDone k))
  | En_stick key :
      Enabled (mkHero all_closed false false key) (ByTimer (StickDone 2))
  | En_define key :
      Enabled (mkHero all_closed true false key) (ByTimer (DefineDone 0))
  | En_unmount shk key :
      Enabled (mkHero all_closed true shk key) (ByTimer (DefineUnmount 0))
  | En_shake key :
      Enabled (mkHero all_closed true true key) (ByTimer ShakeDone).

(** What C9 asks of a vignette component with effect [effect]: an
    activation raises the counter by one, from 0 at the mount; a render
    with the same [active] changes nothing; no handle the cleanup holds is
    pending after a deactivation or an unmount; and an active component
    that is switched off and on again has a counter one higher and none of
    its earlier timers. *)
Definition restarts_cleanly
    (effect : bool -> Scene -> Browser -> Scene * Browser) : Prop :=
  (forall b, sceneKey (Scene_mount effect true b).1 = 1) /\
  (forall s b, dep_active s = false ->
     sceneKey (Scene_update effect true s b).1 = S (sceneKey s)) /\
  (forall s b, Scene_update effect (dep_active s) s b = (s, b)) /\
  (forall s b t, t ∈ sceneCleanup s ->
     timers (Scene_unmount s b) !! t = None) /\
  (forall s b t, t ∈ sceneCleanup s -> dep_active s = true ->
     timers (Scene_update effect false s b).2 !! t = None) /\
  (forall s b t, t ∈ sceneCleanup s -> t < next_timer b ->
     dep_active s = true ->
     let off := Scene_update effect false s b in
     let on := Scene_update effect true off.1 off.2 in
     sceneKey on.1 = S (sceneKey s) /\ timers on.2 !! t = None).

(** The vignette component that holds the handle of a pending timer. *)
Definition timer_owner (w : World) (t : nat) (c : Callback) : Prop :=
  match c with
  | StickDone i =>
      exists bx s, boxes w !! i = Some bx /\ stickScene bx = Some s /\
                   t ∈ sceneCleanup s
  | DefineDone i | DefineUnmount i =>
      exists bx s, boxes w !! i = Some bx /\ defineScene bx = Some s /\
                   t ∈ sceneCleanup s
  | _ => True
  end.

(** The clicks and timers of the three cycles, and of the loop up to the
    pending reset (the handles are those the browser gives out from the
    first render on). *)
Definition three_cycles : list Event :=
  [Click 0; Fire 0; Fire 1; Click 1; Fire 2; Fire 3; Click 2; Fire 4; Fire 5].

Definition until_shake : list Event :=
  three_cycles ++ [Fire 6; Fire 7; Fire 8].

(** C9 as the spec words it: a render with [active = true] of a scene
    that is already active is a new activation, which raises the counter
    and leaves none of the timers the scene held pending. *)
Definition restarts_when_active
    (effect : bool -> Scene -> Browser -> Scene * Browser) : Prop :=
  forall s b t, dep_active s = true -> t ∈ sceneCleanup s ->
    let r := Scene_update effect true s b in
    sceneKey r.1 = S (sceneKey s) /\ timers r.2 !! t = None.

(** The two vignette components right after their mount with
    [active = true], in a browser with nothing else pending. *)
Definition mounted_stick : Scene * Browser :=
  Scene_mount (StickFigureScene_effect 2) true empty_browser.

Definition mounted_define : Scene * Browser :=
  Scene_mount (DefineScene_effect 0) true empty_browser.

(** The events up to the end of the stick figure scene: the definition
    scene has just been mounted. *)
Definition until_define : list Event := three_cycles ++ [Fire 6].

(** How the particles of box [i] (with data [d]) change in a step from
    [w] to [w']: a mounted component keeps them, but for a frame of its
    own; a component is only mounted again by the reset, with new
    particles. *)
Definition particles_step (random : nat -> R) (w : World) (e : Event)
    (w' : World) (i : nat) (d : BoxData) : Prop :=
  match particles_of w i, particles_of w' i with
  | Some c, Some c' =>
      if decide (frame_box w e = Some i)
      then particlesRef c' = animate (particlesRef c)
      else particlesRef c' = particlesRef c
  | None, Some c' =>
      cause w e = ByTimer ShakeDone /\
      particlesRef c' =
        createParticles random (draws (browser w) + 18 * i) (words d)
  | _, None => True
  end.

End Invariants.

(** ** What the components render *)

Module View.

Import Physics Hero.

(** [transition]: the duration and the delay in ms and the control points
    of the [cubic-bezier]; [None] is ['none']. *)
Record Transition := mkTransition {
  duration : nat;
  easing : R * R * R * R;
  transition_delay : nat;
}.

(** One [<span>] of [WordParticles]: its [key], the [left] and [top] of its
    style, the offset [(dx, dy)] its [transform] adds to
    [translate(-50%, -50%)], its [transition] and its text.  The other
    entries of the style are the same for every span. *)
Record Span := mkSpan {
  key : nat;
  left : R;
  top : R;
  shift : R * R;
  transition : option Transition;
  text : string;
}.

(** The span of the particle [p] at index [idx], drawn at [(px, py)]. *)
Definition span_at (boxPhase : BoxPhase) (idx : nat) (p : Particle)
    (px py : R) : Span :=
  let gatherX := COL_X in
  let gatherY := colY idx in
  match boxPhase with
  | gathering =>
      mkSpan (id p) px py (gatherX - px, gatherY - py)%R
        (Some (mkTransition 520 (0.4, 0, 0.2, 1)%R (idx * 40)))
        (word p)
  | closing =>
      mkSpan (id p) px py (BOX_CX - px, BOX_CY - py)%R
        (Some (mkTransition 420 (0.55, 0, 1, 0.8)%R (idx * 25)))
        (word p)
  | _ => mkSpan (id p) px py (0, 0)%R None (word p)
  end.

(** The body of [particlesRef.current.map((p, idx) => ...)]: [px] and [py]
    are read from the snapshot or from the particle; [None] where
    [frozen[p.id]] is undefined. *)
Definition span_of (boxPhase : BoxPhase) (c : WordParticles) (idx : nat)
    (p : Particle) : option Span :=
  match render_position boxPhase c p with
  | Some (px, py) => Some (span_at boxPhase idx p px py)
  | None => None
  end.

(** The spans from index [idx] on. *)
Fixpoint spans_from (boxPhase : BoxPhase) (c : WordParticles) (idx : nat)
    (ps : list Particle) : option (list Span) :=
  match ps with
  | [] => Some []
  | p :: ps' =>
      match span_of boxPhase c idx p, spans_from boxPhase c (S idx) ps' with
      | Some s, Some ss => Some (s :: ss)
      | _, _ => None
      end
  end.

(** What [WordParticles] returns. *)
Definition WordParticles_render (boxPhase : BoxPhase) (c : WordParticles)
  : option (list Span) :=
  spans_from boxPhase c 0 (particlesRef c).

(** Where the transition takes the span, in the coordinates of the word
    zone, and when it ends, in ms after the render. *)
Definition target (s : Span) : R * R :=
  (left s + fst (shift s), top s + snd (shift s))%R.

Definition transition_end (s : Span) : nat :=
  match transition s with
  | Some t => transition_delay t + duration t
  | None => 0
  end.

(** What [Box] draws besides the words and the vignettes: whether the
    outer [div] has a click handler, its cursor and animation, the class
    and the text of the label, and whether [Spark] and [PaperPile] are
    there. *)
Record BoxView := mkBoxView {
  hasOnClick : bool;
  cursor : string;
  animation : string;
  className : string;
  labelText : string;
  hasSpark : bool;
  hasPaperPile : bool;
}.

Definition Box_render (lbl closedLbl : string) (boxPhase : BoxPhase)
    (shaking isPileBox : bool) : BoxView :=
  let isClosed := is_closed boxPhase in
  let isActive := isActive boxPhase in
  mkBoxView isActive
    (if isActive then "pointer" else "default")
    (if shaking then "boxShake 500ms ease-in-out forwards" else "none")
    (if isClosed then "font-black" else "font-normal")
    (if isClosed then closedLbl else lbl)
    isActive isPileBox.

(** [isPileBox={box.id === 'define'}] *)
Definition isPileBox (d : BoxData) : bool :=
  bool_decide (box_id d = "define"%string).

(** [BOX_DATA.map((box, i) => <Box ... />)] in state [h]. *)
Definition ScreensaverHero_render (h : HeroState) : list BoxView :=
  imap (fun i d =>
          Box_render (label d) (closedLabel d) (phases h !!! i)
                     (isShaking h) (isPileBox d))
       BOX_DATA.

End View.

(** ** More of what holds in every state of the page *)

Module Page.

Import Physics Hero Invariants View.

(** No particle of [ps] is within the repulsion radius of an earlier one,
    the earlier one taken after its wall tests: the distances the inner
    loop of a frame computes. *)
Fixpoint apart (ps : list Particle) : Prop :=
  match ps with
  | [] => True
  | p :: qs =>
      Forall (fun q => (REP_DIST <= distance (wall p) q)%R) qs /\ apart qs
  end.

(** A particle that has crossed the left wall, at the fixed speed. *)
Definition escaped : Particle :=
  mkParticle 0 "Context" (-0.1)%R 5%R (- SPEED)%R 0%R.


(** The vignette components of box [i], if mounted. *)
Definition stick_of (w : World) (i : nat) : option Scene :=
  boxes w !! i ≫= stickScene.

Definition define_of (w : World) (i : nat) : option Scene :=
  boxes w !! i ≫= defineScene.

(** Whether a vignette draws its SVG. *)
Definition on_screen (o : option Scene) : bool :=
  match o with Some s => Scene_visible s | None => false end.

(** The delay each callback is scheduled with. *)
Definition delay_of (c : Callback) : N :=
  match c with
  | GatherDone _ => 660
  | ClosingDone _ => 560
  | StickDone _ => 4500
  | DefineDone _ => 5000
  | DefineUnmount _ => 5100
  | ShakeDone => 500
  end.

(** The phases of [n] boxes while box [k] is the one in progress. *)
Definition row (k : nat) (ph : BoxPhase) (m : nat) : list BoxPhase :=
  replicate k closed ++ [ph] ++ replicate m idle.

(** Every idle or active component has its next frame pending, under the
    handle in its [rafRef]. *)
Definition rafs_live (w : World) : Prop :=
  forall i c, particles_of w i = Some c ->
    phase_of w i = idle \/ phase_of w i = active ->
    exists r, rafRef c = Some r /\ rafs (browser w) !! r = Some i.

(** [Math.random] has been called 54 times in each loop begun. *)
Definition draws_ok (w : World) : Prop :=
  draws (browser w) = 54 * S (resetKey (hero w)).

(** What the timer of vignette A leaves when it fires in [w]: vignette A
    is done, vignette B is on, with its two timers and no other. *)
Definition handed_over (w w1 : World) : Prop :=
  hero w1 = mkHero (phases (hero w)) true (isShaking (hero w))
                   (resetKey (hero w)) /\
  on_screen (stick_of w1 2) = false /\
  define_of w1 0 = Some (mkScene 1 false true
                           [next_timer (browser w); S (next_timer (browser w))]) /\
  timers (browser w1) =
    <[S (next_timer (browser w)) := mkTimer (DefineUnmount 0) 5100]>
      {[next_timer (browser w) := mkTimer (DefineDone 0) 5000]}.

(** What the second timer of vignette B leaves: the vignette stays
    mounted and draws nothing. *)
Definition hidden (w w1 : World) (t : nat) : Prop :=
  hero w1 = hero w /\
  (exists s, define_of w1 0 = Some s /\ done s = true) /\
  on_screen (define_of w1 0) = false /\
  stick_of w1 2 = stick_of w 2 /\
  timers (browser w1) = delete t (timers (browser w)).

(** How far the page is from the next reset: the handlers still to run
    for each box, and for the vignettes and the shake. *)
Definition phase_rank (ph : BoxPhase) : nat :=
  match ph with
  | idle | active => 3
  | gathering => 2
  | closing => 1
  | closed => 0
  end.

Definition rank (h : HeroState) : nat :=
  foldr (fun ph n => phase_rank ph + n) 0 (phases h)
  + (if isShaking h then 1 else if defineSceneActive h then 2 else 3).

(** ** States and components to evaluate the statements on *)

(** The page after a click on the first box. *)
Definition clicked : World :=
  run drift_random (initial_world drift_random) [Click 0].

(** The component of box [i] in [w], what it renders, and the span at
    [idx]. *)
Definition words_at (w : World) (i : nat) : WordParticles :=
  default (fresh_WordParticles idle 0) (particles_of w i).

Definition spans_at (w : World) (i : nat) : list Span :=
  default [] (WordParticles_render (phase_of w i) (words_at w i)).

Definition nth_span (w : World) (i idx : nat) : Span :=
  default (mkSpan 0 0 0 (0, 0)%R None "") (spans_at w i !! idx).

End Page.

(** ** The earlier revision of the page

    [src/unnamed/part_000]: the same [WordParticles] without [resetKey],
    a [Box] without vignettes, and a [ScreensaverHero] whose only state is
    [phases]. *)

Module Earlier.

Import Physics Hero.

(** The page: [phases], the [WordParticles] under each box, the browser. *)
Record World0 := mkWorld0 {
  phases0 : list BoxPhase;
  words0 : list (option WordParticles);
  browser0 : Browser;
}.

Section Revision.
Variable random : nat -> R.

(** Mount: the three effects, in the order of the source. *)
Definition WordParticles_mount0 (i : nat) (ws : list string)
    (boxPhase : BoxPhase) (b : Browser) : WordParticles * Browser :=
  let c := fresh_WordParticles boxPhase 0 in
  let '(c, b) := physicsEffect random i ws boxPhase c b in
  let '(c, b) := gatherEffect i boxPhase c b in
  closingEffect i boxPhase c b.

(** A render of the parent: the physics effect, on [[boxPhase, animate]],
    runs again when the phase changed; the two timer effects always do. *)
Definition WordParticles_update0 (i : nat) (ws : list string)
    (boxPhase : BoxPhase) (c : WordParticles) (b : Browser)
  : WordParticles * Browser :=
  let phase_changed := negb (phase_eqb boxPhase (dep_phase c)) in
  WordParticles_rerun random i ws boxPhase 0 phase_changed false c b.

(** The commit of box [i]: [{showWords && <WordParticles ... />}]. *)
Definition Box_commit0 (i : nat) (d : BoxData) (boxPhase : BoxPhase)
    (o : option WordParticles) (b : Browser)
  : option WordParticles * Browser :=
  match showWords boxPhase, o with
  | true, None =>
      let '(c, b1) := WordParticles_mount0 i (words d) boxPhase b in
      (Some c, b1)
  | true, Some c =>
      let '(c1, b1) := WordParticles_update0 i (words d) boxPhase c b in
      (Some c1, b1)
  | false, Some c => (None, WordParticles_unmount c b)
  | false, None => (None, b)
  end.

Fixpoint commit_from0 (i : nat) (ds : list BoxData) (phs : list BoxPhase)
    (os : list (option WordParticles)) (b : Browser)
  : list (option WordParticles) * Browser :=
  match ds, os with
  | d :: ds', o :: os' =>
      let '(o1, b1) := Box_commit0 i d (phs !!! i) o b in
      let '(os1, b2) := commit_from0 (S i) ds' phs os' b1 in
      (o1 :: os1, b2)
  | _, _ => ([], b)
  end.

(** [setPhases(f)] with the render and the commit it causes. *)
Definition setPhases0 (f : list BoxPhase -> list BoxPhase) (w : World0)
  : World0 :=
  let phs := f (phases0 w) in
  let '(os, b) := commit_from0 0 BOX_DATA phs (words0 w) (browser0 w) in
  mkWorld0 phs os b.

(** The page after the first render. *)
Definition initial_world0 : World0 :=
  let '(os, b) :=
    commit_from0 0 BOX_DATA initial_phases
      (replicate (length BOX_DATA) None) empty_browser in
  mkWorld0 initial_phases os b.

(** The only timers of this revision are those of [WordParticles]. *)
Definition run_callback0 (c : Callback) (w : World0) : World0 :=
  match c with
  | GatherDone i => setPhases0 (handleGatherDone i) w
  | ClosingDone i => setPhases0 (handleClosingDone i) w
  | _ => w
  end.

Definition step0 (w : World0) (e : Event) : World0 :=
  match e with
  | Click i =>
      match BOX_DATA !! i with
      | Some _ =>
          match Box_onClick (phases0 w !!! i) (setPhases0 (handleClick i)) with
          | Some onClick => onClick w
          | None => w
          end
      | None => w
      end
  | Fire t =>
      match timers (browser0 w) !! t with
      | Some tm =>
          run_callback0 (callback tm)
            (mkWorld0 (phases0 w) (words0 w) (clearTimeout t (browser0 w)))
      | None => w
      end
  | Frame r =>
      match rafs (browser0 w) !! r with
      | Some i =>
          let b := cancelAnimationFrame r (browser0 w) in
          match words0 w !! i with
          | Some (Some c) =>
              let '(c1, b1) := animateFrame i c b in
              mkWorld0 (phases0 w) (<[i := Some c1]> (words0 w)) b1
          | _ => mkWorld0 (phases0 w) (words0 w) b
          end
      | None => w
      end
  end.

Definition run0 (w : World0) (es : list Event) : World0 := foldl step0 w es.

End Revision.

(** What the earlier revision has of a state of the current one. *)
Definition erase (w : World) : World0 :=
  mkWorld0 (phases (hero w)) (map wordParticles (boxes w)) (browser w).

(** Nothing is mounted and nothing is pending. *)
Definition static (w : World0) : Prop :=
  phases0 w = [closed; closed; closed] /\
  words0 w = [None; None; None] /\
  timers (browser0 w) = ∅ /\ rafs (browser0 w) = ∅.

End Earlier.

(* ================================================================== *)
(** * Part II: lemmas and theorems                                     *)
(* ================================================================== *)

Import Physics.

Section PhysicsFacts.
Local Open Scope R_scope.

Lemma hypot_nonneg a b : 0 <= hypot a b.
Proof. apply sqrt_pos. Qed.

Lemma hypot_sqr a b : hypot a b * hypot a b = a * a + b * b.
Proof. apply sqrt_sqrt. nra. Qed.

Lemma hypot_zero a b : hypot a b = 0 -> a = 0 /\ b = 0.
Proof.
  intros H. pose proof (hypot_sqr a b) as E. rewrite H in E. nra.
Qed.

Lemma hypot_0_0 : hypot 0 0 = 0.
Proof. unfold hypot. replace (0 * 0 + 0 * 0) with 0 by lra. apply sqrt_0. Qed.

Lemma Rabs_le_hypot_l a b : Rabs a <= hypot a b.
Proof.
  pose proof (hypot_nonneg a b) as Hn. pose proof (hypot_sqr a b) as E.
  unfold Rabs. destruct (Rcase_abs a); nra.
Qed.

Lemma Rabs_le_hypot_r a b : Rabs b <= hypot a b.
Proof.
  pose proof (hypot_nonneg a b) as Hn. pose proof (hypot_sqr a b) as E.
  unfold Rabs. destruct (Rcase_abs b); nra.
Qed.

Lemma hypot_unique a b s : 0 <= s -> a * a + b * b = s * s -> hypot a b = s.
Proof. intros Hs E. unfold hypot. rewrite E. by apply sqrt_square. Qed.

Lemma hypot_ge a b s : 0 <= s -> s * s <= a * a + b * b -> s <= hypot a b.
Proof.
  intros Hs E. pose proof (hypot_nonneg a b). pose proof (hypot_sqr a b). nra.
Qed.

Lemma Rabs_bound a s : Rabs a <= s -> - s <= a <= s.
Proof. unfold Rabs. destruct (Rcase_abs a); lra. Qed.

Lemma SPEED_pos : 0 < SPEED.
Proof. unfold SPEED. lra. Qed.

(** *** wall *)

Lemma wall_id p : id (wall p) = id p.
Proof. unfold wall. repeat (destruct (Rle_dec _ _) || destruct (Rge_dec _ _)); reflexivity. Qed.

Lemma wall_in_bounds p : in_bounds (wall p).
Proof.
  unfold in_bounds, wall, BOUND_W, BOUNCE_H.
  repeat (destruct (Rle_dec _ _) || destruct (Rge_dec _ _)); simpl in *; lra.
Qed.

Ltac wall_cases :=
  unfold wall, BOUND_W, BOUNCE_H in *;
  repeat match goal with
         | |- context [Rle_dec ?a ?b] => destruct (Rle_dec a b); simpl in *
         | |- context [Rge_dec ?a ?b] => destruct (Rge_dec a b); simpl in *
         end.

Lemma wall_low_x p : x p <= 0 -> x (wall p) = 0 /\ 0 <= vx (wall p).
Proof. intros H. pose proof (Rabs_pos (vx p)). wall_cases; lra. Qed.

Lemma wall_high_x p : x p >= BOUND_W -> x (wall p) = BOUND_W /\ vx (wall p) <= 0.
Proof. intros H. pose proof (Rabs_pos (vx p)). wall_cases; lra. Qed.

Lemma wall_low_y p : y p <= 0 -> y (wall p) = 0 /\ 0 <= vy (wall p).
Proof. intros H. pose proof (Rabs_pos (vy p)). wall_cases; lra. Qed.

Lemma wall_high_y p : y p >= BOUNCE_H -> y (wall p) = BOUNCE_H /\ vy (wall p) <= 0.
Proof. intros H. pose proof (Rabs_pos (vy p)). wall_cases; lra. Qed.

Lemma wall_inside p :
  0 < x p < BOUND_W -> 0 < y p < BOUNCE_H -> wall p = p.
Proof. intros Hx Hy. wall_cases; try lra. reflexivity. Qed.


Lemma particle_eq p q :
  id p = id q -> word p = word q -> x p = x q -> y p = y q ->
  vx p = vx q -> vy p = vy q -> p = q.
Proof. destruct p, q; simpl; intros; subst; reflexivity. Qed.

(** *** repel_pair and repel *)

Lemma repel_pair_impulse p q :
  repel_pair p q = (push (impulse p q) p, pull (impulse p q) q).
Proof.
  unfold repel_pair, impulse.
  destruct (Rlt_dec _ _); [destruct (Rgt_dec _ _)|]; simpl;
    try reflexivity; f_equal; apply particle_eq; simpl; try reflexivity; lra.
Qed.

Lemma impulse_push v p q : impulse (push v p) q = impulse p q.
Proof. reflexivity. Qed.

Lemma total_impulse_push v p qs : total_impulse (push v p) qs = total_impulse p qs.
Proof. induction qs as [|q qs IH]; simpl; [reflexivity|]. by rewrite IH. Qed.

Lemma push_push u v p : push u (push v p) = push (vadd v u) p.
Proof. apply particle_eq; simpl; try reflexivity; lra. Qed.

Lemma push_zero p : push (0, 0) p = p.
Proof. apply particle_eq; simpl; try reflexivity; lra. Qed.

Lemma pull_zero p : pull (0, 0) p = p.
Proof. apply particle_eq; simpl; try reflexivity; lra. Qed.

Lemma repel_impulses p qs :
  repel p qs =
  (push (total_impulse p qs) p, map (fun q => pull (impulse p q) q) qs).
Proof.
  revert p. induction qs as [|q qs IH]; intros p; simpl.
  - by rewrite push_zero.
  - rewrite repel_pair_impulse, IH, total_impulse_push, push_push.
    reflexivity.
Qed.

Lemma impulse_in_reach p q :
  0 < distance p q < REP_DIST ->
  impulse p q = ((x p - x q) / distance p q * force (distance p q),
                 (y p - y q) / distance p q * force (distance p q)).
Proof.
  intros [H0 H1]. unfold impulse, distance, force in *.
  destruct (Rlt_dec _ _); [|lra]. destruct (Rgt_dec _ _); [|lra]. reflexivity.
Qed.

Lemma impulse_out_of_reach p q :
  distance p q = 0 \/ REP_DIST <= distance p q -> impulse p q = (0, 0).
Proof.
  intros H. unfold impulse, distance in *.
  destruct (Rlt_dec _ _); [|reflexivity].
  destruct (Rgt_dec _ _); [lra|reflexivity].
Qed.

Lemma force_pos d : 0 < d < REP_DIST -> 0 < force d.
Proof.
  unfold force, REP_DIST, REP_FORCE. intros H.
  apply Rmult_lt_0_compat; [|lra]. apply Rdiv_lt_0_compat; lra.
Qed.

Lemma impulse_magnitude p q :
  0 < distance p q < REP_DIST ->
  hypot (fst (impulse p q)) (snd (impulse p q)) = force (distance p q).
Proof.
  intros H. rewrite impulse_in_reach by done. simpl.
  pose proof (force_pos _ H) as Hf.
  apply hypot_unique; [lra|].
  pose proof (hypot_sqr (x p - x q) (y p - y q)) as E.
  fold (distance p q) in E.
  set (d := distance p q) in *. set (f := force d) in *.
  set (dx := x p - x q) in *. set (dy := y p - y q) in *.
  replace (dx / d * f * (dx / d * f) + dy / d * f * (dy / d * f))
    with ((dx * dx + dy * dy) * (f * f) / (d * d)) by (field; lra).
  rewrite <- E. field. lra.
Qed.

(** *** renorm and integrate *)

Lemma renorm_rest p : at_rest p -> renorm p = p.
Proof.
  intros [Hx Hy]. unfold renorm. rewrite Hx, Hy, hypot_0_0.
  destruct (Rgt_dec 0 0); [lra|reflexivity].
Qed.

Lemma renorm_speed_ok p : speed_ok (renorm p).
Proof.
  unfold speed_ok, renorm.
  pose proof (hypot_nonneg (vx p) (vy p)) as Hn.
  destruct (Rgt_dec _ _) as [Hs|Hs].
  - left. unfold speed. simpl. pose proof SPEED_pos.
    apply hypot_unique; [lra|].
    pose proof (hypot_sqr (vx p) (vy p)) as E.
    set (s := hypot (vx p) (vy p)) in *.
    replace (vx p / s * SPEED * (vx p / s * SPEED)
             + vy p / s * SPEED * (vy p / s * SPEED))
      with ((vx p * vx p + vy p * vy p) * (SPEED * SPEED) / (s * s))
      by (field; lra).
    rewrite <- E. field. lra.
  - right. apply hypot_zero. lra.
Qed.

Lemma renorm_moving p : 0 < speed p -> speed (renorm p) = SPEED.
Proof.
  intros H. destruct (renorm_speed_ok p) as [E|[Ex Ey]]; [done|].
  unfold renorm in *. fold (speed p) in *.
  destruct (Rgt_dec (speed p) 0); [|lra]. simpl in *.
  pose proof SPEED_pos.
  assert (vx p = 0).
  { apply Rmult_integral in Ex as [Ex|Ex]; [|lra].
    unfold Rdiv in Ex. apply Rmult_integral in Ex as [Ex|Ex]; [done|].
    pose proof (Rinv_0_lt_compat _ H). lra. }
  assert (vy p = 0).
  { apply Rmult_integral in Ey as [Ey|Ey]; [|lra].
    unfold Rdiv in Ey. apply Rmult_integral in Ey as [Ey|Ey]; [done|].
    pose proof (Rinv_0_lt_compat _ H). lra. }
  unfold speed in H. rewrite H1, H2, hypot_0_0 in H. lra.
Qed.

Lemma speed_ok_bound p : speed_ok p -> Rabs (vx p) <= SPEED /\ Rabs (vy p) <= SPEED.
Proof.
  intros [E|[Ex Ey]].
  - rewrite <- E. split; [apply Rabs_le_hypot_l|apply Rabs_le_hypot_r].
  - rewrite Ex, Ey, Rabs_R0. pose proof SPEED_pos. lra.
Qed.

Lemma renorm_position p : x (renorm p) = x p /\ y (renorm p) = y p /\ id (renorm p) = id p.
Proof. unfold renorm. destruct (Rgt_dec _ _); done. Qed.

Lemma integrate_speed_ok p : speed_ok p -> speed_ok (integrate p).
Proof. done. Qed.

(** The head of the list after its iteration of the outer loop. *)
Lemma head_step_overshoot p v :
  within_overshoot (integrate (renorm (push v (wall p)))).
Proof.
  pose proof (wall_in_bounds p) as [Hx Hy].
  pose proof (speed_ok_bound _ (renorm_speed_ok (push v (wall p)))) as [Bx By].
  pose proof (renorm_position (push v (wall p))) as (Ex & Ey & _).
  unfold within_overshoot. simpl in *. rewrite Ex, Ey.
  apply Rabs_bound in Bx, By. lra.
Qed.

(** *** animate *)

Lemma animate_loop_cons n p rest :
  animate_loop (S n) (p :: rest) =
  integrate (renorm (push (total_impulse (wall p) rest) (wall p)))
    :: animate_loop n (map (fun q => pull (impulse (wall p) q) q) rest).
Proof. simpl. by rewrite repel_impulses. Qed.

Lemma animate_cons p rest :
  animate (p :: rest) =
  integrate (renorm (push (total_impulse (wall p) rest) (wall p)))
    :: animate (map (fun q => pull (impulse (wall p) q) q) rest).
Proof. unfold animate. simpl length. rewrite animate_loop_cons, length_map. done. Qed.

Lemma animate_nil : animate [] = [].
Proof. reflexivity. Qed.

(** Induction on the frame: a property of [animate ps] follows from the
    first iteration, for every list the later iterations may see. *)
Lemma animate_ind (P : list Particle -> list Particle -> Prop) :
  P [] [] ->
  (forall p rest,
     P (map (fun q => pull (impulse (wall p) q) q) rest)
       (animate (map (fun q => pull (impulse (wall p) q) q) rest)) ->
     P (p :: rest) (animate (p :: rest))) ->
  forall ps, P ps (animate ps).
Proof.
  intros Hnil Hcons ps.
  remember (length ps) as n eqn:Hn. revert ps Hn.
  induction n as [|n IH]; intros [|p rest] Hn; simpl in Hn; try lia.
  - exact Hnil.
  - apply Hcons, IH. rewrite length_map. lia.
Qed.

Lemma animate_length ps : length (animate ps) = length ps.
Proof.
  apply (animate_ind (fun ps qs => length qs = length ps)); [done|].
  intros p rest IH. rewrite animate_cons. simpl. rewrite IH, length_map. done.
Qed.

Lemma animate_ids ps : map id (animate ps) = map id ps.
Proof.
  apply (animate_ind (fun ps qs => map id qs = map id ps)); [done|].
  intros p rest IH. rewrite animate_cons. simpl. rewrite IH, map_map. simpl.
  f_equal. pose proof (renorm_position (push (total_impulse (wall p) rest) (wall p))) as (_ & _ & E).
  rewrite E. simpl. apply wall_id.
Qed.

Lemma animate_speed_ok ps : Forall speed_ok (animate ps).
Proof.
  apply (animate_ind (fun _ qs => Forall speed_ok qs)); [constructor|].
  intros p rest IH. rewrite animate_cons. constructor; [|done].
  apply integrate_speed_ok, renorm_speed_ok.
Qed.

Lemma animate_overshoot ps : Forall within_overshoot (animate ps).
Proof.
  apply (animate_ind (fun _ qs => Forall within_overshoot qs)); [constructor|].
  intros p rest IH. rewrite animate_cons. constructor; [|done].
  apply head_step_overshoot.
Qed.


(** *** createParticles *)

Section Created.
Variable random : nat -> R.

Lemma createParticles_from_length k i ws :
  length (createParticles_from random k i ws) = length ws.
Proof. revert k i. induction ws; intros; simpl; [done|]. by rewrite IHws. Qed.

Lemma createParticles_from_ids k i ws :
  map id (createParticles_from random k i ws) = seq i (length ws).
Proof. revert k i. induction ws; intros; simpl; [done|]. by rewrite IHws. Qed.

Lemma created_speed k i w : speed (createParticle random k i w) = SPEED.
Proof.
  unfold speed, createParticle. simpl. pose proof SPEED_pos.
  apply hypot_unique; [lra|].
  pose proof (sin2_cos2 (rand (random k) 0 (PI * 2))) as E.
  unfold Rsqr in E. nra.
Qed.

Hypothesis random_range : forall k, 0 <= random k < 1.

Lemma created_interior k i w : in_interior (createParticle random k i w).
Proof.
  unfold in_interior, createParticle, rand, BOUND_W, BOUNCE_H. simpl.
  pose proof (random_range (k + 1)). pose proof (random_range (k + 2)). lra.
Qed.

Lemma createParticles_from_interior k i ws :
  Forall in_interior (createParticles_from random k i ws).
Proof.
  revert k i. induction ws; intros; simpl; constructor; auto using created_interior.
Qed.

End Created.

Lemma createParticles_from_speed random k i ws :
  Forall (fun p => speed p = SPEED) (createParticles_from random k i ws).
Proof.
  revert k i. induction ws; intros; simpl; constructor; auto using created_speed.
Qed.

Lemma interior_within_overshoot p : in_interior p -> within_overshoot p.
Proof.
  unfold in_interior, within_overshoot, BOUND_W, BOUNCE_H, SPEED. lra.
Qed.

Lemma frames_overshoot n ps :
  Forall within_overshoot ps -> Forall within_overshoot (frames n ps).
Proof.
  intros H. destruct n as [|n]; [done|]. unfold frames. simpl.
  apply animate_overshoot.
Qed.

(** *** Frames without any wall or neighbour in reach *)

Lemma total_impulse_spread p qs :
  Forall (fun q => REP_DIST <= distance p q) qs -> total_impulse p qs = (0, 0).
Proof.
  induction 1 as [|q qs Hq _ IH]; simpl; [done|].
  rewrite IH, impulse_out_of_reach by auto. unfold vadd. simpl. f_equal; lra.
Qed.

Lemma renorm_at_speed p : speed p = SPEED -> renorm p = p.
Proof.
  intros E. unfold renorm. fold (speed p). rewrite E. pose proof SPEED_pos.
  destruct (Rgt_dec _ _); [|lra].
  apply particle_eq; simpl; try reflexivity; field; lra.
Qed.

Lemma moving_left_speed p : moving_left p -> speed p = SPEED.
Proof.
  intros [Ex Ey]. unfold speed. rewrite Ex, Ey. pose proof SPEED_pos.
  apply hypot_unique; lra.
Qed.

Lemma animate_drift ps :
  Forall moving_left ps -> Forall strictly_inside ps -> spread ps ->
  animate ps = map drift ps.
Proof.
  induction ps as [|p rest IH]; intros Hv Hin Hsp; [done|].
  inversion_clear Hv as [|? ? Hp Hrest]. inversion_clear Hin as [|? ? Ip Irest].
  destruct Hsp as [Hfar Hsp]. destruct Ip as [Ix Iy].
  rewrite animate_cons, wall_inside by done.
  rewrite total_impulse_spread, push_zero by done.
  rewrite renorm_at_speed by (by apply moving_left_speed).
  simpl. f_equal.
  rewrite <- IH by done. f_equal.
  rewrite <- (map_id rest) at 2. apply map_ext_Forall.
  eapply Forall_impl; [exact Hfar|]. intros q Hq. simpl in Hq.
  rewrite impulse_out_of_reach by auto. apply pull_zero.
Qed.

Lemma drifts_velocity n p :
  vx (Nat.iter n drift p) = vx p /\ vy (Nat.iter n drift p) = vy p.
Proof. induction n; simpl; auto. Qed.

Lemma drifts_x n p : x (Nat.iter n drift p) = x p + INR n * vx p.
Proof.
  induction n as [|n IH]; [simpl; lra|].
  change (Nat.iter (S n) drift p) with (drift (Nat.iter n drift p)).
  change (x (drift ?q)) with (x q + vx q).
  destruct (drifts_velocity n p) as [-> _]. rewrite IH, S_INR. lra.
Qed.

Lemma drifts_y n p : y (Nat.iter n drift p) = y p + INR n * vy p.
Proof.
  induction n as [|n IH]; [simpl; lra|].
  change (Nat.iter (S n) drift p) with (drift (Nat.iter n drift p)).
  change (y (drift ?q)) with (y q + vy q).
  destruct (drifts_velocity n p) as [_ ->]. rewrite IH, S_INR. lra.
Qed.

Lemma drifts_distance n p q :
  moving_left p -> moving_left q ->
  distance (Nat.iter n drift p) (Nat.iter n drift q) = distance p q.
Proof.
  intros [Hpx Hpy] [Hqx Hqy]. unfold distance.
  rewrite !drifts_x, !drifts_y, Hpx, Hpy, Hqx, Hqy. f_equal; lra.
Qed.

Lemma drifts_spread n ps :
  Forall moving_left ps -> spread ps -> spread (map (Nat.iter n drift) ps).
Proof.
  induction ps as [|p rest IH]; intros Hv Hsp; [done|].
  inversion_clear Hv as [|? ? Hp Hrest]. destruct Hsp as [Hfar Hsp].
  simpl. split; [|auto].
  apply Forall_map. rewrite Forall_forall in Hfar, Hrest. apply Forall_forall.
  intros q Hq. simpl. rewrite drifts_distance; auto.
Qed.

(** While every particle stays strictly inside the square, [n] frames are
    [n] steps to the left. *)
Lemma frames_drift n ps :
  Forall moving_left ps -> spread ps ->
  Forall (fun p => INR n * SPEED < x p + SPEED /\ x p < BOUND_W /\
                   0 < y p < BOUNCE_H) ps ->
  frames n ps = map (Nat.iter n drift) ps.
Proof.
  intros Hv Hsp. induction n as [|n IH]; intros Hin.
  - simpl. by rewrite map_id.
  - change (frames (S n) ps) with (animate (frames n ps)). rewrite IH.
    + rewrite animate_drift.
      * rewrite map_map. reflexivity.
      * apply Forall_map. eapply Forall_impl; [exact Hv|].
        intros p [Ex Ey]. simpl. unfold moving_left.
        destruct (drifts_velocity n p) as [-> ->]. done.
      * apply Forall_map. rewrite Forall_forall in Hv, Hin. apply Forall_forall.
        intros p Hp. destruct (Hv p Hp) as [Ex Ey].
        destruct (Hin p Hp) as (H1 & H2 & H3). rewrite S_INR in H1.
        pose proof (pos_INR n). pose proof SPEED_pos.
        unfold strictly_inside. simpl. rewrite drifts_x, drifts_y, Ex, Ey. nra.
      * by apply drifts_spread.
    + eapply Forall_impl; [exact Hin|]. intros p (H1 & H2 & H3).
      rewrite S_INR in H1. pose proof SPEED_pos. repeat split; try lra.
Qed.


(** *** The run that leaves the square *)

Lemma heading_pi u :
  u = 1 / 2 -> cos (rand u 0 (PI * 2)) = -1 /\ sin (rand u 0 (PI * 2)) = 0.
Proof.
  intros ->. replace (rand (1 / 2) 0 (PI * 2)) with PI by (unfold rand; lra).
  split; [apply cos_PI|apply sin_PI].
Qed.

Lemma drift_created : createParticles drift_random 0 define_words = drift_start.
Proof.
  unfold createParticles, define_words, drift_start.
  cbn [createParticles_from Nat.add].
  repeat (apply (f_equal2 cons);
    [ apply particle_eq; cbn [id word x y vx vy createParticle Nat.add];
      first
        [ reflexivity
        | unfold rand, drift_random, BOUND_W, BOUNCE_H;
          cbn [nth drift_draws]; lra
        | match goal with
          | |- context [rand (drift_random ?k) 0 _] =>
              destruct (heading_pi (drift_random k)
                          ltac:(unfold drift_random; cbn [nth drift_draws]; lra))
                as [E1 E2];
              rewrite ?E1, ?E2; lra
          end ]
    | ]).
  reflexivity.
Qed.

Lemma drift_start_moving : Forall moving_left drift_start.
Proof.
  unfold drift_start. repeat first [apply Forall_nil_2 | apply Forall_cons_2]; by split.
Qed.

Lemma drift_start_spread : spread drift_start.
Proof.
  unfold drift_start. cbn [spread].
  repeat split; repeat first [apply Forall_nil_2 | apply Forall_cons_2];
    cbn beta; unfold distance; cbn [x y]; (apply hypot_ge; unfold REP_DIST; lra).
Qed.

Lemma drift_start_room :
  Forall (fun p => INR 46 * SPEED < x p + SPEED /\ x p < BOUND_W /\
                   0 < y p < BOUNCE_H) drift_start.
Proof.
  rewrite INR_IZR_INZ. change (Z.of_nat 46) with 46%Z.
  unfold drift_start, SPEED, BOUND_W, BOUNCE_H.
  repeat first [apply Forall_nil_2 | apply Forall_cons_2]; cbn beta; cbn [x y]; lra.
Qed.

(** * Claims on the physics *)

(** C2, as the spec states it, fails: after 46 frames from a start that
    [createParticles] can produce, a particle is left of the square. *)
Lemma wall_clamp_every_frame_fails :
  ~ Forall in_bounds (frames 46 (createParticles drift_random 0 define_words)).
Proof.
  rewrite drift_created.
  rewrite frames_drift
    by auto using drift_start_moving, drift_start_spread, drift_start_room.
  unfold drift_start. cbn [map]. intros H. apply Forall_inv in H.
  destruct H as [[Hx _] _]. rewrite drifts_x in Hx.
  rewrite INR_IZR_INZ in Hx. change (Z.of_nat 46) with 46%Z in Hx.
  cbn [x vx] in Hx.
  unfold SPEED in Hx. lra.
Qed.

(** C2, amended: the wall step of a frame puts the particle inside the
    square, at a wall with the velocity component pointing inwards; the
    step along the velocity comes after it, so at the end of a frame every
    particle is within [SPEED] of the square. *)
Theorem wall_clamp_before_integration :
  (forall p,
     in_bounds (wall p) /\
     (x p <= 0 -> x (wall p) = 0 /\ 0 <= vx (wall p)) /\
     (x p >= BOUND_W -> x (wall p) = BOUND_W /\ vx (wall p) <= 0) /\
     (y p <= 0 -> y (wall p) = 0 /\ 0 <= vy (wall p)) /\
     (y p >= BOUNCE_H -> y (wall p) = BOUNCE_H /\ vy (wall p) <= 0)) /\
  (forall ps, Forall within_overshoot (animate ps)).
Proof.
  split; [|apply animate_overshoot].
  intros p. split; [apply wall_in_bounds|].
  split; [apply wall_low_x|]. split; [apply wall_high_x|].
  split; [apply wall_low_y|apply wall_high_y].
Qed.

Lemma wall_clamp_before_integration_witness :
  x (wall stray) = 0 /\ 0 <= vx (wall stray).
Proof.
  destruct wall_clamp_before_integration as [H _].
  destruct (H stray) as (_ & Hlow & _). apply Hlow. simpl. lra.
Defined.

Lemma wall_at_rest p : at_rest p -> at_rest (wall p).
Proof.
  intros [Ex Ey]. unfold at_rest.
  assert (Rabs 0 = 0) by apply Rabs_R0.
  wall_cases; rewrite ?Ex, ?Ey, ?H; lra.
Qed.

Lemma animate_at_rest p : at_rest p -> Forall at_rest (animate [p]).
Proof.
  intros Hp. rewrite animate_cons. cbn [total_impulse map].
  rewrite push_zero, animate_nil, renorm_rest by (by apply wall_at_rest).
  repeat constructor; apply (wall_at_rest p Hp).
Qed.

(** C6: the body of the inner loop adds [impulse p q] to the velocity of
    [p] and subtracts it from that of [q]; in reach the impulse has
    magnitude [force d] along [(p - q) / d], at distance 0 or at
    [REP_DIST] and beyond the pair is left as it is; and in a frame the
    particle at the head meets every later particle once, the later ones
    going on with what it subtracted. *)
Theorem pairwise_repulsion :
  (forall p q,
     repel_pair p q = (push (impulse p q) p, pull (impulse p q) q) /\
     (0 < distance p q < REP_DIST ->
        impulse p q =
          ((x p - x q) / distance p q * force (distance p q),
           (y p - y q) / distance p q * force (distance p q)) /\
        hypot (fst (impulse p q)) (snd (impulse p q)) = force (distance p q)) /\
     (distance p q = 0 \/ REP_DIST <= distance p q ->
        repel_pair p q = (p, q))) /\
  (forall p rest,
     animate (p :: rest) =
       integrate (renorm (push (total_impulse (wall p) rest) (wall p)))
         :: animate (map (fun q => pull (impulse (wall p) q) q) rest)).
Proof.
  split; [|apply animate_cons].
  intros p q. split; [apply repel_pair_impulse|]. split.
  - intros H. split; [by apply impulse_in_reach|by apply impulse_magnitude].
  - intros H. rewrite repel_pair_impulse, impulse_out_of_reach by done.
    by rewrite push_zero, pull_zero.
Qed.

Lemma near_distance : distance near_a near_b = 5.
Proof. unfold distance. simpl. apply hypot_unique; lra. Qed.

Lemma far_distance : distance near_a far_b = 100.
Proof. unfold distance. simpl. apply hypot_unique; lra. Qed.

Lemma pairwise_repulsion_witness :
  hypot (fst (impulse near_a near_b)) (snd (impulse near_a near_b))
    = force (distance near_a near_b) /\
  repel_pair near_a far_b = (near_a, far_b).
Proof.
  destruct pairwise_repulsion as [H _]. split.
  - destruct (H near_a near_b) as (_ & Hin & _). apply Hin.
    rewrite near_distance. unfold REP_DIST. lra.
  - destruct (H near_a far_b) as (_ & _ & Hout). apply Hout.
    right. rewrite far_distance. unfold REP_DIST. lra.
Defined.

Lemma created_within_overshoot random k ws :
  (forall j, 0 <= random j < 1) ->
  Forall within_overshoot (createParticles random k ws).
Proof.
  intros Hr. eapply Forall_impl; [by apply createParticles_from_interior|].
  apply interior_within_overshoot.
Qed.

Lemma created_speed_ok random k ws :
  Forall speed_ok (createParticles random k ws).
Proof.
  eapply Forall_impl; [apply createParticles_from_speed|]. by left.
Qed.

End PhysicsFacts.

Import Hero Invariants.

Section HeroFacts.
Variable random : nat -> R.

#[local] Arguments animate : simpl never.
#[local] Arguments createParticles : simpl never.

Ltac stage_top :=
  cbv beta iota zeta delta
    [step run_callback setPhases setHero handleClick handleGatherDone
     handleClosingDone handleDeployDone handleDefineDone reset_hero
     with_boxes with_browser Scene_setDone BOX_DATA initial_phases
     Box_onClick isActive has_onDeployDone has_onDefineDone
     setTimeout clearTimeout cancelAnimationFrame
     hero boxes browser phases defineSceneActive isShaking resetKey
     timers next_timer rafs next_raf draws box_id];
  simpl.

Ltac stage_commit :=
  cbv beta iota zeta delta
    [commit_from Box_commit WordParticles_update showWords showScene
     showDefineScene allClosed is_closed
     phases defineSceneActive isShaking resetKey
     wordParticles stickScene defineScene words box_id
     dep_key dep_phase];
  simpl; rewrite ?Nat.eqb_refl; simpl.

Ltac stage_effects :=
  cbv beta iota zeta delta
    [WordParticles_mount WordParticles_rerun WordParticles_unmount
     physicsEffect physicsEffect_cleanup gatherEffect gatherEffect_cleanup
     closingEffect closingEffect_cleanup resetEffect stopRaf with_deps
     fresh_WordParticles Scene_render Scene_mount Scene_update Scene_unmount
     Scene_cleanup StickFigureScene_effect DefineScene_effect fresh_Scene
     setTimeout clearTimeout requestAnimationFrame cancelAnimationFrame drawn
     animateFrame
     particlesRef rafRef frozenRef tick gatherFired closingFired dep_phase
     dep_key physicsCleanup gatherCleanup closingCleanup
     sceneKey done dep_active sceneCleanup
     timers next_timer rafs next_raf draws
     negb orb andb Nat.eqb length foldl fst snd];
  simpl.

Ltac crunch := stage_top; stage_commit; stage_effects.

Ltac expose_wp H :=
  match type of H with
  | wp_ok _ _ ?o =>
      let ps := fresh "ps" in let raf := fresh "raf" in let fr := fresh "fr" in
      let tk := fresh "tk" in let gf := fresh "gf" in let cf := fresh "cf" in
      let dp := fresh "dp" in let dk := fresh "dk" in let pc := fresh "pc" in
      let gc := fresh "gc" in let cc := fresh "cc" in
      destruct o as [[ps raf fr tk gf cf dp dk pc gc cc]|];
      cbn in H;
      [ destruct H as (? & ? & ? & ? & ?); destruct_and?; simplify_eq/=;
        try match goal with
            | Hr : ?raf <> None |- _ =>
                destruct raf as [?|]; [clear Hr|congruence]
            end;
        try match goal with
            | Hp : ?ps <> [] |- _ =>
                destruct ps as [|? ?]; [congruence|]
            end
      | try discriminate H ]
  end.


Lemma animate_nonempty ps : ps <> [] -> animate ps <> [].
Proof.
  intros H E. apply (f_equal length) in E. rewrite animate_length in E.
  destruct ps; simpl in *; congruence.
Qed.

Lemma animate_ids_ok ps : ids_ok ps -> ids_ok (animate ps).
Proof. unfold ids_ok. rewrite animate_ids, animate_length. done. Qed.

Lemma created_nonempty k w ws : createParticles random k (w :: ws) <> [].
Proof. done. Qed.

Lemma created_ids_ok k ws : ids_ok (createParticles random k ws).
Proof.
  unfold ids_ok, createParticles.
  rewrite createParticles_from_ids, createParticles_from_length. done.
Qed.

Ltac norm_maps :=
  repeat first
    [ rewrite delete_empty
    | rewrite delete_singleton_eq
    | rewrite delete_insert_eq
    | rewrite delete_singleton_ne by lia
    | rewrite delete_insert_ne by lia
    | rewrite insert_empty ].

Ltac solve_wp :=
  simpl; repeat split;
  auto using animate_nonempty, animate_ids_ok, created_nonempty, created_ids_ok;
  try done.

Ltac solve_ctl :=
  norm_maps;
  first
    [ apply (Ctl_active _ 0); lia | apply (Ctl_active _ 1); lia
    | apply (Ctl_active _ 2); lia
    | eapply (Ctl_gathering _ 0); [lia|reflexivity|reflexivity|lia]
    | eapply (Ctl_gathering _ 1); [lia|reflexivity|reflexivity|lia]
    | eapply (Ctl_gathering _ 2); [lia|reflexivity|reflexivity|lia]
    | eapply (Ctl_closing _ 0); [lia|reflexivity|reflexivity|lia]
    | eapply (Ctl_closing _ 1); [lia|reflexivity|reflexivity|lia]
    | eapply (Ctl_closing _ 2); [lia|reflexivity|reflexivity|lia]
    | apply Ctl_stick; lia
    | apply Ctl_define; lia
    | apply Ctl_define_hidden; lia
    | apply Ctl_shake; lia
    | apply Ctl_shake_hidden; lia ].

Ltac solve_rafs HF :=
  let r := fresh "r" in let i := fresh "i" in let Hl := fresh "Hl" in
  intros r i Hl;
  repeat match type of Hl with
         | <[ _ := _ ]> _ !! _ = Some _ =>
             apply lookup_insert_Some in Hl as [[<- <-]|[? Hl]]
         | delete _ _ !! _ = Some _ =>
             apply lookup_delete_Some in Hl as [? Hl]
         end;
  [ .. | let Hlt := fresh in let c := fresh "c" in
         let Hc := fresh in let Hr := fresh in
         destruct (HF _ _ Hl) as (Hlt & c & Hc & Hr);
         destruct i as [|[|[|?]]]; simplify_eq/=;
         (split; [lia|eexists; split; [reflexivity|reflexivity]]) ];
  (split; [lia|eexists; split; [reflexivity|reflexivity]]).

Ltac finish HF :=
  apply Inv_intro; [solve_wp | solve_wp | solve_wp | solve_rafs HF | solve_ctl].

Ltac timer_cases HT :=
  repeat match type of HT with
         | ∅ !! _ = Some _ => rewrite lookup_empty in HT; discriminate HT
         | {[ _ := _ ]} !! _ = Some _ =>
             apply lookup_singleton_Some in HT as [-> <-]
         | <[ _ := _ ]> _ !! _ = Some _ =>
             apply lookup_insert_Some in HT as [[-> <-]|[? HT]]
         end.



Ltac solve_particles HFr :=
  let i := fresh "i" in let dd := fresh "dd" in let Hd := fresh "Hd" in
  intros i dd Hd; destruct i as [|[|[|i]]]; cbn in Hd; simplify_eq;
  unfold particles_step, particles_of, frame_box, cause;
  cbn [boxes browser rafs timers lookup list_lookup mbind option_bind
       wordParticles particlesRef hero draws words];
  rewrite ?HFr, ?lookup_insert_eq, ?lookup_singleton_eq;
  repeat case_decide; simplify_eq; try done;
  try (split; [done | f_equal; lia]).

Ltac conclude HF HFr :=
  eexists; split; [crunch; reflexivity|];
  split; [first [assumption | finish HF] | solve_particles HFr].

Ltac click_cases ei Hcopy HF :=
  destruct ei as [|[|[|ei]]]; conclude HF HF.

Ltac timeout_cases et Hcopy HF :=
  unfold step at 1; cbn [browser timers];
  match goal with
  | |- context [?T !! et] =>
      let HT := fresh "HT" in
      destruct (T !! et) as [?|] eqn:HT;
      [timer_cases HT|]; conclude HF HF
  end.

Ltac frame_cases er Hcopy HF :=
  unfold step at 1; cbn [browser rafs];
  match goal with
  | |- context [?F !! er] =>
      let HFr := fresh "HFr" in let i := fresh "i" in
      destruct (F !! er) as [i|] eqn:HFr;
      [ let Hlt := fresh in let c := fresh "c" in
        let Hc := fresh in let Hr := fresh in
        destruct (HF _ _ HFr) as (Hlt & c & Hc & Hr);
        destruct i as [|[|[|i]]]; simplify_eq/= |];
      conclude HF HFr
  end.

Lemma step_spec w e :
  Inv w ->
  exists w', step random w e = w' /\ Inv w' /\
    forall i d, BOX_DATA !! i = Some d -> particles_step random w e w' i d.
Proof.
  intros H. pose proof H as Hcopy.
  destruct H as [p0 p1 p2 c0 c1 c2 st df dsa shk key T nt F nr d H0 H1 H2 HF HC].
  inversion HC; subst; clear HC;
    try match goal with
        | Hk : ?k < 3, E : loop_phases ?k _ = _ |- _ =>
            destruct k as [|[|[|?]]]; [| | |lia]; cbn in E; simplify_eq
        end.
  all: expose_wp H0; expose_wp H1; expose_wp H2.
  all: destruct e as [ei|et|er];
    [click_cases ei Hcopy HF | timeout_cases et Hcopy HF | frame_cases er Hcopy HF].
Qed.

Lemma inv_initial : Inv (initial_world random).
Proof.
  unfold initial_world, initial_hero, empty_browser, empty_box.
  cbn [replicate length BOX_DATA]. crunch.
  apply Inv_intro; [solve_wp | solve_wp | solve_wp | | apply (Ctl_active _ 0); lia].
  intros r i Hl.
  repeat match type of Hl with
         | <[ _ := _ ]> _ !! _ = Some _ =>
             apply lookup_insert_Some in Hl as [[<- <-]|[? Hl]]
         end;
    [ .. | rewrite lookup_empty in Hl; discriminate Hl ];
    (split; [lia|eexists; split; reflexivity]).
Qed.

Lemma inv_step w e : Inv w -> Inv (step random w e).
Proof. intros H. destruct (step_spec w e H) as (w' & <- & Hw' & _). done. Qed.

Lemma inv_run w es : Inv w -> Inv (run random w es).
Proof.
  revert w. induction es as [|e es IH]; intros w H; [done|].
  apply IH, inv_step, H.
Qed.

Lemma reachable_inv w : reachable random w -> Inv w.
Proof. intros [es ->]. apply inv_run, inv_initial. Qed.

Lemma step_particles w e i d :
  Inv w -> BOX_DATA !! i = Some d ->
  particles_step random w e (step random w e) i d.
Proof. intros H Hd. destruct (step_spec w e H) as (w' & <- & _ & Hp). auto. Qed.

(** *** The state of ScreensaverHero along a step *)

Lemma hero_setHero h w : hero (setHero random h w) = h.
Proof. unfold setHero. destruct (commit_from _ _ _ _ _ _). reflexivity. Qed.

Lemma step_hero w e : hero (step random w e) = hero_next (hero w) (cause w e).
Proof.
  destruct e as [i|t|r]; simpl.
  - destruct (BOX_DATA !! i); [|done]. unfold Box_onClick.
    destruct (isActive _); [|done]. apply hero_setHero.
  - destruct (timers (browser w) !! t) as [tm|]; [|done].
    destruct (callback tm) as [i|i|i|i|i|]; simpl;
      try apply hero_setHero; try done.
    + destruct (BOX_DATA !! i) as [d|]; [|done].
      destruct (has_onDeployDone d); [apply hero_setHero|done].
    + destruct (BOX_DATA !! i) as [d|]; [|done].
      destruct (has_onDefineDone d); [|done].
      unfold handleDefineDone. simpl. apply hero_setHero.
  - destruct (rafs (browser w) !! r) as [i|]; [|done].
    destruct (boxes w !! i) as [[[c|] st df]|]; done.
Qed.

Lemma inv_enabled w e : Inv w -> Enabled (hero w) (cause w e).
Proof.
  intros H.
  destruct H as [p0 p1 p2 c0 c1 c2 st df dsa shk key T nt F nr d H0 H1 H2 HF HC].
  destruct e as [i|t|r]; cbn [cause hero browser timers rafs phases].
  - inversion HC; subst; clear HC;
      try match goal with
          | Hk : ?k < 3, E : loop_phases ?k _ = _ |- _ =>
              destruct k as [|[|[|?]]]; [| | |lia]; cbn in E; simplify_eq
          end;
      destruct i as [|[|[|i]]]; simpl;
      first [ by (apply (En_click 0); lia) | by (apply (En_click 1); lia)
            | by (apply (En_click 2); lia)
            | by (apply (En_nothing 0); [lia|auto])
            | by (apply (En_nothing 1); [lia|auto])
            | by (apply (En_nothing 2); [lia|auto])
            | by (apply En_idle; auto) ].
  - destruct (T !! t) as [tm|] eqn:HT.
    + inversion HC; subst; clear HC; timer_cases HT; simpl; constructor; done.
    + inversion HC; subst; clear HC;
        first [ by (constructor; auto) | by (apply En_idle; auto) ].
  - destruct (F !! r) as [i|];
      inversion HC; subst; clear HC;
      first [ by (constructor; eauto) | by (apply En_idle; eauto) ].
Qed.

Ltac loop_cases :=
  repeat match goal with
         | Hk : ?k < 3 |- _ => destruct k as [|[|[|?]]]; [| | |lia]; clear Hk
         | H : _ \/ _ |- _ => destruct H as [H|H]
         | H : exists _, _ |- _ => destruct H as [? H]
         end; subst.

Lemma enabled_edges h c i :
  Enabled h c ->
  phases (hero_next h c) !!! i = phases h !!! i \/
  next_phase (phases h !!! i) (phases (hero_next h c) !!! i).
Proof.
  intros H. destruct H; loop_cases; destruct i as [|[|[|i]]];
    first [ by left | right; vm_compute; constructor ].
Qed.

Lemma enabled_timers h c i :
  Enabled h c ->
  (c = ByTimer (GatherDone i) ->
     phases h !!! i = gathering /\ phases (hero_next h c) !!! i = closing) /\
  (c <> ByTimer (GatherDone i) -> phases h !!! i = gathering ->
     phases (hero_next h c) !!! i = gathering) /\
  (c = ByTimer (ClosingDone i) ->
     phases h !!! i = closing /\ phases (hero_next h c) !!! i = closed) /\
  (c <> ByTimer (ClosingDone i) -> phases h !!! i = closing ->
     phases (hero_next h c) !!! i = closing) /\
  (phases h !!! i <> gathering -> phases (hero_next h c) !!! i = gathering ->
     c = ByClick i) /\
  (phases h !!! i <> closing -> phases (hero_next h c) !!! i = closing ->
     c = ByTimer (GatherDone i)).
Proof.
  intros H. destruct H; loop_cases; destruct i as [|[|[|i]]];
    repeat split; intros; simplify_eq; try done;
    try (exfalso; vm_compute in *; congruence).
Qed.


(** *** What the invariant says about one box *)

Lemma inv_wp w i :
  Inv w -> i < 3 ->
  wp_ok (phase_of w i) (resetKey (hero w)) (particles_of w i).
Proof.
  intros H Hi. destruct H. destruct i as [|[|[|i]]]; [done..|lia].
Qed.

Lemma inv_rafs w r i :
  Inv w -> rafs (browser w) !! r = Some i ->
  i < 3 /\ exists c, particles_of w i = Some c /\ rafRef c = Some r.
Proof.
  intros H Hf. destruct H as [? ? ? ? ? ? ? ? ? ? ? ? ? ? ? ? _ _ _ HF _].
  destruct (HF _ _ Hf) as (_ & c & Hc & Hr).
  destruct i as [|[|[|i]]]; simplify_eq/=; (split; [lia|eauto]).
Qed.

Lemma inv_frame w e i :
  Inv w -> frame_box w e = Some i ->
  phase_of w i = idle \/ phase_of w i = active.
Proof.
  intros H Hf. destruct e as [| |r]; try done. simpl in Hf.
  destruct (inv_rafs _ _ _ H Hf) as (Hi & c & Hc & Hr).
  pose proof (inv_wp _ i H Hi) as Hwp. rewrite Hc in Hwp.
  destruct Hwp as (_ & _ & _ & _ & Hph).
  destruct (phase_of w i); auto; destruct_and?; try contradiction; congruence.
Qed.

(** *** Counting entries and firings *)

Lemma balance (ph : BoxPhase) (c : Callback) (i : nat) :
  (forall w e, Inv w ->
     (cause w e = ByTimer c ->
        phase_of w i = ph /\ phase_of (step random w e) i <> ph) /\
     (cause w e <> ByTimer c -> phase_of w i = ph ->
        phase_of (step random w e) i = ph)) ->
  forall es w, Inv w ->
    entries random ph i w es + in_phase ph w i =
    firings random c w es + in_phase ph (run random w es) i.
Proof.
  intros Hstep es. induction es as [|e es IH]; intros w Hw; [done|].
  cbn [entries firings run foldl].
  specialize (IH _ (inv_step w e Hw)). unfold run in IH.
  destruct (Hstep w e Hw) as [Hfire Hstay].
  unfold in_phase in *.
  destruct (decide (cause w e = ByTimer c)) as [Hc|Hc].
  - destruct (Hfire Hc) as [E1 E2].
    rewrite (decide_True _ _ E1), (decide_False (P := _ /\ _)) by tauto.
    rewrite (decide_False _ _ E2) in IH. lia.
  - specialize (Hstay Hc).
    destruct (decide (phase_of w i = ph)) as [E|E].
    + rewrite (decide_False (P := _ /\ _)) by tauto.
      rewrite (decide_True _ _ (Hstay E)) in IH. lia.
    + destruct (decide (phase_of (step random w e) i = ph)) as [E'|E'].
      * rewrite (decide_True (P := _ /\ _)) by tauto. lia.
      * rewrite (decide_False (P := _ /\ _)) by tauto. lia.
Qed.

Lemma gather_facts w e i :
  Inv w ->
  (cause w e = ByTimer (GatherDone i) ->
     phase_of w i = gathering /\ phase_of (step random w e) i <> gathering) /\
  (cause w e <> ByTimer (GatherDone i) -> phase_of w i = gathering ->
     phase_of (step random w e) i = gathering).
Proof.
  intros H. unfold phase_of. rewrite step_hero.
  destruct (enabled_timers _ _ i (inv_enabled w e H)) as (A & B & _).
  split; [|done]. intros E. destruct (A E) as [-> ->]. done.
Qed.

Lemma closing_facts w e i :
  Inv w ->
  (cause w e = ByTimer (ClosingDone i) ->
     phase_of w i = closing /\ phase_of (step random w e) i <> closing) /\
  (cause w e <> ByTimer (ClosingDone i) -> phase_of w i = closing ->
     phase_of (step random w e) i = closing).
Proof.
  intros H. unfold phase_of. rewrite step_hero.
  destruct (enabled_timers _ _ i (inv_enabled w e H)) as (_ & _ & A & B & _).
  split; [|done]. intros E. destruct (A E) as [-> ->]. done.
Qed.

Lemma inv_gather_timer w i :
  Inv w -> phase_of w i = gathering ->
  exists t, timers (browser w) = {[ t := mkTimer (GatherDone i) 660 ]}.
Proof.
  intros H E. destruct H as [? ? ? ? ? ? ? ? ? ? ? ? ? ? ? ? _ _ _ _ HC].
  unfold phase_of in E. cbn [hero phases browser timers] in *.
  inversion HC; subst; clear HC;
    try match goal with
        | Hk : ?k < 3, E' : loop_phases ?k _ = _ |- _ =>
            destruct k as [|[|[|?]]]; [| | |lia]; cbn in E'; simplify_eq
        end;
    destruct i as [|[|[|i]]]; try discriminate E; eauto.
Qed.

Lemma inv_closing_timer w i :
  Inv w -> phase_of w i = closing ->
  exists t, timers (browser w) = {[ t := mkTimer (ClosingDone i) 560 ]}.
Proof.
  intros H E. destruct H as [? ? ? ? ? ? ? ? ? ? ? ? ? ? ? ? _ _ _ _ HC].
  unfold phase_of in E. cbn [hero phases browser timers] in *.
  inversion HC; subst; clear HC;
    try match goal with
        | Hk : ?k < 3, E' : loop_phases ?k _ = _ |- _ =>
            destruct k as [|[|[|?]]]; [| | |lia]; cbn in E'; simplify_eq
        end;
    destruct i as [|[|[|i]]]; try discriminate E; eauto.
Qed.

Lemma gatherEffect_guard i c b :
  gatherFired c = true -> timers (gatherEffect i gathering c b).2 = timers b.
Proof.
  intros E. unfold gatherEffect, stopRaf.
  destruct (rafRef c); simpl; rewrite E; done.
Qed.

Lemma closingEffect_guard i c b :
  closingFired c = true -> timers (closingEffect i closing c b).2 = timers b.
Proof. intros E. unfold closingEffect. rewrite E. done. Qed.

Lemma click_ignored w i :
  phase_of w i <> active -> step random w (Click i) = w.
Proof.
  intros H. unfold phase_of in H. cbn [step].
  destruct (BOX_DATA !! i); [|done]. unfold Box_onClick.
  destruct (phases (hero w) !!! i); done.
Qed.

Lemma click_taken w i :
  phase_of w i = active -> i < 3 ->
  phases (hero (step random w (Click i))) = <[i := gathering]> (phases (hero w)).
Proof.
  intros H Hi. rewrite step_hero. unfold phase_of in H. cbn [cause].
  destruct (BOX_DATA !! i) eqn:E.
  - rewrite H. done.
  - apply lookup_ge_None in E. simpl in E. lia.
Qed.

(** * Claims on the boxes *)

Lemma click_starts w i :
  Inv w -> i < 3 -> phase_of w i = active ->
  cause w (Click i) = ByClick i /\
  phase_of (step random w (Click i)) i = gathering.
Proof.
  intros Hw Hi Hph. split.
  - unfold phase_of in Hph. cbn [cause].
    destruct (BOX_DATA !! i) eqn:E; [by rewrite Hph|].
    apply lookup_ge_None in E. simpl in E. lia.
  - unfold phase_of. rewrite (click_taken w i Hph Hi).
    apply list_lookup_total_insert_eq. destruct Hw. simpl. lia.
Qed.

Lemma gather_timer_fires w i t :
  Inv w -> timers (browser w) = {[ t := mkTimer (GatherDone i) 660 ]} ->
  cause w (Fire t) = ByTimer (GatherDone i) /\
  phase_of w i = gathering /\
  phase_of (step random w (Fire t)) i = closing.
Proof.
  intros Hw HT.
  assert (cause w (Fire t) = ByTimer (GatherDone i)) as Hc.
  { cbn [cause]. by rewrite HT, lookup_singleton_eq. }
  split; [done|]. unfold phase_of. rewrite step_hero.
  by apply (enabled_timers _ _ i (inv_enabled w (Fire t) Hw)).
Qed.

Lemma closing_timer_fires w i t :
  Inv w -> timers (browser w) = {[ t := mkTimer (ClosingDone i) 560 ]} ->
  cause w (Fire t) = ByTimer (ClosingDone i) /\
  phase_of w i = closing /\
  phase_of (step random w (Fire t)) i = closed.
Proof.
  intros Hw HT.
  assert (cause w (Fire t) = ByTimer (ClosingDone i)) as Hc.
  { cbn [cause]. by rewrite HT, lookup_singleton_eq. }
  split; [done|]. unfold phase_of. rewrite step_hero.
  by apply (enabled_timers _ _ i (inv_enabled w (Fire t) Hw)).
Qed.

(** The counts along the three events of one cycle. *)
Lemma cycle_counts w i t1 t2 :
  let w1 := step random w (Click i) in
  let w2 := step random w1 (Fire t1) in
  let w3 := step random w2 (Fire t2) in
  let es := [Click i; Fire t1; Fire t2] in
  phase_of w i = active -> phase_of w1 i = gathering ->
  phase_of w2 i = closing -> phase_of w3 i = closed ->
  cause w (Click i) = ByClick i ->
  cause w1 (Fire t1) = ByTimer (GatherDone i) ->
  cause w2 (Fire t2) = ByTimer (ClosingDone i) ->
  entries random gathering i w es = 1 /\
  firings random (GatherDone i) w es = 1 /\
  entries random closing i w es = 1 /\
  firings random (ClosingDone i) w es = 1.
Proof.
  intros w1 w2 w3 es P0 P1 P2 P3 C0 C1 C2.
  unfold es. cbn [entries firings]. fold w1. fold w2. fold w3.
  rewrite P0, P1, P2, P3, C0, C1, C2.
  repeat split; repeat case_decide; destruct_and?; try congruence; try lia;
    exfalso; naive_solver.
Qed.

(** C1: along every run of the page, a step leaves the phase of a box as
    it is or moves it to the next one in the order idle, active,
    gathering, closing, closed (and from closed back to the start at the
    reset); the entries into gathering are as many as the firings of the
    gather-complete callback, plus the one still pending while the box is
    gathering, and so for closing; while a box is gathering (closing) its
    timer is the one pending timer, and when it fires the box is closing
    (closed); a click on the active box puts it into gathering with the
    gather timer pending; from there the click and the two timers take the
    box through gathering, closing and closed, with one entry into each
    of the two phases and one firing of each callback; and an effect that
    runs again with [gatherFired] ([closingFired]) set schedules
    nothing. *)
Theorem phase_sequence_and_callbacks (es : list Event) (i : nat) :
  i < 3 ->
  let w := run random (initial_world random) es in
  (forall e,
     phase_of (step random w e) i = phase_of w i \/
     next_phase (phase_of w i) (phase_of (step random w e) i)) /\
  entries random gathering i (initial_world random) es =
    firings random (GatherDone i) (initial_world random) es
    + in_phase gathering w i /\
  entries random closing i (initial_world random) es =
    firings random (ClosingDone i) (initial_world random) es
    + in_phase closing w i /\
  (phase_of w i = active ->
     let w1 := step random w (Click i) in
     phase_of w1 i = gathering /\
     exists t, timers (browser w1) = {[ t := mkTimer (GatherDone i) 660 ]}) /\
  (phase_of w i = gathering ->
     exists t, timers (browser w) = {[ t := mkTimer (GatherDone i) 660 ]} /\
       let w1 := step random w (Fire t) in
       phase_of w1 i = closing /\
       exists t', timers (browser w1) = {[ t' := mkTimer (ClosingDone i) 560 ]}) /\
  (phase_of w i = closing ->
     exists t, timers (browser w) = {[ t := mkTimer (ClosingDone i) 560 ]} /\
       phase_of (step random w (Fire t)) i = closed) /\
  (phase_of w i = active ->
     exists t1 t2,
       let cycle_events := [Click i; Fire t1; Fire t2] in
       phase_of (run random w [Click i]) i = gathering /\
       phase_of (run random w [Click i; Fire t1]) i = closing /\
       phase_of (run random w cycle_events) i = closed /\
       entries random gathering i w cycle_events = 1 /\
       firings random (GatherDone i) w cycle_events = 1 /\
       entries random closing i w cycle_events = 1 /\
       firings random (ClosingDone i) w cycle_events = 1) /\
  (forall c b, gatherFired c = true ->
     timers (gatherEffect i gathering c b).2 = timers b) /\
  (forall c b, closingFired c = true ->
     timers (closingEffect i closing c b).2 = timers b).
Proof.
  intros Hi w.
  assert (Inv w) as Hw by apply inv_run, inv_initial.
  assert (forall w, Inv w -> phase_of w i = active ->
            let w1 := step random w (Click i) in
            phase_of w1 i = gathering /\
            exists t, timers (browser w1) = {[ t := mkTimer (GatherDone i) 660 ]})
    as Hclick.
  { intros v Hv Hph v1.
    destruct (click_starts v i Hv Hi Hph) as [_ Hg]. split; [done|].
    apply inv_gather_timer; [by apply inv_step|done]. }
  assert (forall w, Inv w -> phase_of w i = gathering ->
            exists t, timers (browser w) = {[ t := mkTimer (GatherDone i) 660 ]} /\
              let w1 := step random w (Fire t) in
              phase_of w1 i = closing /\
              exists t', timers (browser w1)
                         = {[ t' := mkTimer (ClosingDone i) 560 ]})
    as Hgather.
  { intros v Hv Hph. destruct (inv_gather_timer v i Hv Hph) as [t HT].
    exists t. split; [done|]. intros v1.
    destruct (gather_timer_fires v i t Hv HT) as (_ & _ & Hc). split; [done|].
    apply inv_closing_timer; [by apply inv_step|done]. }
  assert (forall w, Inv w -> phase_of w i = closing ->
            exists t, timers (browser w) = {[ t := mkTimer (ClosingDone i) 560 ]} /\
              phase_of (step random w (Fire t)) i = closed)
    as Hclosing.
  { intros v Hv Hph. destruct (inv_closing_timer v i Hv Hph) as [t HT].
    exists t. split; [done|]. by apply closing_timer_fires. }
  split.
  { intros e. unfold phase_of. rewrite step_hero.
    apply enabled_edges, inv_enabled, Hw. }
  split.
  { pose proof (balance gathering (GatherDone i) i
                  (fun w e H => gather_facts w e i H) es _
                  inv_initial) as B.
    fold w in B. rewrite <- B.
    destruct i as [|[|[|i]]]; [done..|lia]. }
  split.
  { pose proof (balance closing (ClosingDone i) i
                  (fun w e H => closing_facts w e i H) es _
                  inv_initial) as B.
    fold w in B. rewrite <- B.
    destruct i as [|[|[|i]]]; [done..|lia]. }
  split; [by apply Hclick|].
  split; [by apply Hgather|].
  split; [by apply Hclosing|].
  split.
  { intros Hph.
    destruct (click_starts w i Hw Hi Hph) as [C0 P1].
    assert (Inv (step random w (Click i))) as Hw1 by apply inv_step, Hw.
    destruct (Hgather _ Hw1 P1) as (t1 & HT1 & P2 & t2 & HT2).
    destruct (gather_timer_fires _ i t1 Hw1 HT1) as (C1 & _ & _).
    assert (Inv (step random (step random w (Click i)) (Fire t1))) as Hw2
      by apply inv_step, Hw1.
    destruct (closing_timer_fires _ i t2 Hw2 HT2) as (C2 & _ & P3).
    exists t1, t2. intros cycle_events.
    do 3 (split; [done|]).
    by apply cycle_counts. }
  split; [apply gatherEffect_guard|apply closingEffect_guard].
Qed.

(** C7: a click on a box that is not active leaves the page as it is; a
    click on the active box puts that box, and no other, into gathering. *)
Theorem click_only_when_active (w : World) (i : nat) :
  (phase_of w i <> active -> step random w (Click i) = w) /\
  (phase_of w i = active -> i < 3 ->
     phases (hero (step random w (Click i)))
       = <[i := gathering]> (phases (hero w))).
Proof. split; [apply click_ignored|apply click_taken]. Qed.


(** *** The reset *)

Lemma reset_key_recreates i ws ph key c b :
  ph = idle \/ ph = active -> key <> dep_key c ->
  particlesRef (WordParticles_update random i ws ph key c b).1
    = createParticles random (draws b) ws.
Proof.
  intros Hph Hk. unfold WordParticles_update.
  apply Nat.eqb_neq in Hk. rewrite Hk, orb_true_r. cbn [negb].
  unfold WordParticles_rerun, physicsEffect_cleanup, stopRaf,
    gatherEffect_cleanup, closingEffect_cleanup.
  destruct (physicsCleanup c), (rafRef c), (gatherCleanup c),
    (closingCleanup c), Hph as [-> | ->]; reflexivity.
Qed.

Lemma inv_particles_closed w i :
  Inv w -> allClosed (hero w) = true -> particles_of w i = None.
Proof.
  intros H E. destruct H as [p0 p1 p2 c0 c1 c2 ? ? ? ? ? ? ? ? ? ? H0 H1 H2 _ _].
  cbn in E. destruct p0, p1, p2; try discriminate E.
  destruct c0, c1, c2; cbn in H0, H1, H2; destruct_and?; try contradiction.
  destruct i as [|[|[|i]]]; done.
Qed.

Lemma inv_particles_open w i :
  Inv w -> i < 3 -> phase_of w i <> closed -> is_Some (particles_of w i).
Proof.
  intros H Hi Hph. pose proof (inv_wp w i H Hi) as Hwp.
  destruct (particles_of w i); [eauto|]. done.
Qed.

Lemma shake_enabled w e :
  Inv w -> cause w e = ByTimer ShakeDone ->
  allClosed (hero w) = true /\
  hero (step random w e) = reset_hero (hero w).
Proof.
  intros H E. rewrite step_hero, E.
  pose proof (inv_enabled w e H) as En. rewrite E in En.
  inversion En; subst. all: try (loop_cases; discriminate).
  all: try (match goal with Hc : _ \/ _ |- _ => destruct Hc as [?|[? ?]]; discriminate end).
  split; reflexivity.
Qed.

Lemma enabled_key h c :
  Enabled h c ->
  resetKey (hero_next h c) =
  resetKey h +
  (if decide (allClosed h = true /\ phases (hero_next h c) = initial_phases)
   then 1 else 0).
Proof.
  intros En. destruct En; loop_cases; case_decide as D; simpl in *;
    try lia; try (destruct D as [D1 D2]; discriminate);
    try (exfalso; apply D; done).
Qed.

Lemma loops_count es w :
  Inv w ->
  resetKey (hero (run random w es)) = resetKey (hero w) + loops random w es.
Proof.
  revert w. induction es as [|e es IH]; intros w H; cbn [run foldl loops].
  - lia.
  - fold (run random (step random w e) es).
    rewrite (IH _ (inv_step w e H)).
    pose proof (enabled_key _ _ (inv_enabled w e H)) as E.
    rewrite <- step_hero in E. rewrite E. lia.
Qed.

Lemma inv_shaking w :
  Inv w -> isShaking (hero w) = true ->
  exists t, timers (browser w) !! t = Some (mkTimer ShakeDone 500).
Proof.
  intros H E. destruct H as [? ? ? ? ? ? ? ? ? ? ? ? ? ? ? ? _ _ _ _ HC].
  cbn [hero isShaking browser timers] in *.
  inversion HC; subst; try discriminate;
    eexists; first [apply lookup_insert_eq | apply lookup_singleton_eq].
Qed.

(** C5: when the timer of vignette B fires, the shake starts and the
    reset is scheduled 500 ms later, phases and counter unchanged; when
    that timer fires, the phases are back at active, idle, idle, the
    counter is one higher, and every box has a new component whose
    particles are a new result of [createParticles] (no component was
    mounted while the boxes were closed); no other step changes the
    counter, which along every run equals the number of loops completed;
    and a mounted idle or active component whose [resetKey] changes drops
    its particles and creates new ones. *)
Theorem reset_once_per_loop (es : list Event) :
  let w := run random (initial_world random) es in
  (forall e, cause w e = ByTimer (DefineDone 0) ->
     let w1 := step random w e in
     isShaking (hero w1) = true /\
     phases (hero w1) = phases (hero w) /\
     resetKey (hero w1) = resetKey (hero w) /\
     exists t, timers (browser w1) !! t = Some (mkTimer ShakeDone 500)) /\
  (forall e, cause w e = ByTimer ShakeDone ->
     let w1 := step random w e in
     phases (hero w1) = [active; idle; idle] /\
     resetKey (hero w1) = S (resetKey (hero w)) /\
     isShaking (hero w1) = false /\
     defineSceneActive (hero w1) = false /\
     forall i d, BOX_DATA !! i = Some d ->
       particles_of w i = None /\
       exists c, particles_of w1 i = Some c /\
         particlesRef c =
           createParticles random (draws (browser w) + 18 * i) (words d)) /\
  (forall e, cause w e <> ByTimer ShakeDone ->
     resetKey (hero (step random w e)) = resetKey (hero w)) /\
  resetKey (hero w) = loops random (initial_world random) es /\
  (forall i ws ph key c b,
     ph = idle \/ ph = active -> key <> dep_key c ->
     particlesRef (WordParticles_update random i ws ph key c b).1
       = createParticles random (draws b) ws).
Proof.
  intros w.
  assert (Inv w) as Hw by apply inv_run, inv_initial.
  split.
  { intros e E w1.
    assert (Inv w1) as Hw1 by apply inv_step, Hw.
    pose proof (step_hero w e) as Hh. rewrite E in Hh. fold w1 in Hh.
    simpl in Hh. rewrite Hh. do 3 (split; [done|]).
    apply inv_shaking; [done|]. by rewrite Hh. }
  split.
  { intros e E w1.
    destruct (shake_enabled w e Hw E) as [Hc Hh]. fold w1 in Hh.
    rewrite Hh. do 4 (split; [done|]). intros i d Hd.
    split; [by apply inv_particles_closed|].
    assert (Inv w1) as Hw1 by apply inv_step, Hw.
    assert (i < 3) as Hi by (apply lookup_lt_Some in Hd; simpl in Hd; lia).
    destruct (inv_particles_open w1 i Hw1 Hi) as [c Hc1].
    { unfold phase_of. rewrite Hh. destruct i as [|[|[|i]]]; done. }
    exists c. split; [done|].
    pose proof (step_particles w e i d Hw Hd) as Hp.
    unfold particles_step in Hp. fold w1 in Hp.
    rewrite (inv_particles_closed w i Hw Hc), Hc1 in Hp. apply Hp. }
  split.
  { intros e E. rewrite step_hero.
    destruct (cause w e) as [?|[ | | | | | ]| |]; try done; cbn.
    - destruct (BOX_DATA !! i) as [d|]; [|done]. by destruct (has_onDeployDone d).
    - destruct (BOX_DATA !! i) as [d|]; [|done]. by destruct (has_onDefineDone d). }
  split.
  { unfold w. rewrite loops_count by apply inv_initial. reflexivity. }
  apply reset_key_recreates.
Qed.


(** *** The snapshot *)

Lemma ids_ok_lookup ps p :
  ids_ok ps -> p ∈ ps -> ps !! id p = Some p.
Proof.
  intros Hids Hp. apply list_elem_of_lookup in Hp as [k Hk].
  assert (id p = k) as ->; [|done].
  assert (map id ps !! k = Some (id p)) as E.
  { change (map id ps) with (id <$> ps). by rewrite list_lookup_fmap, Hk. }
  rewrite Hids in E. apply lookup_seq in E. lia.
Qed.

Lemma snapshot_position ps p :
  ids_ok ps -> p ∈ ps -> map position ps !! id p = Some (position p).
Proof.
  intros Hids Hp. change (map position ps) with (position <$> ps).
  by rewrite list_lookup_fmap, (ids_ok_lookup ps p Hids Hp).
Qed.

Lemma inv_frozen w i c :
  Inv w -> i < 3 -> particles_of w i = Some c ->
  phase_of w i = gathering \/ phase_of w i = closing ->
  frozenRef c = Some (map position (particlesRef c)) /\ ids_ok (particlesRef c).
Proof.
  intros H Hi Hc Hph. pose proof (inv_wp w i H Hi) as Hwp.
  rewrite Hc in Hwp. destruct Hwp as (_ & Hids & _ & _ & Hrest).
  destruct Hph as [E|E]; rewrite E in Hrest; destruct_and?; done.
Qed.

(** C8: a click on the active box leaves in [frozenRef] the pair
    [(x, y)] of every particle, in the order of the particles, which are
    as they were; while the box is gathering or closing the snapshot is
    that list of pairs, its entry at the id of a particle is the [(x, y)]
    of that particle, and the render reads the position of each particle
    from there; a step that keeps the box in these two phases changes
    neither the snapshot nor the particles; while the box is idle or
    active there is no snapshot; and whatever the snapshot holds, the
    render of a gathering or closing box takes the position of a particle
    from it, at the id of the particle.  The entry holds in every
    reachable state, so the snapshot of a later loop is made from the
    particles of that loop alone. *)
Theorem freeze_snapshot (es : list Event) (i : nat) :
  i < 3 ->
  let w := run random (initial_world random) es in
  (forall c, particles_of w i = Some c -> phase_of w i = active ->
     let w1 := step random w (Click i) in
     phase_of w1 i = gathering /\
     exists c1, particles_of w1 i = Some c1 /\
       frozenRef c1 = Some (map (fun p => (x p, y p)) (particlesRef c)) /\
       particlesRef c1 = particlesRef c) /\
  (forall c, particles_of w i = Some c ->
     phase_of w i = gathering \/ phase_of w i = closing ->
     exists frozen,
       frozenRef c = Some frozen /\
       frozen = map (fun p => (x p, y p)) (particlesRef c) /\
       forall p, p ∈ particlesRef c ->
         frozen !! id p = Some (x p, y p) /\
         render_position (phase_of w i) c p = Some (x p, y p)) /\
  (forall e c c1,
     particles_of w i = Some c -> particles_of (step random w e) i = Some c1 ->
     phase_of w i = gathering \/ phase_of w i = closing ->
     phase_of (step random w e) i = gathering \/
       phase_of (step random w e) i = closing ->
     frozenRef c1 = frozenRef c /\ particlesRef c1 = particlesRef c) /\
  (forall c, particles_of w i = Some c ->
     phase_of w i = idle \/ phase_of w i = active -> frozenRef c = None) /\
  (forall ph c frozen p, frozenRef c = Some frozen ->
     ph = gathering \/ ph = closing ->
     render_position ph c p = frozen !! id p).
Proof.
  intros Hi w.
  assert (Inv w) as Hw by apply inv_run, inv_initial.
  assert (exists d, BOX_DATA !! i = Some d) as [d Hd].
  { apply lookup_lt_is_Some. simpl. lia. }
  split.
  { intros c Hc Hph w1.
    assert (Inv w1) as Hw1 by apply inv_step, Hw.
    assert (phase_of w1 i = gathering) as Hg.
    { unfold phase_of, w1.
      rewrite (click_taken w i Hph Hi).
      apply list_lookup_total_insert_eq.
      destruct Hw. simpl. lia. }
    split; [done|].
    destruct (inv_particles_open w1 i Hw1 Hi) as [c1 Hc1]; [by rewrite Hg|].
    exists c1. split; [done|].
    pose proof (step_particles w (Click i) i d Hw Hd) as Hp.
    unfold particles_step in Hp. fold w1 in Hp. rewrite Hc, Hc1 in Hp.
    simpl in Hp.
    destruct (inv_frozen w1 i c1 Hw1 Hi Hc1) as [Hf _]; [auto|].
    by rewrite Hf, Hp. }
  split.
  { intros c Hc Hph.
    destruct (inv_frozen w i c Hw Hi Hc Hph) as [Hf Hids].
    exists (map position (particlesRef c)).
    split; [done|]. split; [done|]. intros p Hp.
    pose proof (snapshot_position _ p Hids Hp) as Hs.
    split; [exact Hs|]. unfold render_position. rewrite Hf.
    destruct Hph as [-> | ->]; exact Hs. }
  split.
  { intros e c c1 Hc Hc1 Hph Hph1.
    assert (Inv (step random w e)) as Hw1 by apply inv_step, Hw.
    destruct (inv_frozen w i c Hw Hi Hc Hph) as [Hf _].
    destruct (inv_frozen _ i c1 Hw1 Hi Hc1 Hph1) as [Hf1 _].
    pose proof (step_particles w e i d Hw Hd) as Hp.
    unfold particles_step in Hp. rewrite Hc, Hc1 in Hp.
    destruct (decide (frame_box w e = Some i)) as [Hfr|_].
    - destruct (inv_frame w e i Hw Hfr) as [E|E];
        destruct Hph as [E'|E']; congruence.
    - by rewrite Hf, Hf1, Hp. }
  split.
  { intros c Hc Hph. pose proof (inv_wp w i Hw Hi) as Hwp.
    rewrite Hc in Hwp. destruct Hwp as (_ & _ & _ & _ & Hrest).
    destruct Hph as [E|E]; rewrite E in Hrest; destruct_and?; done. }
  intros ph c frozen p Hf Hph. unfold render_position. rewrite Hf.
  by destruct Hph as [-> | ->].
Qed.

(** *** The vignettes *)

Lemma cleared_stays m (l : list nat) (t : nat) :
  m !! t = None ->
  foldl (fun (m : gmap nat Timer) t => delete t m) m l !! t = None.
Proof.
  revert m. induction l as [|a l IH]; intros m H; simpl; [done|].
  apply IH. rewrite lookup_delete_None. auto.
Qed.

Lemma Scene_cleanup_timers s b :
  timers (Scene_cleanup s b)
    = foldl (fun (m : gmap nat Timer) t => delete t m) (timers b) (sceneCleanup s).
Proof.
  unfold Scene_cleanup. generalize (sceneCleanup s). intros l. revert b.
  induction l as [|a l IH]; intros b; simpl; [done|]. by rewrite IH.
Qed.

Lemma Scene_cleanup_clears s b t :
  t ∈ sceneCleanup s -> timers (Scene_cleanup s b) !! t = None.
Proof.
  rewrite Scene_cleanup_timers. generalize (timers b) (sceneCleanup s).
  intros m l. revert m. induction l as [|a l IH]; intros m Hin.
  - by apply elem_of_nil in Hin.
  - simpl. apply elem_of_cons in Hin as [->|Hin]; [|by apply IH].
    apply cleared_stays, lookup_delete_eq.
Qed.

Lemma cleanup_next_timer s b : next_timer (Scene_cleanup s b) = next_timer b.
Proof.
  unfold Scene_cleanup. generalize (sceneCleanup s). intros l. revert b.
  induction l as [|a l IH]; intros b; simpl; [done|]. by rewrite IH.
Qed.

Lemma Scene_cleanup_none k d a b : Scene_cleanup (mkScene k d a []) b = b.
Proof. reflexivity. Qed.

Lemma stick_restarts_cleanly i : restarts_cleanly (StickFigureScene_effect i).
Proof.
  unfold restarts_cleanly, Scene_mount, Scene_update, Scene_unmount.
  split; [done|]. split.
  { intros s b E. rewrite E. done. }
  split.
  { intros s b. by rewrite bool_decide_eq_true_2. }
  split; [apply Scene_cleanup_clears|]. split.
  { intros s b t Hin E. rewrite E. simpl. by apply Scene_cleanup_clears. }
  intros s b t Hin Hlt E. rewrite E. simpl. split; [done|].
  rewrite !Scene_cleanup_none.
  rewrite lookup_insert_ne by (rewrite cleanup_next_timer; lia).
  by apply Scene_cleanup_clears.
Qed.

Lemma define_restarts_cleanly i : restarts_cleanly (DefineScene_effect i).
Proof.
  unfold restarts_cleanly, Scene_mount, Scene_update, Scene_unmount.
  split; [done|]. split.
  { intros s b E. rewrite E. done. }
  split.
  { intros s b. by rewrite bool_decide_eq_true_2. }
  split; [apply Scene_cleanup_clears|]. split.
  { intros s b t Hin E. rewrite E. simpl. by apply Scene_cleanup_clears. }
  intros s b t Hin Hlt E. rewrite E. simpl. split; [done|].
  rewrite !Scene_cleanup_none.
  rewrite !lookup_insert_ne by (rewrite cleanup_next_timer; lia).
  by apply Scene_cleanup_clears.
Qed.

Lemma inv_timer_owner w t tm :
  Inv w -> timers (browser w) !! t = Some tm -> timer_owner w t (callback tm).
Proof.
  intros H Ht. destruct H as [? ? ? ? ? ? ? ? ? ? ? ? ? ? ? ? _ _ _ _ HC].
  cbn [browser timers] in Ht.
  inversion HC; subst; clear HC; timer_cases Ht; simpl; try done;
    (eexists _, _; split; [reflexivity|split; [reflexivity|set_solver]]).
Qed.

(** C9, as the spec states it, fails: a render with [active = true] of a
    scene that is already active does not run the effect.  The counter
    stays at 1 and the timer of the activation stays pending, for both
    components right after their mount; and on the page, the render that
    [setIsShaking(true)] causes while the definition scene is active
    leaves that scene, its counter and its pending unmount timer as they
    were. *)
Lemma vignette_restart_while_active_fails :
  ~ restarts_when_active (StickFigureScene_effect 2) /\
  ~ restarts_when_active (DefineScene_effect 0) /\
  Scene_update (StickFigureScene_effect 2) true mounted_stick.1 mounted_stick.2
    = mounted_stick /\
  sceneKey mounted_stick.1 = 1 /\
  timers mounted_stick.2 !! 0 = Some (mkTimer (StickDone 2) 4500) /\
  let w := run drift_random (initial_world drift_random) until_define in
  let w1 := step drift_random w (Fire 7) in
  isShaking (hero w) = false /\ isShaking (hero w1) = true /\
  map defineScene (boxes w) = [Some (mkScene 1 false true [7; 8]); None; None] /\
  map defineScene (boxes w1) = map defineScene (boxes w) /\
  timers (browser w1) !! 8 = Some (mkTimer (DefineUnmount 0) 5100).
Proof.
  split.
  { intros H.
    destruct (H mounted_stick.1 mounted_stick.2 0 eq_refl) as [Hk _].
    - apply list_elem_of_here.
    - discriminate Hk. }
  split.
  { intros H.
    destruct (H mounted_define.1 mounted_define.2 0 eq_refl) as [Hk _].
    - apply list_elem_of_here.
    - discriminate Hk. }
  repeat split; reflexivity.
Qed.

(** C9, amended: each run of the effect with [active = true], at the
    mount or when [active] goes from false to true, raises the counter
    [sceneKey] by one; a render with [active] unchanged, so also one of a
    scene that is already active, does not run the effect and changes
    nothing; the cleanup at a deactivation or an unmount calls
    [clearTimeout] on every timer of the activation it ends, so that a
    scene switched off and on again has a counter one higher and none of
    its earlier timers; and in every reachable state the handle of each
    pending vignette timer is held by the component now mounted, so no
    timer of an earlier activation is left to fire. *)
Theorem vignette_restarts_cleanly (es : list Event) (i : nat) :
  restarts_cleanly (StickFigureScene_effect i) /\
  restarts_cleanly (DefineScene_effect i) /\
  let w := run random (initial_world random) es in
  forall t tm, timers (browser w) !! t = Some tm ->
    timer_owner w t (callback tm).
Proof.
  split; [apply stick_restarts_cleanly|].
  split; [apply define_restarts_cleanly|].
  intros w t tm. apply inv_timer_owner, inv_run, inv_initial.
Qed.

(** *** The particles of the mounted components *)

Lemma initial_particles i d :
  BOX_DATA !! i = Some d ->
  exists c, particles_of (initial_world random) i = Some c /\
    particlesRef c = createParticles random (18 * i) (words d).
Proof.
  intros Hd. destruct i as [|[|[|i]]]; cbn in Hd; simplify_eq;
    eexists; split; reflexivity.
Qed.

Lemma inv_mounted w i c : Inv w -> particles_of w i = Some c -> i < 3.
Proof.
  intros H Hc. destruct H. destruct i as [|[|[|i]]]; [lia..|discriminate Hc].
Qed.

Lemma run_snoc w es e :
  run random w (es ++ [e]) = step random (run random w es) e.
Proof. unfold run. by rewrite foldl_app. Qed.

(** What [createParticles] establishes and [animate] keeps holds of the
    particles of every mounted component, in every reachable state. *)
Lemma reachable_particles (P : list Particle -> Prop) :
  (forall k ws, P (createParticles random k ws)) ->
  (forall ps, P ps -> P (animate ps)) ->
  forall es i c,
    particles_of (run random (initial_world random) es) i = Some c ->
    P (particlesRef c).
Proof.
  intros Hnew Hstep es.
  induction es as [|e es IH] using rev_ind; intros i c Hc.
  - assert (i < 3) as Hi by (eapply inv_mounted; [apply inv_initial|exact Hc]).
    destruct (lookup_lt_is_Some_2 BOX_DATA i) as [d Hd]; [simpl; lia|].
    destruct (initial_particles i d Hd) as (c' & Hc' & E).
    cbn [run foldl] in Hc. rewrite Hc' in Hc. simplify_eq. rewrite E. apply Hnew.
  - rewrite run_snoc in Hc.
    assert (Inv (run random (initial_world random) es)) as Hw
      by apply inv_run, inv_initial.
    assert (i < 3) as Hi by (eapply inv_mounted; [apply inv_step, Hw|exact Hc]).
    destruct (lookup_lt_is_Some_2 BOX_DATA i) as [d Hd]; [simpl; lia|].
    pose proof (step_particles _ e i d Hw Hd) as Hp.
    unfold particles_step in Hp. rewrite Hc in Hp.
    destruct (particles_of (run random (initial_world random) es) i)
      as [c0|] eqn:E0.
    + case_decide; rewrite Hp; [apply Hstep|]; by apply (IH i).
    + destruct Hp as [_ ->]. apply Hnew.
Qed.

(** * Claims on the particles of the page *)

(** C3: at the end of a frame every particle has speed [SPEED] or is at
    rest; a moving particle leaves [renorm] at speed [SPEED], a particle
    at rest is left as it is (the division is not reached), and alone in
    the square it is still at rest after the frame; and so it is for the
    particles of every mounted component, in every reachable state of the
    page. *)
Theorem speed_renormalised (es : list Event) (i : nat) :
  (forall ps, Forall speed_ok (animate ps)) /\
  (forall p, (0 < speed p)%R -> speed (renorm p) = SPEED) /\
  (forall p, at_rest p -> renorm p = p) /\
  (forall p, at_rest p -> Forall at_rest (animate [p])) /\
  (forall c, particles_of (run random (initial_world random) es) i = Some c ->
     Forall speed_ok (particlesRef c)).
Proof.
  split; [apply animate_speed_ok|]. split; [apply renorm_moving|].
  split; [apply renorm_rest|]. split; [apply animate_at_rest|].
  intros c. apply (reachable_particles (Forall speed_ok)).
  - apply created_speed_ok.
  - intros ps _. apply animate_speed_ok.
Qed.

(** C10: what [createParticles] makes lies in the interior, at speed
    [SPEED]; after any number of frames every particle is within [SPEED]
    of the square on each axis; and so are the particles of every mounted
    component, in every reachable state of the page. *)
Theorem overshoot_at_most_speed (k : nat) (ws : list string) (n : nat)
    (es : list Event) (i : nat) :
  (forall j, (0 <= random j < 1)%R) ->
  Forall in_interior (createParticles random k ws) /\
  Forall (fun p => speed p = SPEED) (createParticles random k ws) /\
  Forall within_overshoot (frames n (createParticles random k ws)) /\
  (forall c, particles_of (run random (initial_world random) es) i = Some c ->
     Forall within_overshoot (particlesRef c)).
Proof.
  intros Hr. split; [by apply createParticles_from_interior|].
  split; [apply createParticles_from_speed|].
  split; [by apply frames_overshoot, created_within_overshoot|].
  intros c. apply (reachable_particles (Forall within_overshoot)).
  - intros. by apply created_within_overshoot.
  - intros ps _. apply animate_overshoot.
Qed.

(** * More on the steps of the page *)

Import View Page Earlier.

(** *** Frames and draws along a step *)

Ltac live_facts HL HF :=
  try (destruct (HL 0 _ eq_refl) as (? & ? & ?);
       [by (first [left; reflexivity | right; reflexivity])|]);
  try (destruct (HL 1 _ eq_refl) as (? & ? & ?);
       [by (first [left; reflexivity | right; reflexivity])|]);
  try (destruct (HL 2 _ eq_refl) as (? & ? & ?);
       [by (first [left; reflexivity | right; reflexivity])|]);
  simplify_eq/=;
  repeat match goal with
         | H : ?F !! ?n = Some ?i |- _ =>
             lazymatch goal with
             | _ : n < _ |- _ => fail
             | _ => pose proof (proj1 (HF _ _ H))
             end
         end.

Ltac solve_lookup :=
  cbn [rafs browser];
  repeat first
    [ assumption
    | apply lookup_insert_eq
    | rewrite lookup_insert_ne by lia
    | rewrite lookup_delete_ne by congruence ].

Ltac solve_live :=
  let i := fresh "i" in let c := fresh "c" in
  let Hc := fresh "Hc" in let Hph := fresh "Hph" in
  intros i c Hc Hph; destruct i as [|[|[|i]]];
  unfold particles_of, phase_of in Hc, Hph;
  cbn [boxes hero phases lookup list_lookup lookup_total list_lookup_total
       mbind option_bind wordParticles] in Hc, Hph;
  try discriminate Hc;
  (destruct Hph as [Hph|Hph]; try discriminate Hph);
  simplify_eq; eexists; (split; [reflexivity|]); solve_lookup.

Ltac solve_draws HD :=
  unfold draws_ok in *; cbn [browser draws hero resetKey] in *; lia.

Ltac conclude_live HD :=
  eexists; split; [crunch; reflexivity|];
  split; [solve_live | solve_draws HD].

Ltac click_live ei HD :=
  destruct ei as [|[|[|ei]]]; conclude_live HD.

Ltac timeout_live et HD :=
  unfold step at 1; cbn [browser timers];
  match goal with
  | |- context [?T !! et] =>
      let HT := fresh "HT" in
      destruct (T !! et) as [?|] eqn:HT;
      [timer_cases HT|]; conclude_live HD
  end.

Ltac frame_live er HF HD :=
  unfold step at 1; cbn [browser rafs];
  match goal with
  | |- context [?F !! er] =>
      let HFr := fresh "HFr" in let i := fresh "i" in
      destruct (F !! er) as [i|] eqn:HFr;
      [ let Hlt := fresh in let c := fresh "c" in
        let Hc := fresh in let Hr := fresh in
        destruct (HF _ _ HFr) as (Hlt & c & Hc & Hr);
        destruct i as [|[|[|i]]]; simplify_eq/= |];
      conclude_live HD
  end.

Lemma step_live_spec w e :
  Inv w -> rafs_live w -> draws_ok w ->
  exists w', step random w e = w' /\ rafs_live w' /\ draws_ok w'.
Proof.
  intros H HL HD.
  destruct H as [p0 p1 p2 c0 c1 c2 st df dsa shk key T nt F nr d H0 H1 H2 HF HC].
  inversion HC; subst; clear HC;
    try match goal with
        | Hk : ?k < 3, E : loop_phases ?k _ = _ |- _ =>
            destruct k as [|[|[|?]]]; [| | |lia]; cbn in E; simplify_eq
        end.
  all: expose_wp H0; expose_wp H1; expose_wp H2.
  all: live_facts HL HF.
  all: destruct e as [ei|et|er];
    [click_live ei HD | timeout_live et HD | frame_live er HF HD].
Qed.

Lemma live_initial :
  rafs_live (initial_world random) /\ draws_ok (initial_world random).
Proof.
  unfold initial_world, initial_hero, empty_browser, empty_box.
  cbn [replicate length BOX_DATA]. crunch.
  split; [solve_live | reflexivity].
Qed.

(** *** The steps of the vignettes *)

Lemma stick_done_spec w e :
  Inv w -> cause w e = ByTimer (StickDone 2) ->
  exists w', step random w e = w' /\ handed_over w w'.
Proof.
  intros H Hc.
  destruct H as [p0 p1 p2 c0 c1 c2 st df dsa shk key T nt F nr d H0 H1 H2 HF HC].
  destruct e as [ei|et|er].
  - simpl in Hc. destruct (BOX_DATA !! ei); [|done].
    by destruct (isActive _).
  - unfold step at 1. unfold cause in Hc. cbn [browser timers] in *.
    destruct (T !! et) as [tm|] eqn:HT; [|done].
    inversion HC; subst; clear HC; timer_cases HT; simpl in Hc;
      try discriminate Hc.
    expose_wp H0; expose_wp H1; expose_wp H2.
    eexists. split; [crunch; reflexivity|].
    unfold handed_over, stick_of, define_of. cbn. norm_maps. done.
  - simpl in Hc. by destruct (F !! er).
Qed.

Lemma define_unmount_spec w e t :
  Inv w -> e = Fire t -> cause w e = ByTimer (DefineUnmount 0) ->
  exists w', step random w e = w' /\ hidden w w' t.
Proof.
  intros H -> Hc.
  destruct H as [p0 p1 p2 c0 c1 c2 st df dsa shk key T nt F nr d H0 H1 H2 HF HC].
  unfold step at 1. unfold cause in Hc. cbn [browser timers] in *.
  destruct (T !! t) as [tm|] eqn:HT; [|done].
  inversion HC; subst; clear HC; timer_cases HT; simpl in Hc;
    try discriminate Hc.
  all: expose_wp H0; expose_wp H1; expose_wp H2.
  all: eexists; (split; [crunch; reflexivity|]).
  all: unfold hidden, stick_of, define_of; cbn; eauto 10.
Qed.

(** *** The earlier revision *)

Ltac stage_legacy :=
  cbv beta iota zeta delta
    [step0 run_callback0 setPhases0 commit_from0 Box_commit0
     WordParticles_mount0 WordParticles_update0 erase
     phases0 words0 browser0 handleClick handleGatherDone handleClosingDone
     BOX_DATA Box_onClick isActive showWords is_closed
     setTimeout clearTimeout cancelAnimationFrame
     hero boxes browser phases wordParticles words box_id dep_phase
     timers next_timer rafs next_raf draws map];
  simpl.

Ltac crunch0 := stage_legacy; crunch.

Ltac no_rafs HF :=
  apply map_empty; intros r;
  match goal with
  | |- ?F !! r = None =>
      let E := fresh in
      destruct (F !! r) as [i|] eqn:E; [exfalso|reflexivity];
      destruct (HF _ _ E) as (_ & ? & ? & ?);
      destruct i as [|[|[|?]]]; simplify_eq/=
  end.

Ltac conclude0 HF :=
  eexists; split; [crunch; reflexivity|];
  eexists; split; [crunch0; reflexivity|];
  cbn [hero allClosed phases forallb is_closed andb resetKey];
  first [ split; [reflexivity|reflexivity]
        | split; [reflexivity|];
          unfold static; cbn [phases0 words0 browser0 timers rafs];
          norm_maps; repeat split; no_rafs HF ].

Ltac click0 ei HF :=
  destruct ei as [|[|[|ei]]]; conclude0 HF.

Ltac timeout0 et HF :=
  unfold step at 1; unfold step0 at 1;
  cbn [browser timers erase browser0];
  match goal with
  | |- context [?T !! et] =>
      let HT := fresh "HT" in
      destruct (T !! et) as [?|] eqn:HT;
      [timer_cases HT|]; conclude0 HF
  end.

Ltac frame0 er HF :=
  unfold step at 1; unfold step0 at 1;
  cbn [browser rafs erase browser0];
  match goal with
  | |- context [?F !! er] =>
      let HFr := fresh "HFr" in let i := fresh "i" in
      destruct (F !! er) as [i|] eqn:HFr;
      [ let Hlt := fresh in let c := fresh "c" in
        let Hc := fresh in let Hr := fresh in
        destruct (HF _ _ HFr) as (Hlt & c & Hc & Hr);
        destruct i as [|[|[|i]]]; simplify_eq/= |];
      conclude0 HF
  end.

Lemma step0_spec w e :
  Inv w -> allClosed (hero w) = false -> resetKey (hero w) = 0 ->
  exists w', step random w e = w' /\
  exists w0', step0 random (erase w) e = w0' /\
    resetKey (hero w') = 0 /\
    if allClosed (hero w') then static w0' else w0' = erase w'.
Proof.
  intros H Hopen Hkey.
  destruct H as [p0 p1 p2 c0 c1 c2 st df dsa shk key T nt F nr d H0 H1 H2 HF HC].
  cbn [hero resetKey] in Hkey. subst key.
  inversion HC; subst; clear HC; try discriminate Hopen;
    try match goal with
        | Hk : ?k < 3, E : loop_phases ?k _ = _ |- _ =>
            destruct k as [|[|[|?]]]; [| | |lia]; cbn in E; simplify_eq
        end.
  all: clear Hopen.
  all: expose_wp H0; expose_wp H1; expose_wp H2.
  all: repeat match goal with
              | Hp : ?ps <> [] |- _ =>
                  is_var ps; destruct ps as [|? ?]; [congruence|]
              end.
  all: destruct e as [ei|et|er];
    [click0 ei HF | timeout0 et HF | frame0 er HF].
Qed.

Lemma initial_erase : initial_world0 random = erase (initial_world random).
Proof. reflexivity. Qed.

End HeroFacts.

Lemma click_only_when_active_witness :
  step drift_random (initial_world drift_random) (Click 1)
    = initial_world drift_random /\
  phases (hero (step drift_random (initial_world drift_random) (Click 0)))
    = <[0 := gathering]> (phases (hero (initial_world drift_random))).
Proof.
  split.
  - apply (click_only_when_active drift_random (initial_world drift_random) 1).
    lazy. discriminate.
  - apply (click_only_when_active drift_random (initial_world drift_random) 0).
    + lazy. reflexivity.
    + lia.
Defined.

Lemma phase_sequence_and_callbacks_witness :
  0 < 3 /\
  exists t1 t2,
    map (fun es => phase_of (run drift_random (initial_world drift_random) es) 0)
      [[]; [Click 0]; [Click 0; Fire t1]; [Click 0; Fire t1; Fire t2]]
    = [active; gathering; closing; closed] /\
    entries drift_random gathering 0 (initial_world drift_random)
      [Click 0; Fire t1; Fire t2] = 1 /\
    firings drift_random (GatherDone 0) (initial_world drift_random)
      [Click 0; Fire t1; Fire t2] = 1 /\
    entries drift_random closing 0 (initial_world drift_random)
      [Click 0; Fire t1; Fire t2] = 1 /\
    firings drift_random (ClosingDone 0) (initial_world drift_random)
      [Click 0; Fire t1; Fire t2] = 1.
Proof.
  split; [lia|].
  destruct (phase_sequence_and_callbacks drift_random [] 0 ltac:(lia))
    as (_ & _ & _ & _ & _ & _ & H & _).
  destruct (H eq_refl) as (t1 & t2 & P1 & P2 & P3 & Hcounts).
  exists t1, t2. split; [|exact Hcounts].
  exact (f_equal2 cons eq_refl
           (f_equal2 cons P1 (f_equal2 cons P2 (f_equal2 cons P3 eq_refl)))).
Defined.

Lemma reset_once_per_loop_witness :
  resetKey (hero (step drift_random
                    (run drift_random (initial_world drift_random) until_shake)
                    (Fire 9)))
  = S (resetKey (hero (run drift_random (initial_world drift_random)
                         until_shake))).
Proof.
  destruct (reset_once_per_loop drift_random until_shake) as (_ & H & _).
  destruct (H (Fire 9)) as (_ & Hk & _); [reflexivity | exact Hk].
Defined.

Lemma freeze_snapshot_witness :
  0 < 3 /\
  exists c1,
    particles_of (step drift_random (initial_world drift_random) (Click 0)) 0
      = Some c1 /\
    frozenRef c1
      = Some [(16, 16); (16, 80); (16, 142); (80, 16); (80, 80); (80, 142)]%R.
Proof.
  split; [lia|].
  destruct (freeze_snapshot drift_random [] 0 ltac:(lia)) as (H & _).
  destruct (H _ eq_refl eq_refl) as (_ & c1 & Hc1 & Hf & _).
  exists c1. split; [exact Hc1|].
  exact (eq_trans Hf
           (f_equal (fun ps => Some (map (fun p => (x p, y p)) ps))
              drift_created)).
Defined.

Lemma vignette_restarts_cleanly_witness :
  timer_owner (run drift_random (initial_world drift_random) three_cycles)
    6 (StickDone 2).
Proof.
  destruct (vignette_restarts_cleanly drift_random three_cycles 0)
    as (_ & _ & H).
  exact (H 6 (mkTimer (StickDone 2) 4500) eq_refl).
Defined.

Lemma speed_renormalised_witness :
  renorm still = still /\ speed (renorm near_a) = SPEED.
Proof.
  destruct (speed_renormalised drift_random [] 0) as (_ & Hmove & Hrest & _).
  split.
  - apply Hrest. by split.
  - apply Hmove. unfold speed. simpl.
    replace (hypot 1 0) with 1%R; [lra|]. symmetry. apply hypot_unique; lra.
Defined.

Lemma overshoot_at_most_speed_witness :
  Forall within_overshoot
    (frames 46 (createParticles drift_random 0 define_words)).
Proof.
  destruct (overshoot_at_most_speed drift_random 0 define_words 46 [] 0)
    as (_ & _ & H & _); [|exact H].
  intros j. unfold drift_random.
  do 18 (destruct j as [|j]; [cbn [nth drift_draws]; lra|]).
  destruct j; cbn [nth drift_draws]; lra.
Defined.

(** * More on the particles, the page and the earlier revision *)

Import View Page Earlier.

Section ParticleFacts.
Local Open Scope R_scope.

(** *** createParticles, by index *)

Lemma createParticles_from_lookup random k j ws i w :
  ws !! i = Some w ->
  createParticles_from random k j ws !! i
    = Some (createParticle random (k + 3 * i) (j + i) w).
Proof.
  revert k j i. induction ws as [|w0 ws IH]; intros k j i H; [done|].
  destruct i as [|i]; simpl in *.
  - simplify_eq. do 2 f_equal; lia.
  - rewrite (IH _ _ _ H). do 2 f_equal; lia.
Qed.

Lemma createParticles_from_words random k j ws :
  map word (createParticles_from random k j ws) = ws.
Proof. revert k j. induction ws; intros; simpl; [done|]. by rewrite IHws. Qed.

(** X1: [createParticles] makes one particle for each word, in the order
    of the words: the particle at index [i] has id [i], the word at [i],
    and is made from the three draws [k + 3 * i], [k + 3 * i + 1] and
    [k + 3 * i + 2] of [Math.random]; no words, no particles. *)
Theorem createParticles_by_index (random : nat -> R) (k : nat)
    (ws : list string) :
  length (createParticles random k ws) = length ws /\
  map word (createParticles random k ws) = ws /\
  map id (createParticles random k ws) = seq 0 (length ws) /\
  (forall i w, ws !! i = Some w ->
     createParticles random k ws !! i
       = Some (createParticle random (k + 3 * i) i w)).
Proof.
  split; [apply createParticles_from_length|].
  split; [apply createParticles_from_words|].
  split; [apply createParticles_from_ids|].
  intros i w H. unfold createParticles.
  by rewrite (createParticles_from_lookup _ _ _ _ _ _ H).
Qed.

(** *** wall *)

Lemma wall_word p : word (wall p) = word p.
Proof.
  unfold wall.
  repeat (destruct (Rle_dec _ _) || destruct (Rge_dec _ _)); reflexivity.
Qed.

Lemma wall_abs_vx p : Rabs (vx (wall p)) = Rabs (vx p).
Proof.
  unfold wall.
  repeat (destruct (Rle_dec _ _) || destruct (Rge_dec _ _)); simpl;
    rewrite ?Rabs_Ropp, ?Rabs_Rabsolu; reflexivity.
Qed.

Lemma wall_abs_vy p : Rabs (vy (wall p)) = Rabs (vy p).
Proof.
  unfold wall.
  repeat (destruct (Rle_dec _ _) || destruct (Rge_dec _ _)); simpl;
    rewrite ?Rabs_Ropp, ?Rabs_Rabsolu; reflexivity.
Qed.

Lemma hypot_abs a b : hypot (Rabs a) (Rabs b) = hypot a b.
Proof.
  unfold hypot. f_equal.
  rewrite <- !Rabs_mult. rewrite !Rabs_pos_eq; [reflexivity|nra|nra].
Qed.

Lemma wall_speed p : speed (wall p) = speed p.
Proof.
  unfold speed.
  rewrite <- (hypot_abs (vx (wall p))), <- (hypot_abs (vx p)).
  by rewrite wall_abs_vx, wall_abs_vy.
Qed.

Lemma wall_fixed p :
  in_bounds p ->
  (x p = 0 -> 0 <= vx p) -> (x p = BOUND_W -> vx p <= 0) ->
  (y p = 0 -> 0 <= vy p) -> (y p = BOUNCE_H -> vy p <= 0) ->
  wall p = p.
Proof.
  intros [Hx Hy] H1 H2 H3 H4.
  apply particle_eq; [apply wall_id|apply wall_word|..];
    unfold wall, BOUND_W, BOUNCE_H in *;
    repeat (destruct (Rle_dec _ _) || destruct (Rge_dec _ _)); simpl in *;
    try lra;
    try (rewrite Rabs_pos_eq by lra; lra);
    try (rewrite Rabs_left1 by lra; lra).
Qed.

Lemma wall_x_eq p :
  x (wall p) = (if Rle_dec (x p) 0 then 0
                else if Rge_dec (x p) BOUND_W then BOUND_W else x p) /\
  vx (wall p) = (if Rle_dec (x p) 0 then Rabs (vx p)
                 else if Rge_dec (x p) BOUND_W then - Rabs (vx p) else vx p).
Proof.
  unfold wall, BOUND_W.
  destruct (Rle_dec (x p) 0); simpl;
    [destruct (Rge_dec 0 160); [lra|]|destruct (Rge_dec (x p) 160)]; simpl;
    destruct (Rle_dec (y p) 0); simpl;
    repeat (destruct (Rge_dec _ _); simpl); auto; lra.
Qed.

Lemma wall_y_eq p :
  y (wall p) = (if Rle_dec (y p) 0 then 0
                else if Rge_dec (y p) BOUNCE_H then BOUNCE_H else y p) /\
  vy (wall p) = (if Rle_dec (y p) 0 then Rabs (vy p)
                 else if Rge_dec (y p) BOUNCE_H then - Rabs (vy p) else vy p).
Proof.
  unfold wall, BOUNCE_H.
  destruct (Rle_dec (x p) 0); simpl;
    [destruct (Rge_dec 0 BOUND_W)|destruct (Rge_dec (x p) BOUND_W)]; simpl;
    (destruct (Rle_dec (y p) 0); simpl;
     [destruct (Rge_dec 0 160); [lra|]|destruct (Rge_dec (y p) 160)]; simpl;
     auto).
Qed.

Lemma wall_idempotent p : wall (wall p) = wall p.
Proof.
  pose proof (Rabs_pos (vx p)). pose proof (Rabs_pos (vy p)).
  destruct (wall_x_eq p) as [Ex Evx]. destruct (wall_y_eq p) as [Ey Evy].
  apply wall_fixed; [apply wall_in_bounds|..]; intros E;
    unfold BOUND_W, BOUNCE_H in *.
  - rewrite Evx. rewrite Ex in E.
    destruct (Rle_dec (x p) 0); [done|].
    destruct (Rge_dec (x p) 160); lra.
  - rewrite Evx. rewrite Ex in E.
    destruct (Rle_dec (x p) 0); [lra|].
    destruct (Rge_dec (x p) 160); lra.
  - rewrite Evy. rewrite Ey in E.
    destruct (Rle_dec (y p) 0); [done|].
    destruct (Rge_dec (y p) 160); lra.
  - rewrite Evy. rewrite Ey in E.
    destruct (Rle_dec (y p) 0); [lra|].
    destruct (Rge_dec (y p) 160); lra.
Qed.

Lemma wall_fixed_inv p :
  wall p = p ->
  in_bounds p /\
  (x p = 0 -> 0 <= vx p) /\ (x p = BOUND_W -> vx p <= 0) /\
  (y p = 0 -> 0 <= vy p) /\ (y p = BOUNCE_H -> vy p <= 0).
Proof.
  intros E. split; [rewrite <- E; apply wall_in_bounds|].
  repeat split; intros H.
  - destruct (wall_low_x p) as [_ Hv]; [lra|]. by rewrite E in Hv.
  - destruct (wall_high_x p) as [_ Hv]; [lra|]. by rewrite E in Hv.
  - destruct (wall_low_y p) as [_ Hv]; [lra|]. by rewrite E in Hv.
  - destruct (wall_high_y p) as [_ Hv]; [lra|]. by rewrite E in Hv.
Qed.

(** X2: the wall tests are idempotent and keep the speed and the
    magnitude of each velocity component, so they only turn the velocity;
    and they leave a particle as it is exactly when it is inside the square
    (walls included) and, at a wall, does not head outwards. *)
Theorem wall_reflects (p : Particle) :
  wall (wall p) = wall p /\
  speed (wall p) = speed p /\
  Rabs (vx (wall p)) = Rabs (vx p) /\ Rabs (vy (wall p)) = Rabs (vy p) /\
  (wall p = p <->
     in_bounds p /\
     (x p = 0 -> 0 <= vx p) /\ (x p = BOUND_W -> vx p <= 0) /\
     (y p = 0 -> 0 <= vy p) /\ (y p = BOUNCE_H -> vy p <= 0)).
Proof.
  split; [apply wall_idempotent|]. split; [apply wall_speed|].
  split; [apply wall_abs_vx|]. split; [apply wall_abs_vy|].
  split; [apply wall_fixed_inv|].
  intros (H & H1 & H2 & H3 & H4). by apply wall_fixed.
Qed.

(** *** renorm *)

Lemma renorm_word p : word (renorm p) = word p.
Proof. unfold renorm. destruct (Rgt_dec _ _); done. Qed.

Lemma renorm_idempotent p : renorm (renorm p) = renorm p.
Proof.
  destruct (renorm_speed_ok p) as [E|E].
  - by apply renorm_at_speed.
  - by apply renorm_rest.
Qed.

Lemma renorm_scales p :
  0 < speed p ->
  0 < SPEED / speed p /\
  vx (renorm p) = SPEED / speed p * vx p /\
  vy (renorm p) = SPEED / speed p * vy p.
Proof.
  intros H. pose proof SPEED_pos. unfold renorm. fold (speed p).
  destruct (Rgt_dec (speed p) 0); [|lra]. simpl.
  split; [by apply Rdiv_lt_0_compat|]. split; field; lra.
Qed.

(** X3: the renormalisation is idempotent and does not move the
    particle; the velocity of a moving particle is multiplied by the
    positive factor [SPEED / speed p], so the heading is kept; a particle
    already at speed [SPEED] is left as it is. *)
Theorem renorm_keeps_heading (p : Particle) :
  renorm (renorm p) = renorm p /\
  x (renorm p) = x p /\ y (renorm p) = y p /\
  (0 < speed p ->
     0 < SPEED / speed p /\
     vx (renorm p) = SPEED / speed p * vx p /\
     vy (renorm p) = SPEED / speed p * vy p) /\
  (speed p = SPEED -> renorm p = p).
Proof.
  split; [apply renorm_idempotent|].
  destruct (renorm_position p) as (Ex & Ey & _).
  split; [done|]. split; [done|].
  split; [apply renorm_scales|apply renorm_at_speed].
Qed.

(** *** repel_pair *)

Lemma hypot_opp a b c d : a = - c -> b = - d -> hypot a b = hypot c d.
Proof. intros -> ->. unfold hypot. f_equal. ring. Qed.

Lemma impulse_antisym p q :
  impulse q p = (- fst (impulse p q), - snd (impulse p q)).
Proof.
  unfold impulse.
  rewrite (hypot_opp (x q - x p) (y q - y p) (x p - x q) (y p - y q))
    by ring.
  set (d := hypot (x p - x q) (y p - y q)).
  destruct (Rlt_dec d REP_DIST); [destruct (Rgt_dec d 0)|]; simpl;
    f_equal; try lra; field; lra.
Qed.

Lemma repel_pair_swap p q :
  repel_pair q p = (snd (repel_pair p q), fst (repel_pair p q)).
Proof.
  rewrite !repel_pair_impulse, impulse_antisym. simpl.
  f_equal; apply particle_eq; simpl; try reflexivity; lra.
Qed.

Lemma force_bound d : 0 < d < REP_DIST -> force d < REP_FORCE.
Proof.
  unfold force, REP_DIST, REP_FORCE. intros H. lra.
Qed.

Lemma impulse_bound p q :
  hypot (fst (impulse p q)) (snd (impulse p q)) < REP_FORCE.
Proof.
  destruct (Rlt_dec (distance p q) REP_DIST) as [H1|H1].
  - destruct (Rgt_dec (distance p q) 0) as [H0|H0].
    + rewrite impulse_magnitude by lra. apply force_bound. lra.
    + rewrite impulse_out_of_reach.
      * simpl. rewrite hypot_0_0. unfold REP_FORCE. lra.
      * left. pose proof (hypot_nonneg (x p - x q) (y p - y q)).
        unfold distance in *. lra.
  - rewrite impulse_out_of_reach by (right; lra).
    simpl. rewrite hypot_0_0. unfold REP_FORCE. lra.
Qed.

Lemma impulse_le p q :
  hypot (fst (impulse p q)) (snd (impulse p q)) <= REP_FORCE.
Proof. apply Rlt_le, impulse_bound. Qed.

(** X4: the repulsion test of a pair gives [p] a velocity change and
    [q] the opposite one, and moves neither particle; it does not depend
    on which of the two is [p]: with the roles swapped the two particles
    end the same.  Numbers are real numbers here, so the sum of the two
    velocities is kept exactly; in floating-point arithmetic the two
    changes are the same product with opposite signs and the sum is kept
    up to rounding. *)
Theorem repel_pair_symmetric (p q : Particle) :
  let p' := fst (repel_pair p q) in
  let q' := snd (repel_pair p q) in
  repel_pair q p = (q', p') /\
  (exists ix iy,
     vx p' = vx p + ix /\ vy p' = vy p + iy /\
     vx q' = vx q - ix /\ vy q' = vy q - iy) /\
  vx p' + vx q' = vx p + vx q /\ vy p' + vy q' = vy p + vy q /\
  x p' = x p /\ y p' = y p /\ x q' = x q /\ y q' = y q.
Proof.
  intros p' q'. split; [apply repel_pair_swap|].
  unfold p', q'. rewrite repel_pair_impulse. simpl.
  split; [by exists (fst (impulse p q)), (snd (impulse p q))|].
  repeat split; lra.
Qed.

(** X5: however close the two particles are, the repulsion test changes
    the velocity of each by a vector of length at most [REP_FORCE], and
    so each component by at most [REP_FORCE]: the direction [(nx, ny)]
    has length one and the factor [(REP_DIST - d) / REP_DIST] is at most
    one.  Numbers are real numbers here; the bound as stated is on the
    exact values, not on their floating-point roundings. *)
Theorem repel_pair_bounded (p q : Particle) :
  let p' := fst (repel_pair p q) in
  let q' := snd (repel_pair p q) in
  hypot (vx p' - vx p) (vy p' - vy p) <= REP_FORCE /\
  hypot (vx q' - vx q) (vy q' - vy q) <= REP_FORCE /\
  Rabs (vx p' - vx p) <= REP_FORCE /\ Rabs (vy p' - vy p) <= REP_FORCE /\
  Rabs (vx q' - vx q) <= REP_FORCE /\ Rabs (vy q' - vy q) <= REP_FORCE.
Proof.
  intros p' q'.
  assert (hypot (vx p' - vx p) (vy p' - vy p) <= REP_FORCE /\
          hypot (vx q' - vx q) (vy q' - vy q) <= REP_FORCE) as [Hp Hq].
  { unfold p', q'. rewrite repel_pair_impulse. simpl.
    pose proof (impulse_le p q) as H. split.
    - replace (vx p + fst (impulse p q) - vx p) with (fst (impulse p q)) by lra.
      replace (vy p + snd (impulse p q) - vy p) with (snd (impulse p q)) by lra.
      exact H.
    - rewrite (hypot_opp _ _ (fst (impulse p q)) (snd (impulse p q))) by lra.
      exact H. }
  split; [exact Hp|]. split; [exact Hq|].
  pose proof (Rabs_le_hypot_l (vx p' - vx p) (vy p' - vy p)).
  pose proof (Rabs_le_hypot_r (vx p' - vx p) (vy p' - vy p)).
  pose proof (Rabs_le_hypot_l (vx q' - vx q) (vy q' - vy q)).
  pose proof (Rabs_le_hypot_r (vx q' - vx q) (vy q' - vy q)).
  repeat split; lra.
Qed.

(** *** animate *)

Lemma animate_words ps : map word (animate ps) = map word ps.
Proof.
  apply (animate_ind (fun ps qs => map word qs = map word ps)); [done|].
  intros p rest IH. rewrite animate_cons. simpl.
  rewrite IH, map_map. simpl. f_equal.
  rewrite renorm_word. simpl. apply wall_word.
Qed.

Lemma frames_S n ps : frames (S n) ps = animate (frames n ps).
Proof. reflexivity. Qed.

Lemma frames_identity n ps :
  length (frames n ps) = length ps /\
  map id (frames n ps) = map id ps /\
  map word (frames n ps) = map word ps.
Proof.
  induction n as [|n (IH1 & IH2 & IH3)]; [done|].
  rewrite frames_S, animate_length, animate_ids, animate_words. done.
Qed.

(** X6: frames keep the number of the particles, their order, their
    ids and their words; a frame of no particles gives no particles. *)
Theorem frames_keep_identity (n : nat) (ps : list Particle) :
  length (frames n ps) = length ps /\
  map id (frames n ps) = map id ps /\
  map word (frames n ps) = map word ps /\
  (ps = [] -> animate ps = []).
Proof.
  destruct (frames_identity n ps) as (H1 & H2 & H3).
  repeat split; try done. by intros ->.
Qed.

Lemma animate_apart ps :
  Forall (fun p => speed p = SPEED) ps -> apart ps ->
  animate ps = map (fun p => integrate (wall p)) ps.
Proof.
  induction ps as [|p rest IH]; intros Hv Hsp; [done|].
  inversion_clear Hv as [|? ? Hp Hrest]. destruct Hsp as [Hfar Hsp].
  rewrite animate_cons.
  rewrite total_impulse_spread, push_zero by done.
  rewrite renorm_at_speed by (by rewrite wall_speed).
  simpl. f_equal.
  rewrite <- IH by done. f_equal.
  rewrite <- (map_id rest) at 2. apply map_ext_Forall.
  eapply Forall_impl; [exact Hfar|]. intros q Hq. simpl in Hq.
  rewrite impulse_out_of_reach by auto. apply pull_zero.
Qed.

(** X7: when every particle is at speed [SPEED] and no particle is
    within [REP_DIST] of an earlier one (as the inner loop measures it: the
    earlier one after its wall tests), a frame is the wall tests followed by
    the step along the velocity; strictly inside the square it is the step
    alone; and a particle at or beyond the left wall ends the frame heading
    right, at most [SPEED] inside. *)
Theorem frame_without_neighbours (ps : list Particle) :
  Forall (fun p => speed p = SPEED) ps -> apart ps ->
  animate ps = map (fun p => integrate (wall p)) ps /\
  (Forall strictly_inside ps -> animate ps = map integrate ps) /\
  (forall i p, ps !! i = Some p -> x p <= 0 ->
     exists p', animate ps !! i = Some p' /\
       vx p' = Rabs (vx p) /\ x p' = Rabs (vx p) /\ 0 <= x p' <= SPEED).
Proof.
  intros Hv Hc. rewrite (animate_apart ps Hv Hc).
  split; [done|]. split.
  - intros Hin. apply map_ext_Forall.
    eapply Forall_impl; [exact Hin|]. intros p [Hx Hy]. simpl.
    by rewrite wall_inside.
  - intros i p Hi Hx. eexists. split.
    { change (map ?f ps) with (f <$> ps). rewrite list_lookup_fmap, Hi.
      reflexivity. }
    destruct (wall_x_eq p) as [Ex Evx].
    destruct (Rle_dec (x p) 0); [|lra].
    simpl. rewrite Ex, Evx. split; [done|]. split; [lra|].
    rewrite Forall_forall in Hv.
    assert (speed p = SPEED) as Hs.
    { apply Hv. by eapply list_elem_of_lookup_2. }
    pose proof (Rabs_le_hypot_l (vx p) (vy p)) as Hb. fold (speed p) in Hb.
    pose proof (Rabs_pos (vx p)). lra.
Qed.

Lemma wall_pull_position v q :
  x (wall (pull v q)) = x (wall q) /\ y (wall (pull v q)) = y (wall q).
Proof.
  destruct (wall_x_eq (pull v q)) as [-> _].
  destruct (wall_y_eq (pull v q)) as [-> _].
  destruct (wall_x_eq q) as [-> _]. destruct (wall_y_eq q) as [-> _]. done.
Qed.

Lemma animate_step ps i p :
  ps !! i = Some p ->
  exists p', animate ps !! i = Some p' /\
    x p' = x (wall p) + vx p' /\ y p' = y (wall p) + vy p' /\ speed_ok p'.
Proof.
  revert i p.
  apply (animate_ind (fun ps qs => forall i p, ps !! i = Some p ->
    exists p', qs !! i = Some p' /\
      x p' = x (wall p) + vx p' /\ y p' = y (wall p) + vy p' /\ speed_ok p'));
    [done|].
  intros p0 rest IH i p Hi. rewrite animate_cons.
  destruct i as [|i]; simpl in *.
  - simplify_eq. eexists. split; [reflexivity|].
    set (p1 := push _ (wall p)).
    destruct (renorm_position p1) as (Ex & Ey & _). simpl.
    rewrite Ex, Ey. repeat split; try reflexivity.
    apply integrate_speed_ok, renorm_speed_ok.
  - destruct (IH i (pull (impulse (wall p0) p) p)) as (p' & Hp' & Hx & Hy & Hs).
    { change (map ?f rest) with (f <$> rest). by rewrite list_lookup_fmap, Hi. }
    exists p'. split; [done|].
    destruct (wall_pull_position (impulse (wall p0) p) p) as [Ex Ey].
    rewrite <- Ex, <- Ey. done.
Qed.

(** X8: in a frame every particle moves from where the wall tests put
    it by exactly the velocity it ends the frame with, which has magnitude
    [SPEED] or is zero; a particle strictly inside the square moves from
    where it was. *)
Theorem frame_moves_by_velocity (ps : list Particle) (i : nat) (p : Particle) :
  ps !! i = Some p ->
  exists p', animate ps !! i = Some p' /\
    x p' = x (wall p) + vx p' /\ y p' = y (wall p) + vy p' /\
    (speed p' = SPEED \/ at_rest p') /\
    (strictly_inside p -> x p' = x p + vx p' /\ y p' = y p + vy p').
Proof.
  intros Hi. destruct (animate_step ps i p Hi) as (p' & Hp' & Hx & Hy & Hs).
  exists p'. repeat split; try done.
  - destruct H as [H1 H2]. rewrite Hx, (wall_inside p H1 H2). done.
  - destruct H as [H1 H2]. rewrite Hy, (wall_inside p H1 H2). done.
Qed.

End ParticleFacts.

Section PageFacts.
Variable random : nat -> R.

Lemma reachable_Inv es : Inv (run random (initial_world random) es).
Proof. apply inv_run, inv_initial. Qed.

(** *** The handlers, for any number of boxes *)

Lemma replicate_snoc {A} (n : nat) (a : A) :
  replicate n a ++ [a] = replicate (S n) a.
Proof. induction n as [|n IH]; simpl; [done|]. by rewrite IH. Qed.

Lemma insert_row k (ph ph' : BoxPhase) l :
  <[k := ph']> (replicate k closed ++ ph :: l) = replicate k closed ++ ph' :: l.
Proof.
  rewrite insert_app_r_alt by (rewrite length_replicate; lia).
  rewrite length_replicate, Nat.sub_diag. done.
Qed.

Lemma handlers_row k m :
  handleClick k (row k active m) = row k gathering m /\
  handleGatherDone k (row k gathering m) = row k closing m /\
  handleClosingDone k (row k closing m) =
    match m with
    | 0 => replicate (S k) closed
    | S m' => row (S k) active m'
    end.
Proof.
  unfold handleClick, handleGatherDone, handleClosingDone, row. simpl.
  rewrite !insert_row. split; [done|]. split; [done|].
  rewrite length_app, length_replicate. simpl. rewrite length_replicate.
  destruct m as [|m'].
  - rewrite decide_False by lia. apply replicate_snoc.
  - rewrite decide_True by lia. simpl.
    rewrite (cons_middle closed), app_assoc, replicate_snoc.
    replace (k + 1) with (S k) by lia.
    change (replicate (S k) closed ++ idle :: replicate m' idle)
      with (replicate (S k) closed ++ idle :: replicate m' idle).
    rewrite (insert_row (S k) idle active). done.
Qed.

(** X9: for any number of boxes, with the boxes before [k] closed, box
    [k] active and the [m] boxes after it idle, the click, gather-complete
    and closing-complete handlers of box [k] in turn close box [k] and make
    the next box active, or leave every box closed when [k] is the last;
    the number of boxes stays as it is, and all are closed only then. *)
Theorem handlers_advance_the_row (k m : nat) :
  handleClosingDone k (handleGatherDone k (handleClick k (row k active m))) =
    match m with
    | 0 => replicate (S k) closed
    | S m' => row (S k) active m'
    end /\
  length (handleClosingDone k (handleGatherDone k (handleClick k (row k active m))))
    = length (row k active m) /\
  (forallb is_closed
     (handleClosingDone k (handleGatherDone k (handleClick k (row k active m))))
   = true <-> m = 0).
Proof.
  destruct (handlers_row k m) as (-> & -> & ->).
  split; [done|]. split.
  - unfold row. destruct m; rewrite ?length_app, ?length_replicate; simpl;
      rewrite ?length_replicate; lia.
  - destruct m as [|m'].
    + split; [done|]. intros _. induction k; simpl in *; auto.
    + split; [|done]. unfold row. rewrite !forallb_app. simpl.
      rewrite andb_false_r. done.
Qed.

Ltac timer_cases HT :=
  repeat match type of HT with
         | ∅ !! _ = Some _ => rewrite lookup_empty in HT; discriminate HT
         | {[ _ := _ ]} !! _ = Some _ =>
             apply lookup_singleton_Some in HT as [-> <-]
         | <[ _ := _ ]> _ !! _ = Some _ =>
             apply lookup_insert_Some in HT as [[-> <-]|[? HT]]
         end.

(** *** The stages of the page *)

Ltac by_stage H :=
  destruct H as [p0 p1 p2 c0 c1 c2 st df dsa shk key T nt F nr d H0 H1 H2 HF HC];
  inversion HC; subst; clear HC;
  try match goal with
      | Hk : ?k < 3, E : loop_phases ?k _ = _ |- _ =>
          destruct k as [|[|[|?]]]; [| | |lia]; cbn in E; simplify_eq
      end.

Lemma inv_order w :
  Inv w ->
  (exists k ph, k < 3 /\ (ph = active \/ ph = gathering \/ ph = closing) /\
     phases (hero w) = loop_phases k ph /\
     defineSceneActive (hero w) = false /\ isShaking (hero w) = false) \/
  (phases (hero w) = all_closed /\
   (isShaking (hero w) = true -> defineSceneActive (hero w) = true)).
Proof.
  intros H. by_stage H; cbn [hero phases defineSceneActive isShaking];
    first [ by right
          | left; exists 0; eexists; split; [lia|]; split; [|done]; auto; fail
          | left; exists 1; eexists; split; [lia|]; split; [|done]; auto; fail
          | left; exists 2; eexists; split; [lia|]; split; [|done]; auto; fail ].
Qed.

Lemma boxes_order_active w :
  Inv w ->
  forall i j, phases (hero w) !! i = Some active ->
    phases (hero w) !! j = Some active -> i = j.
Proof.
  intros Hw i j Hi Hj.
  destruct (inv_order w Hw) as [(k & ph & Hk & Hph & E & _)|[E _]];
    rewrite E in Hi, Hj.
  - destruct k as [|[|[|?]]]; [| | |lia];
      destruct i as [|[|[|i]]], j as [|[|[|j]]]; cbn in Hi, Hj;
      simplify_eq; done.
  - destruct i as [|[|[|i]]]; cbn in Hi; simplify_eq.
Qed.

(** X10: in every state of the page either one box is in progress
    (active, gathering or closing) with the boxes before it closed, the
    boxes after it idle and both flags off, or all boxes are closed, and
    then the boxes shake only while vignette B is on; so at most one box is
    active. *)
Theorem boxes_in_order (es : list Event) :
  let h := hero (run random (initial_world random) es) in
  ((exists k ph, k < 3 /\ (ph = active \/ ph = gathering \/ ph = closing) /\
      phases h = loop_phases k ph /\
      defineSceneActive h = false /\ isShaking h = false) \/
   (phases h = all_closed /\
    (isShaking h = true -> defineSceneActive h = true))) /\
  (forall i j, phases h !! i = Some active -> phases h !! j = Some active ->
     i = j) /\
  (forall i ph, phases h !! i = Some ph -> ph <> idle -> ph <> closed ->
     forall j ph', phases h !! j = Some ph' ->
       (j < i -> ph' = closed) /\ (i < j -> ph' = idle)).
Proof.
  intros h. pose proof (inv_order _ (reachable_Inv es)) as H. fold h in H.
  split; [exact H|].
  destruct H as [(k & ph & Hk & Hph & -> & _)|[-> _]].
  - destruct k as [|[|[|?]]]; [| | |lia];
      (split;
       [ intros [|[|[|i]]] [|[|[|j]]] Hi Hj; cbn in Hi, Hj; simplify_eq;
         try done; destruct Hph as [->|[-> | ->]]; done
       | intros [|[|[|i]]] ph0 Hi H1 H2 [|[|[|j]]] ph' Hj;
         cbn in Hi, Hj; simplify_eq; try done; split; (done || lia) ]).
  - split.
    + intros [|[|[|i]]] j Hi; cbn in Hi; simplify_eq.
    + intros [|[|[|i]]] ph0 Hi H1 H2; cbn in Hi; simplify_eq.
Qed.

(** *** What is mounted *)

Lemma inv_mounting w i :
  Inv w -> i < 3 ->
  (is_Some (particles_of w i) <-> phase_of w i <> closed) /\
  (is_Some (stick_of w i) <-> i = 2 /\ allClosed (hero w) = true) /\
  (is_Some (define_of w i) <->
     i = 0 /\ defineSceneActive (hero w) = true).
Proof.
  intros H Hi. pose proof (inv_wp w i H Hi) as Hwp. split.
  { destruct (particles_of w i) as [c|]; simpl in Hwp.
    - split; [|eauto]. intros _ E. rewrite E in Hwp.
      by destruct Hwp as (_ & _ & _ & _ & ?).
    - split; [by intros [? ?]|]. by intros []. }
  clear Hwp.
  by_stage H; destruct i as [|[|[|i]]]; try lia;
    unfold stick_of, define_of; cbn;
    (split; split;
     first [ by intros [? ?] | by intros [? ?]; simplify_eq
           | intros _; by eauto | intros [? ?]; by eauto ]).
Qed.

(** X11: in every state of the page a box has its [WordParticles]
    mounted exactly while it is not closed, vignette A is mounted exactly
    on the deploy box while all boxes are closed, and vignette B exactly on
    the define box while [defineSceneActive] is set. *)
Theorem components_follow_state (es : list Event) (i : nat) :
  i < 3 ->
  let w := run random (initial_world random) es in
  (is_Some (particles_of w i) <-> phase_of w i <> closed) /\
  (is_Some (stick_of w i) <-> i = 2 /\ allClosed (hero w) = true) /\
  (is_Some (define_of w i) <->
     i = 0 /\ defineSceneActive (hero w) = true).
Proof. intros Hi w. apply inv_mounting; [apply reachable_Inv|done]. Qed.

(** X12: in every state of the page vignette A draws its SVG exactly
    while all boxes are closed and vignette B has not been started, vignette
    B draws only after it has been started, so the two are never drawn
    together; and every mounted vignette is in its first activation. *)
Theorem vignettes_take_turns (es : list Event) :
  let w := run random (initial_world random) es in
  (on_screen (stick_of w 2) = true <->
     allClosed (hero w) = true /\ defineSceneActive (hero w) = false) /\
  (on_screen (define_of w 0) = true ->
     allClosed (hero w) = true /\ defineSceneActive (hero w) = true) /\
  (forall i s, stick_of w i = Some s \/ define_of w i = Some s ->
     sceneKey s = 1 /\ dep_active s = true).
Proof.
  intros w. pose proof (reachable_Inv es) as H. fold w in H.
  clearbody w.
  by_stage H; unfold stick_of, define_of; cbn;
    (split; [split; [try done; by intros [? ?]|try done; by intros [? ?]]|]);
    (split; [done|]);
    intros [|[|[|i]]] s [E|E]; cbn in E; simplify_eq; done.
Qed.

(** *** The pending timers *)

(** X13: in every state of the page at most two timers are pending,
    each with the delay the source gives its callback and a handle the
    browser has given out, no two with the same callback; and while a box is
    active no timer is pending at all. *)
Theorem pending_timers (es : list Event) :
  let w := run random (initial_world random) es in
  size (timers (browser w)) <= 2 /\
  (forall t tm, timers (browser w) !! t = Some tm ->
     delay tm = delay_of (callback tm) /\ t < next_timer (browser w)) /\
  (forall t t' tm tm',
     timers (browser w) !! t = Some tm -> timers (browser w) !! t' = Some tm' ->
     callback tm = callback tm' -> t = t') /\
  (forall i, phases (hero w) !! i = Some active -> timers (browser w) = ∅).
Proof.
  intros w. pose proof (reachable_Inv es) as H. fold w in H.
  clearbody w.
  by_stage H; cbn [browser timers next_timer hero phases];
    (split;
     [ rewrite ?map_size_insert, ?lookup_singleton_ne, ?map_size_singleton,
         ?map_size_empty by lia; simpl; lia |]);
    (split;
     [ intros a tm Ht; timer_cases Ht; simpl; split; (done || lia) |]);
    (split;
     [ intros a a' tm tm' Ht Ht' E; timer_cases Ht; timer_cases Ht';
       simpl in E; done || congruence |]);
    intros [|[|[|i]]] E; cbn in E; simplify_eq; done.
Qed.

End PageFacts.

Section FrameFacts.
Variable random : nat -> R.

(** *** The animation frames *)

Lemma live_run es :
  rafs_live (run random (initial_world random) es) /\
  draws_ok (run random (initial_world random) es).
Proof.
  induction es as [|e es [IH1 IH2]] using rev_ind; [apply live_initial|].
  rewrite run_snoc.
  destruct (step_live_spec random _ e (reachable_Inv random es) IH1 IH2)
    as (w' & <- & ? & ?).
  done.
Qed.

(** X14: in every state of the page each idle or active box has its
    next animation frame pending, under the handle in its [rafRef]; every
    pending frame is such a one; so exactly one frame is pending for each
    idle or active box and none for any other. *)
Theorem one_frame_per_moving_box (es : list Event) :
  let w := run random (initial_world random) es in
  (forall i c, particles_of w i = Some c ->
     phase_of w i = idle \/ phase_of w i = active ->
     exists r, rafRef c = Some r /\ rafs (browser w) !! r = Some i) /\
  (forall r i, rafs (browser w) !! r = Some i ->
     (phase_of w i = idle \/ phase_of w i = active) /\
     exists c, particles_of w i = Some c /\ rafRef c = Some r) /\
  (forall r r' i,
     rafs (browser w) !! r = Some i -> rafs (browser w) !! r' = Some i ->
     r = r').
Proof.
  intros w. pose proof (reachable_Inv random es) as Hw. fold w in Hw.
  split; [apply (live_run es)|].
  assert (forall r i, rafs (browser w) !! r = Some i ->
            (phase_of w i = idle \/ phase_of w i = active) /\
            exists c, particles_of w i = Some c /\ rafRef c = Some r) as H.
  { intros r i Hr. split.
    - apply (inv_frame w (Frame r) i Hw). exact Hr.
    - by destruct (inv_rafs w r i Hw Hr) as [_ ?]. }
  split; [exact H|].
  intros r r' i Hr Hr'.
  destruct (H r i Hr) as (_ & c & Hc & E).
  destruct (H r' i Hr') as (_ & c' & Hc' & E'). congruence.
Qed.

(** *** Where the particles of a box come from *)

Lemma key_unchanged w e :
  cause w e <> ByTimer ShakeDone ->
  resetKey (hero (step random w e)) = resetKey (hero w).
Proof.
  intros E. rewrite step_hero.
  destruct (cause w e) as [?|[i|i|i|i|i|]| |]; try done; cbn.
  - destruct (BOX_DATA !! i) as [d|]; [|done]. by destruct (has_onDeployDone d).
  - destruct (BOX_DATA !! i) as [d|]; [|done]. by destruct (has_onDefineDone d).
Qed.

Lemma key_of_mounted w e i c :
  Inv w -> particles_of w i = Some c ->
  resetKey (hero (step random w e)) = resetKey (hero w).
Proof.
  intros Hw Hc. apply key_unchanged. intros E.
  destruct (shake_enabled random w e Hw E) as [Hall _].
  by rewrite (inv_particles_closed w i Hw Hall) in Hc.
Qed.

Lemma particles_history es i d c :
  let w := run random (initial_world random) es in
  BOX_DATA !! i = Some d -> particles_of w i = Some c ->
  exists n, particlesRef c =
    frames n (createParticles random (54 * resetKey (hero w) + 18 * i) (words d)).
Proof.
  revert c. induction es as [|e es IH] using rev_ind; intros c w Hd Hc.
  - destruct (initial_particles random i d Hd) as (c' & Hc' & E).
    unfold w in Hc. cbn [run foldl] in Hc. rewrite Hc' in Hc. simplify_eq.
    exists 0. rewrite E. simpl. do 2 f_equal.
  - unfold w in *. clear w. rewrite run_snoc in *.
    set (w := run random (initial_world random) es) in *.
    pose proof (reachable_Inv random es) as Hw. fold w in Hw.
    destruct (live_run es) as [_ HD]. fold w in HD.
    pose proof (step_particles random w e i d Hw Hd) as Hp.
    unfold particles_step in Hp. rewrite Hc in Hp.
    destruct (particles_of w i) as [c0|] eqn:E0.
    + rewrite (key_of_mounted w e i c0 Hw E0).
      destruct (IH c0 Hd eq_refl) as [n Hn].
      case_decide.
      * exists (S n). rewrite Hp, Hn. reflexivity.
      * exists n. by rewrite Hp.
    + destruct Hp as [Hs ->]. exists 0. simpl.
      destruct (shake_enabled random w e Hw Hs) as [_ ->].
      unfold draws_ok in HD. rewrite HD. simpl resetKey. do 2 f_equal.
Qed.

(** X15: in every state of the page [Math.random] has been called 54
    times for each loop begun, and the particles of a mounted component are
    some number of frames of what [createParticles] made for its box at the
    start of the current loop. *)
Theorem particles_are_frames_of_created (es : list Event) :
  let w := run random (initial_world random) es in
  draws (browser w) = 54 * S (resetKey (hero w)) /\
  forall i d c,
    BOX_DATA !! i = Some d -> particles_of w i = Some c ->
    exists n, particlesRef c =
      frames n
        (createParticles random (54 * resetKey (hero w) + 18 * i) (words d)).
Proof.
  intros w. split.
  - apply (live_run es).
  - intros i d c Hd Hc. by apply particles_history.
Qed.

(** X16: in every state of the page the particles of a mounted
    component change only when a frame of its own box runs, which takes
    them through [animate] and happens only while the box is idle or
    active; clicks, timers and the frames of the other boxes leave them as
    they are. *)
Theorem particles_move_only_by_own_frames (es : list Event) (e : Event)
    (i : nat) (c c' : WordParticles) :
  let w := run random (initial_world random) es in
  particles_of w i = Some c -> particles_of (step random w e) i = Some c' ->
  (frame_box w e = Some i ->
     particlesRef c' = animate (particlesRef c) /\
     (phase_of w i = idle \/ phase_of w i = active)) /\
  (frame_box w e <> Some i -> particlesRef c' = particlesRef c).
Proof.
  intros w Hc Hc'. pose proof (reachable_Inv random es) as Hw. fold w in Hw.
  assert (i < 3) as Hi by (by eapply inv_mounted).
  destruct (lookup_lt_is_Some_2 BOX_DATA i) as [d Hd]; [simpl; lia|].
  pose proof (step_particles random w e i d Hw Hd) as Hp.
  unfold particles_step in Hp. rewrite Hc, Hc' in Hp.
  split; intros Hf.
  - rewrite decide_True in Hp by done. split; [done|].
    by apply (inv_frame w e i Hw).
  - by rewrite decide_False in Hp.
Qed.

(** *** From vignette A to vignette B *)

(** X17: when the timer of vignette A fires, vignette A stops drawing,
    [defineSceneActive] is set with the phases, the shake flag and the
    counter unchanged, and vignette B is mounted in its first activation
    with its two timers, 5000 and 5100 ms, the only ones pending; when the
    second of them fires, vignette B stops drawing and stays mounted, and
    nothing else changes. *)
Theorem vignette_handoff (es : list Event) (e : Event) :
  let w := run random (initial_world random) es in
  (cause w e = ByTimer (StickDone 2) -> handed_over w (step random w e)) /\
  (forall t, e = Fire t -> cause w e = ByTimer (DefineUnmount 0) ->
     hidden w (step random w e) t).
Proof.
  intros w. pose proof (reachable_Inv random es) as Hw. fold w in Hw. split.
  - intros Hc. by destruct (stick_done_spec random w e Hw Hc) as (w' & <- & ?).
  - intros t -> Hc.
    by destruct (define_unmount_spec random w (Fire t) t Hw eq_refl Hc)
      as (w' & <- & ?).
Qed.

(** *** The page goes on *)

Lemma progress w :
  Inv w ->
  exists e,
    resetKey (hero (step random w e)) = S (resetKey (hero w)) \/
    (resetKey (hero (step random w e)) = resetKey (hero w) /\
     rank (hero (step random w e)) < rank (hero w)).
Proof.
  intros H.
  destruct H as [p0 p1 p2 c0 c1 c2 st df dsa shk key T nt F nr d H0 H1 H2 HF HC].
  inversion HC; subst; clear HC;
    try match goal with
        | Hk : ?k < 3, E : loop_phases ?k _ = _ |- _ =>
            destruct k as [|[|[|?]]]; [| | |lia]; cbn in E; simplify_eq
        end.
  all: first
    [ exists (Click 0); rewrite step_hero; right;
      split; [reflexivity|vm_compute; lia]
    | exists (Click 1); rewrite step_hero; right;
      split; [reflexivity|vm_compute; lia]
    | exists (Click 2); rewrite step_hero; right;
      split; [reflexivity|vm_compute; lia]
    | match goal with
      | |- context [<[ ?a := mkTimer ShakeDone _ ]> _] =>
          exists (Fire a); rewrite step_hero; unfold cause;
          cbn [browser timers]; rewrite lookup_insert_eq; left; reflexivity
      | |- context [{[ ?a := mkTimer ShakeDone _ ]}] =>
          exists (Fire a); rewrite step_hero; unfold cause;
          cbn [browser timers]; rewrite lookup_singleton_eq; left; reflexivity
      | |- context [{[ ?a := mkTimer (DefineDone 0) _ ]}] =>
          exists (Fire a); rewrite step_hero; unfold cause;
          cbn [browser timers];
          rewrite ?lookup_insert_ne by lia; rewrite lookup_singleton_eq;
          right; split; [reflexivity|vm_compute; lia]
      | |- context [{[ ?a := _ ]}] =>
          exists (Fire a); rewrite step_hero; unfold cause;
          cbn [browser timers]; rewrite lookup_singleton_eq;
          right; split; [reflexivity|vm_compute; lia]
      end ].
Qed.

Lemma rank_pos h : 0 < rank h.
Proof.
  unfold rank. destruct (isShaking h), (defineSceneActive h); lia.
Qed.

Lemma rank_bound w : Inv w -> rank (hero w) <= 12.
Proof.
  intros H.
  destruct H as [p0 p1 p2 c0 c1 c2 st df dsa shk key T nt F nr d _ _ _ _ _].
  unfold rank. cbn [hero phases isShaking defineSceneActive foldr].
  destruct p0, p1, p2, shk, dsa; cbn [phase_rank]; lia.
Qed.

Lemma enabled_rank h c :
  Enabled h c ->
  hero_next h c = h \/
  (resetKey (hero_next h c) = resetKey h /\ S (rank (hero_next h c)) = rank h) \/
  (rank h = 1 /\ hero_next h c = reset_hero h).
Proof.
  intros H. destruct H;
    repeat match goal with
           | Hk : ?k < 3 |- _ => destruct k as [|[|[|?]]]; [| | |lia]; clear Hk
           | H : _ \/ _ |- _ => destruct H as [H|H]
           | H : exists _, _ |- _ => destruct H as [? H]
           end; subst;
    first [ by left
          | by (right; left; split; vm_compute)
          | by (right; right; split; vm_compute) ].
Qed.

(** X18: the loop neither halts nor goes back.  [rank] counts the
    handlers still to run before the reset: three for a box that is idle
    or active (its click, its gather timer, its closing timer), two while
    it is gathering, one while it is closing, and three, two or one for
    the timers of the stick figure, of the definition and of the shake.
    In every reachable state the count is between 1 and 12; every event
    leaves the state of [ScreensaverHero] as it is, or lowers the count by
    exactly one with [resetKey] unchanged, or, at count 1, is the reset;
    and some event that reaches a handler (a click on the active box or a
    pending timer) does change the state. *)
Theorem never_stuck (es : list Event) :
  let w := run random (initial_world random) es in
  1 <= rank (hero w) <= 12 /\
  (forall e,
     hero (step random w e) = hero w \/
     (resetKey (hero (step random w e)) = resetKey (hero w) /\
      S (rank (hero (step random w e))) = rank (hero w)) \/
     (rank (hero w) = 1 /\ hero (step random w e) = reset_hero (hero w))) /\
  (exists e,
     ((exists i, cause w e = ByClick i) \/ (exists c, cause w e = ByTimer c)) /\
     hero (step random w e) <> hero w).
Proof.
  intros w. pose proof (reachable_Inv random es) as Hw. fold w in Hw.
  split.
  { pose proof (rank_pos (hero w)). pose proof (rank_bound w Hw). lia. }
  split.
  { intros e. rewrite step_hero. apply enabled_rank, inv_enabled, Hw. }
  destruct (progress w Hw) as [e He]. exists e.
  assert (hero (step random w e) <> hero w) as Hne.
  { intros E. rewrite E in He. destruct He as [He|[_ He]]; lia. }
  split; [|exact Hne].
  rewrite step_hero in Hne.
  destruct (cause w e) as [i|c|i|]; [by left; exists i|by right; exists c|..];
    by destruct Hne.
Qed.

Lemma reset_within n w :
  Inv w -> rank (hero w) <= n ->
  exists es,
    length es <= n /\
    resetKey (hero (run random w es)) = S (resetKey (hero w)).
Proof.
  revert w. induction n as [|n IH]; intros w Hw Hn.
  - pose proof (rank_pos (hero w)). lia.
  - destruct (progress w Hw) as [e [He|[Hk He]]].
    + exists [e]. split; [simpl; lia|exact He].
    + destruct (IH (step random w e)) as (es & Hl & Hes);
        [by apply inv_step|lia|].
      exists (e :: es). split; [simpl; lia|].
      change (run random w (e :: es)) with (run random (step random w e) es).
      by rewrite Hes, Hk.
Qed.

(** X26: the page cannot get stuck short of a new pass.  After any
    sequence of clicks, timer callbacks and animation frames there are at
    most twelve further events (the click, the gather timer and the
    closing timer of each of the three boxes, then the timers of the
    stick figure, of the definition and of the shake) after which
    [resetKey] has been incremented, that is, the boxes are back in
    their first state with fresh particles. *)
Theorem loop_can_complete es :
  exists es',
    length es' <= 12 /\
    resetKey (hero (run random (initial_world random) (es ++ es'))) =
    S (resetKey (hero (run random (initial_world random) es))).
Proof.
  pose proof (reachable_Inv random es) as Hw.
  destruct (reset_within 12 _ Hw (rank_bound _ Hw)) as (es' & Hl & He).
  exists es'. split; [exact Hl|].
  unfold run in *. by rewrite foldl_app.
Qed.

End FrameFacts.

Section ViewFacts.
Variable random : nat -> R.

(** *** What WordParticles renders *)

Lemma spans_from_live ph c j ps :
  (forall p, p ∈ ps -> render_position ph c p = Some (position p)) ->
  exists spans, spans_from ph c j ps = Some spans /\
    length spans = length ps /\
    forall idx p, ps !! idx = Some p ->
      spans !! idx = Some (span_at ph (j + idx) p (x p) (y p)).
Proof.
  revert j. induction ps as [|p ps IH]; intros j H.
  - exists []. done.
  - destruct (IH (S j)) as (ss & E & Hl & Hs).
    { intros q Hq. apply H. by right. }
    exists (span_at ph j p (x p) (y p) :: ss). simpl.
    unfold span_of. rewrite (H p) by left. simpl. rewrite E.
    split; [done|]. split; [by rewrite Hl|].
    intros [|idx] q Hq; simpl in *.
    + simplify_eq. by rewrite Nat.add_0_r.
    + rewrite (Hs idx q Hq). do 2 f_equal. lia.
Qed.

Lemma render_position_ok w i c p :
  Inv w -> i < 3 -> particles_of w i = Some c -> p ∈ particlesRef c ->
  render_position (phase_of w i) c p = Some (position p).
Proof.
  intros Hw Hi Hc Hp. pose proof (inv_wp w i Hw Hi) as Hwp.
  rewrite Hc in Hwp. destruct Hwp as (_ & Hids & _ & _ & Hrest).
  unfold render_position.
  destruct (phase_of w i); destruct_and?; try contradiction;
    repeat match goal with H : frozenRef c = _ |- _ => rewrite H end;
    try done; by apply snapshot_position.
Qed.

Lemma words_of_mounted es i d c :
  BOX_DATA !! i = Some d ->
  particles_of (run random (initial_world random) es) i = Some c ->
  map word (particlesRef c) = words d /\
  map id (particlesRef c) = seq 0 (length (words d)) /\
  length (particlesRef c) = length (words d).
Proof.
  intros Hd Hc. destruct (particles_history random es i d c Hd Hc) as [n ->].
  destruct (frames_identity n
    (createParticles random
       (54 * resetKey (hero (run random (initial_world random) es)) + 18 * i)
       (words d))) as (-> & -> & ->).
  unfold createParticles.
  by rewrite createParticles_from_words, createParticles_from_ids,
    createParticles_from_length.
Qed.


(** X20: a box has six words; while it is gathering the transition of
    word [idx] ends [idx * 40 + 520] ms after the render, which is within
    the 660 ms of the pending gather timer exactly for the first four words,
    and takes the word to a slot on the centre line inside the square; while
    it is closing the transition ends [idx * 25 + 420] ms after the render,
    within the 560 ms of the pending closing timer for every word, and takes
    the word to the centre of the box, [GAP + 80] below the word zone. *)
Theorem transitions_and_timers (es : list Event) (i : nat) (d : BoxData)
    (c : WordParticles) (spans : list Span) (idx : nat) (s : Span) :
  let w := run random (initial_world random) es in
  BOX_DATA !! i = Some d -> particles_of w i = Some c ->
  WordParticles_render (phase_of w i) c = Some spans ->
  spans !! idx = Some s ->
  idx < 6 /\
  (phase_of w i = gathering ->
     (exists t, timers (browser w) = {[ t := mkTimer (GatherDone i) 660 ]}) /\
     transition_end s = idx * 40 + 520 /\
     (transition_end s <= 660 <-> idx <= 3) /\
     fst (target s) = (BOUND_W / 2)%R /\
     (0 < snd (target s) < BOUNCE_H)%R) /\
  (phase_of w i = closing ->
     (exists t, timers (browser w) = {[ t := mkTimer (ClosingDone i) 560 ]}) /\
     transition_end s = idx * 25 + 420 /\
     transition_end s <= 560 /\
     fst (target s) = (BOUND_W / 2)%R /\
     (snd (target s) = BOUND_H + GAP + 80)%R).
Proof.
  intros w Hd Hc Hr Hidx.
  pose proof (reachable_Inv random es) as Hw. fold w in Hw.
  assert (i < 3) as Hi by (by eapply inv_mounted).
  destruct (words_of_mounted es i d c Hd Hc) as (_ & _ & Hlen).
  destruct (spans_from_live (phase_of w i) c 0 (particlesRef c))
    as (spans' & E & Hl & Hs).
  { intros p Hp. by apply (render_position_ok w i). }
  unfold WordParticles_render in Hr. rewrite E in Hr. simplify_eq.
  assert (idx < 6) as Hlt.
  { apply lookup_lt_Some in Hidx. rewrite Hl, Hlen in Hidx.
    destruct i as [|[|[|i]]]; cbn in Hd; simplify_eq; simpl in Hidx; lia. }
  destruct (lookup_lt_is_Some_2 (particlesRef c) idx) as [p Hp].
  { rewrite <- Hl. by eapply lookup_lt_Some. }
  rewrite (Hs idx p Hp) in Hidx. simplify_eq. simpl.
  split; [done|]. split; intros Hph; rewrite Hph.
  - split; [by apply inv_gather_timer|].
    unfold transition_end, target. simpl.
    split; [done|]. split; [lia|].
    unfold colY, COL_X, COL_BOTTOM_Y, COL_SPACING, BOUNCE_H, BOUND_W.
    split; [lra|].
    pose proof (pos_INR idx).
    pose proof (le_INR idx 5 ltac:(lia)) as Hle. simpl in Hle. lra.
  - split; [by apply inv_closing_timer|].
    unfold transition_end, target. simpl.
    split; [done|]. split; [lia|].
    unfold BOX_CX, BOX_CY. split; lra.
Qed.

(** *** What Box renders *)

Lemma render_lookup h i d :
  BOX_DATA !! i = Some d ->
  ScreensaverHero_render h !! i =
    Some (Box_render (label d) (closedLabel d) (phases h !!! i)
            (isShaking h) (isPileBox d)).
Proof.
  intros Hd. unfold ScreensaverHero_render.
  by rewrite list_lookup_imap, Hd.
Qed.

(** X21: in every state of the page a box shows its closed label, in
    the heavy font, exactly when no words are mounted above it; it has the
    click handler, the pointer cursor and the spark exactly while it is
    active, and at most one box has them; the boxes shake only while all
    show their closed labels; and the paper pile is on the define box
    alone. *)
Theorem what_each_box_shows (es : list Event) (i : nat) (d : BoxData)
    (v : BoxView) :
  let w := run random (initial_world random) es in
  BOX_DATA !! i = Some d -> ScreensaverHero_render (hero w) !! i = Some v ->
  (particles_of w i = None ->
     labelText v = closedLabel d /\ className v = "font-black"%string) /\
  (is_Some (particles_of w i) ->
     labelText v = label d /\ className v = "font-normal"%string) /\
  (hasSpark v = hasOnClick v /\
   (hasOnClick v = true <-> phase_of w i = active) /\
   (hasOnClick v = true <-> cursor v = "pointer"%string)) /\
  (forall j v', ScreensaverHero_render (hero w) !! j = Some v' ->
     hasSpark v = true -> hasSpark v' = true -> i = j) /\
  (animation v <> "none"%string ->
     isShaking (hero w) = true /\ allClosed (hero w) = true /\
     labelText v = closedLabel d) /\
  (hasPaperPile v = true <-> i = 0).
Proof.
  intros w Hd Hv. pose proof (reachable_Inv random es) as Hw. fold w in Hw.
  assert (i < 3) as Hi by (apply lookup_lt_Some in Hd; simpl in Hd; lia).
  rewrite (render_lookup _ i d Hd) in Hv. simplify_eq.
  destruct (inv_mounting w i Hw Hi) as (Hm & _ & _).
  fold (phase_of w i) in *. unfold Box_render. simpl.
  split.
  { intros E. destruct (phase_of w i) eqn:Hph; try done;
      exfalso; rewrite E in Hm; destruct Hm as [_ Hm];
      by destruct Hm. }
  split.
  { intros E. apply Hm in E. by destruct (phase_of w i). }
  split.
  { split; [done|]. split; by destruct (phase_of w i). }
  split.
  { intros j v' Hv' H1 H2.
    assert (j < 3) as Hj.
    { apply lookup_lt_Some in Hv'. unfold ScreensaverHero_render in Hv'.
      rewrite length_imap in Hv'. simpl in Hv'. lia. }
    destruct (lookup_lt_is_Some_2 BOX_DATA j) as [d' Hd']; [simpl; lia|].
    rewrite (render_lookup _ j d' Hd') in Hv'. simplify_eq. simpl in H2.
    apply (boxes_order_active w Hw i j).
    - unfold phase_of in *.
      rewrite list_lookup_alt. split; [destruct Hw; simpl; lia|].
      by destruct (phases (hero w) !!! i).
    - rewrite list_lookup_alt. split; [destruct Hw; simpl; lia|].
      by destruct (phases (hero w) !!! j). }
  split.
  { destruct (isShaking (hero w)) eqn:Hs; [|done]. intros _.
    destruct (inv_order w Hw) as [(k & ph & _ & _ & _ & _ & E)|[E _]];
      [congruence|].
    split; [done|]. unfold allClosed, phase_of. rewrite E.
    split; [done|]. destruct i as [|[|[|i]]]; try lia; done. }
  unfold isPileBox.
  destruct i as [|[|[|i]]]; cbn in Hd; simplify_eq; simpl; split;
    intros; try done; lia.
Qed.

End ViewFacts.

Section EarlierFacts.
Variable random : nat -> R.

Lemma static_step w0 e : static w0 -> step0 random w0 e = w0.
Proof.
  destruct w0 as [phs os b]. intros (E1 & E2 & E3 & E4). simpl in *. subst.
  destruct e as [i|t|r]; simpl.
  - destruct (BOX_DATA !! i); [|done].
    destruct i as [|[|[|i]]]; reflexivity.
  - by rewrite E3, lookup_empty.
  - by rewrite E4, lookup_empty.
Qed.

Lemma static_run w0 es : static w0 -> run0 random w0 es = w0.
Proof.
  intros H. induction es as [|e es IH] using rev_ind; [done|].
  unfold run0 in *. rewrite foldl_app. simpl. rewrite IH. by apply static_step.
Qed.

Lemma run0_snoc w0 es e :
  run0 random w0 (es ++ [e]) = step0 random (run0 random w0 es) e.
Proof. unfold run0. by rewrite foldl_app. Qed.

Lemma closed_or_reset w e :
  Inv w -> allClosed (hero w) = true \/ 1 <= resetKey (hero w) ->
  allClosed (hero (step random w e)) = true \/
  1 <= resetKey (hero (step random w e)).
Proof.
  intros Hw H.
  pose proof (inv_enabled w e Hw) as En.
  pose proof (enabled_key _ _ En) as Ek.
  rewrite step_hero.
  destruct H as [H|H]; [|right; rewrite Ek; lia].
  clear Ek. destruct En as [k ph key Hk Hph|k ph key i Hk Hph|dsa shk key c Hc
                            |k key Hk|k key Hk|k key Hk|key|key|shk key|key];
    try (destruct k as [|[|[|?]]]; [| | |lia]);
    try (destruct Hph as [->|[-> | ->]]); try discriminate H.
  - left. destruct Hc as [->|[i ->]]; exact H.
  - by left.
  - by left.
  - by left.
  - right. simpl. lia.
Qed.

Lemma legacy_run es :
  let w := run random (initial_world random) es in
  let w0 := run0 random (initial_world0 random) es in
  (resetKey (hero w) = 0 /\ allClosed (hero w) = false /\ w0 = erase w) \/
  (static w0 /\ (allClosed (hero w) = true \/ 1 <= resetKey (hero w))).
Proof.
  induction es as [|e es IH] using rev_ind.
  - left. done.
  - rewrite run_snoc, run0_snoc. simpl in *.
    pose proof (reachable_Inv random es) as Hw.
    destruct IH as [(Hk & Hopen & E)|[Hs Hc]].
    + destruct (step0_spec random _ e Hw Hopen Hk)
        as (w' & <- & w0' & E0 & Hk' & Hres).
      rewrite E, E0.
      destruct (allClosed (hero (step random _ e))) eqn:Hall; auto.
    + right. rewrite (static_step _ e Hs). split; [done|].
      by apply closed_or_reset.
Qed.

(** X22: until the boxes are all closed for the first time, the page
    of the earlier revision goes through the same phases, components and
    browser state as the current page, event by event. *)
Theorem first_pass_as_before (es : list Event) :
  let w := run random (initial_world random) es in
  resetKey (hero w) = 0 -> allClosed (hero w) = false ->
  run0 random (initial_world0 random) es = erase w.
Proof.
  intros w Hk Hopen.
  destruct (legacy_run es) as [(_ & _ & E)|[_ [H|H]]]; [done|..];
    fold w in H; [congruence|lia].
Qed.

(** X23: in the earlier revision, once all boxes are closed nothing
    is mounted and nothing is pending, and no event changes the page any
    more. *)
Theorem earlier_revision_stops (es : list Event) :
  let w0 := run0 random (initial_world0 random) es in
  forallb is_closed (phases0 w0) = true ->
  static w0 /\ forall es', run0 random w0 es' = w0.
Proof.
  intros w0 Hall.
  assert (static w0) as Hs.
  { destruct (legacy_run es) as [(_ & Hopen & E)|[Hs _]]; [|done].
    fold w0 in E. rewrite E in Hall. unfold allClosed in Hopen.
    simpl in Hall. congruence. }
  split; [done|]. intros es'. by apply static_run.
Qed.

End EarlierFacts.

Section ComponentFacts.
Variable random : nat -> R.

(** *** WordParticles on its own *)

Lemma stopRaf_timers c b :
  timers (stopRaf c b).2 = timers b /\
  gatherCleanup (stopRaf c b).1 = gatherCleanup c /\
  closingCleanup (stopRaf c b).1 = closingCleanup c /\
  gatherFired (stopRaf c b).1 = gatherFired c /\
  closingFired (stopRaf c b).1 = closingFired c.
Proof. unfold stopRaf. by destruct (rafRef c). Qed.

(** X24: a render of the parent while the box is still gathering runs the
    cleanup of the gather effect, which clears the pending timer, and then
    the effect, which schedules none because [gatherFired] is set: the
    timer is lost; and so for closing. *)
Theorem rerender_drops_the_timer (i : nat) (ws : list string) (key : nat)
    (c : WordParticles) (b : Browser) (t : nat) :
  dep_key c = key ->
  (dep_phase c = gathering -> gatherFired c = true ->
   gatherCleanup c = Some t -> closingCleanup c = None ->
   let r := WordParticles_update random i ws gathering key c b in
   timers r.2 = delete t (timers b) /\
   gatherCleanup r.1 = None /\ closingCleanup r.1 = None /\
   gatherFired r.1 = true) /\
  (dep_phase c = closing -> closingFired c = true ->
   closingCleanup c = Some t -> gatherCleanup c = None ->
   let r := WordParticles_update random i ws closing key c b in
   timers r.2 = delete t (timers b) /\
   gatherCleanup r.1 = None /\ closingCleanup r.1 = None /\
   closingFired r.1 = true).
Proof.
  intros Hk. split.
  - intros Hp Hf Hg Hc. unfold WordParticles_update.
    rewrite Hk, Hp, Nat.eqb_refl. simpl.
    unfold WordParticles_rerun, gatherEffect_cleanup, closingEffect_cleanup,
      gatherEffect, closingEffect, with_deps.
    rewrite Hg, Hc. unfold stopRaf. destruct (rafRef c); simpl; rewrite Hf; done.
  - intros Hp Hf Hc Hg. unfold WordParticles_update.
    rewrite Hk, Hp, Nat.eqb_refl. simpl.
    unfold WordParticles_rerun, gatherEffect_cleanup, closingEffect_cleanup,
      gatherEffect, closingEffect, with_deps.
    rewrite Hg, Hc. simpl. rewrite Hf. done.
Qed.

(** X25: unmounting a component clears the timers its cleanups hold and
    cancels the frame in [rafRef] (when the physics effect returned its
    cleanup); it touches no other timer or frame, and neither the handle
    counters nor the count of draws. *)
Theorem unmount_cleans_up (c : WordParticles) (b : Browser) :
  let b' := WordParticles_unmount c b in
  (forall t, gatherCleanup c = Some t \/ closingCleanup c = Some t ->
     timers b' !! t = None) /\
  (forall r, rafRef c = Some r -> physicsCleanup c = true ->
     rafs b' !! r = None) /\
  (forall t, gatherCleanup c <> Some t -> closingCleanup c <> Some t ->
     timers b' !! t = timers b !! t) /\
  (forall r, rafRef c <> Some r -> rafs b' !! r = rafs b !! r) /\
  next_timer b' = next_timer b /\ next_raf b' = next_raf b /\
  draws b' = draws b.
Proof.
  unfold WordParticles_unmount, physicsEffect_cleanup, gatherEffect_cleanup,
    closingEffect_cleanup, stopRaf.
  destruct (physicsCleanup c), (rafRef c) as [r0|],
    (gatherCleanup c) as [tg|], (closingCleanup c) as [tc|]; simpl.
  all: split; [intros t [E|E]; simplify_eq;
               rewrite ?lookup_delete_None; auto|].
  all: split; [intros r E1 E2; simplify_eq;
               rewrite ?lookup_delete_None; auto|].
  all: split; [intros t E1 E2;
               rewrite ?lookup_delete_ne by congruence; reflexivity|].
  all: split; [intros r E1;
               rewrite ?lookup_delete_ne by congruence; reflexivity|].
  all: done.
Qed.

End ComponentFacts.

Lemma createParticles_by_index_witness :
  createParticles drift_random 0 define_words !! 1
    = Some (createParticle drift_random 3 1 "Context").
Proof.
  destruct (createParticles_by_index drift_random 0 define_words)
    as (_ & _ & _ & H).
  exact (H 1 "Context"%string eq_refl).
Defined.

Lemma frames_keep_identity_witness : animate [] = [].
Proof.
  destruct (frames_keep_identity 0 []) as (_ & _ & _ & H). exact (H eq_refl).
Defined.

Lemma wall_reflects_witness : wall still = still.
Proof.
  destruct (wall_reflects still) as (_ & _ & _ & _ & H). apply H.
  unfold in_bounds, still, BOUND_W, BOUNCE_H. simpl.
  repeat split; intros; lra.
Defined.

Lemma renorm_keeps_heading_witness : (0 < SPEED / speed near_a)%R.
Proof.
  destruct (renorm_keeps_heading near_a) as (_ & _ & _ & H & _).
  apply H. unfold speed. simpl.
  replace (hypot 1 0) with 1%R; [lra|]. symmetry. apply hypot_unique; lra.
Defined.

Lemma frame_without_neighbours_witness :
  animate [escaped] = [integrate (wall escaped)].
Proof.
  destruct (frame_without_neighbours [escaped]) as [H _]; [| |exact H].
  - constructor; [|constructor]. unfold speed. simpl.
    apply hypot_unique; unfold SPEED; lra.
  - simpl. split; [constructor|exact I].
Defined.

Lemma frame_moves_by_velocity_witness :
  exists p', animate [still] !! 0 = Some p' /\ x p' = (x still + vx p')%R.
Proof.
  destruct (frame_moves_by_velocity [still] 0 still eq_refl)
    as (p' & H1 & _ & _ & _ & H2).
  exists p'. split; [exact H1|]. apply H2.
  unfold strictly_inside, still, BOUND_W, BOUNCE_H. simpl. lra.
Defined.

Lemma handlers_advance_the_row_witness :
  forallb is_closed
    (handleClosingDone 2 (handleGatherDone 2 (handleClick 2 (row 2 active 0))))
  = true.
Proof.
  destruct (handlers_advance_the_row 2 0) as (_ & _ & H). apply H. reflexivity.
Defined.

Lemma boxes_in_order_witness :
  (1 < 0 -> idle = closed) /\ (0 < 1 -> idle = idle).
Proof.
  destruct (boxes_in_order drift_random [Click 0]) as (_ & _ & H).
  exact (H 0 gathering eq_refl ltac:(discriminate) ltac:(discriminate)
           1 idle eq_refl).
Defined.

Lemma components_follow_state_witness :
  is_Some (particles_of (initial_world drift_random) 0).
Proof.
  destruct (components_follow_state drift_random [] 0) as [H _]; [lia|].
  apply H. discriminate.
Defined.

Lemma vignettes_take_turns_witness :
  on_screen
    (stick_of (run drift_random (initial_world drift_random) three_cycles) 2)
  = true.
Proof.
  destruct (vignettes_take_turns drift_random three_cycles) as [H _].
  apply H. split; reflexivity.
Defined.

Lemma pending_timers_witness :
  timers (browser (initial_world drift_random)) = ∅.
Proof.
  destruct (pending_timers drift_random []) as (_ & _ & _ & H).
  exact (H 0 eq_refl).
Defined.

Lemma one_frame_per_moving_box_witness :
  exists r, rafs (browser (initial_world drift_random)) !! r = Some 1.
Proof.
  destruct (one_frame_per_moving_box drift_random []) as [H _].
  destruct (H 1 _ eq_refl (or_introl eq_refl)) as (r & _ & Hr).
  exists r. exact Hr.
Defined.

Lemma particles_are_frames_of_created_witness :
  exists n,
    particlesRef (words_at (initial_world drift_random) 0)
    = frames n (createParticles drift_random 0 define_words).
Proof.
  destruct (particles_are_frames_of_created drift_random []) as [_ H].
  exact (H 0 (mkBoxData "define" "DEFINE" "DEFINED" define_words)
           (words_at (initial_world drift_random) 0) eq_refl eq_refl).
Defined.

Lemma particles_move_only_by_own_frames_witness :
  particlesRef
    (words_at (step drift_random (initial_world drift_random) (Frame 0)) 0)
  = animate (particlesRef (words_at (initial_world drift_random) 0)).
Proof.
  destruct (particles_move_only_by_own_frames drift_random [] (Frame 0) 0
              (words_at (initial_world drift_random) 0)
              (words_at (step drift_random (initial_world drift_random)
                           (Frame 0)) 0)
              eq_refl eq_refl) as [H _].
  exact (proj1 (H eq_refl)).
Defined.


Lemma transitions_and_timers_witness :
  transition_end (nth_span clicked 0 5) = 720 /\
  ~ transition_end (nth_span clicked 0 5) <= 660.
Proof.
  destruct (transitions_and_timers drift_random [Click 0] 0
              (mkBoxData "define" "DEFINE" "DEFINED" define_words)
              (words_at clicked 0) (spans_at clicked 0) 5 (nth_span clicked 0 5)
              eq_refl eq_refl eq_refl eq_refl) as (_ & H & _).
  destruct (H eq_refl) as (_ & E & Hle & _).
  split; [exact E|]. intros Hn. apply Hle in Hn. lia.
Defined.

Lemma what_each_box_shows_witness :
  exists v, ScreensaverHero_render (hero (initial_world drift_random)) !! 0
              = Some v /\ labelText v = "DEFINE"%string.
Proof.
  destruct (what_each_box_shows drift_random [] 0 _ _ eq_refl eq_refl)
    as (_ & H & _).
  eexists. split; [reflexivity|]. apply H. by eexists.
Defined.

Lemma vignette_handoff_witness :
  handed_over
    (run drift_random (initial_world drift_random) three_cycles)
    (step drift_random
       (run drift_random (initial_world drift_random) three_cycles) (Fire 6)).
Proof.
  destruct (vignette_handoff drift_random three_cycles (Fire 6)) as [H _].
  exact (H eq_refl).
Defined.

Lemma first_pass_as_before_witness :
  run0 drift_random (initial_world0 drift_random) [Click 0]
  = erase (run drift_random (initial_world drift_random) [Click 0]).
Proof.
  apply (first_pass_as_before drift_random [Click 0]); reflexivity.
Defined.

Lemma earlier_revision_stops_witness :
  static (run0 drift_random (initial_world0 drift_random) three_cycles).
Proof.
  destruct (earlier_revision_stops drift_random three_cycles eq_refl)
    as [H _].
  exact H.
Defined.

Lemma rerender_drops_the_timer_witness :
  timers
    (WordParticles_update drift_random 0 define_words gathering 0
       (words_at clicked 0) (browser clicked)).2
  = delete 0 (timers (browser clicked)).
Proof.
  destruct (rerender_drops_the_timer drift_random 0 define_words 0
              (words_at clicked 0) (browser clicked) 0 eq_refl) as [H _].
  exact (proj1 (H eq_refl eq_refl eq_refl eq_refl)).
Defined.

Lemma unmount_cleans_up_witness :
  timers (WordParticles_unmount (words_at clicked 0) (browser clicked)) !! 0
  = None.
Proof.
  destruct (unmount_cleans_up (words_at clicked 0) (browser clicked))
    as [H _].
  apply H. left. reflexivity.
Defined.
